(** * Pre-computed field of view, tracing and line of sight (package core)

    A shallow embedding of the table driven field-of-view code of the
    stones roguelike library: Offset arithmetic, the directional table
    builder (computeTable, addEntry, completeTable), the flood (FoV), the
    wall correction pass (wallfix), the reverse table
    (computeReverseTable), Trace and LoS, together with the integer helpers
    of the package (Max, Min, Mod, Abs, Clamp, InBounds, InRange, Signum)
    and the integer methods of Offset.

    Conventions of the embedding.
    - Go's int is a 64-bit two's complement integer.  It is embedded as Z;
      the Offset methods and Abs, which are applied to caller data, have
      their wrap-around written out with [wrap].  The loop counters of
      computeTable and wallfix never leave the interval from -radius-1 to
      radius+1 (see [computeTable_span]), so their increments are written
      as plain additions.
    - A Go map is a gmap, a Go set (map to struct) is a gset.  Go leaves
      the order of range over a map open; the embedding iterates in the
      order of stdpp's folds and of [elements], and every result below is
      characterised by predicates that do not mention an order.
    - A *Tile is [option ptr]: None is nil, and a non-nil pointer always
      designates a tile of the graph, a total function from ptr to Tile.
    - A nil dereference is the outcome [Panic]; the unbounded loops of
      FoV, Trace and LoS take a fuel argument and yield [OutOfFuel] when it
      is exhausted.
    - completeTable negates coordinates of its argument, which is caller
      data: its negations are Go's, [neg_int], the least int being its own
      negation.  In the tables that computeTable builds no negation meets
      the least int (see [mirror_axes_octant]).
    - tableCache and reverseTableCache memoise computeTable and
      computeReverseTable by radius; a stored table is never modified, so
      a cache hit yields the value a fresh computation would, and the
      embedding calls the builders directly. *)

From stdpp Require Import base numbers option list gmap sets fin_maps relations.

Local Open Scope Z_scope.

(** ** Integers *)

Definition min_int : Z := - 2 ^ 63.
Definition max_int : Z := 2 ^ 63 - 1.

(** Two's complement wrap-around of a 64-bit result. *)
Definition wrap (z : Z) : Z := (z + 2 ^ 63) `mod` 2 ^ 64 - 2 ^ 63.

Definition int_range (z : Z) : Prop := min_int ≤ z ≤ max_int.

(** func Max(x, y int) int *)
Definition Max (x y : Z) : Z := if decide (y > x) then y else x.

(** func Abs(x int) int *)
Definition Abs (x : Z) : Z := if decide (x < 0) then wrap (- x) else x.

(** Go's unary minus on an int: the negation, except that the least int,
    whose negation is no int, is its own negation.  On a machine integer
    this is [wrap (- z)] (see [neg_int_wrap]). *)
Definition neg_int (z : Z) : Z := if decide (z = min_int) then min_int else - z.

(** ** Offset *)

Record Offset : Type := mkOffset { X : Z; Y : Z }.

Global Instance Offset_eq_dec : EqDecision Offset.
Proof. solve_decision. Defined.

Global Instance Offset_countable : Countable Offset :=
  inj_countable' (λ o, (X o, Y o)) (λ p, mkOffset p.1 p.2)
    (λ o, match o with mkOffset _ _ => eq_refl end).

Definition origin_offset : Offset := mkOffset 0 0.

(** func (o Offset) Sub(a Offset) Offset *)
Definition Sub (o a : Offset) : Offset :=
  mkOffset (wrap (X o - X a)) (wrap (Y o - Y a)).

(** func (o Offset) Add(a Offset) Offset *)
Definition Add (o a : Offset) : Offset :=
  mkOffset (wrap (X o + X a)) (wrap (Y o + Y a)).

(** func (o Offset) Neg() Offset *)
Definition Neg (o : Offset) : Offset := mkOffset (wrap (- X o)) (wrap (- Y o)).

(** func (o Offset) Chebyshev() int *)
Definition Chebyshev (o : Offset) : Z := Max (Abs (X o)) (Abs (Y o)).

(** The Chebyshev distance over the integers, without machine arithmetic:
    the ring an offset lies on. *)
Definition ring (o : Offset) : Z := Z.abs (X o) `max` Z.abs (Y o).

(** ** The directional table *)

(** map[Offset]map[Offset]struct{} *)
Abbreviation Table := (gmap Offset (gset Offset)).

(** [table[src]]: the set keyed by src, the nil (empty) map when src is
    not a key. *)
Definition edges (t : Table) (src : Offset) : gset Offset :=
  default ∅ (t !! src).

(** [edge t src dst]: dst is in the set keyed by src. *)
Definition edge (t : Table) (src dst : Offset) : Prop := dst ∈ edges t src.

Global Instance edge_dec (t : Table) (src dst : Offset) :
  Decision (edge t src dst).
Proof. unfold edge. apply _. Defined.

(** func addEntry(table, src, dst) *)
Definition addEntry (table : Table) (src dst : Offset) : Table :=
  match table !! src with
  | None => <[src := {[dst]}]> table
  | Some neighbors => <[src := {[dst]} ∪ neighbors]> table
  end.

(** The update of currBreak and breakCount at the end of a ring. *)
Definition break_step (st : Z * Z) : Z * Z :=
  let '(currBreak, breakCount) := st in
  let breakCount := breakCount - 1 in
  if decide (breakCount < 0) then (currBreak + 1, currBreak + 1)
  else (currBreak, breakCount).

(** The body of the loop over y; the state is nextY and the table. *)
Definition row_step (x currBreak : Z) (st : Z * Table) (y : Z) : Z * Table :=
  let '(nextY, table) := st in
  let pos := mkOffset x y in
  if decide (y = currBreak) then
    (nextY + 2,
     addEntry (addEntry table pos (mkOffset (x + 1) nextY))
       pos (mkOffset (x + 1) (nextY + 1)))
  else
    (nextY + 1, addEntry table pos (mkOffset (x + 1) nextY)).

(** The body of the loop over x; the state is currBreak, breakCount and the
    table.  y runs over 0, ..., x. *)
Definition ring_step (st : Z * Z * Table) (x : Z) : Z * Z * Table :=
  let '(brk, table) := st in
  let table := (foldl (row_step x brk.1) (0, table) (seqZ 0 (x + 1))).2 in
  (break_step brk, table).

(** The table of the first octant: the two seed entries, then x runs over
    1, ..., radius - 1. *)
Definition octantTable (radius : Z) : Table :=
  let table := addEntry ∅ (mkOffset 0 0) (mkOffset 1 0) in
  let table := addEntry table (mkOffset 0 0) (mkOffset 1 1) in
  (foldl ring_step (0, 0, table) (seqZ 1 (radius - 1))).2.

(** The first loop of completeTable: the mirror image across the diagonal.
    The keys are those present when the loop starts, the positions those
    of [table[key]] when the inner loop starts (Go may or may not visit an
    entry created during the iteration; [reflect_again] shows that
    further visits change nothing). *)
Definition mirror_diagonal (table : Table) : Table :=
  map_fold (λ key _ acc,
      let from := mkOffset (Y key) (X key) in
      set_fold (λ pos acc, addEntry acc from (mkOffset (Y pos) (X pos)))
        acc (edges acc key))
    table table.

(** The second loop of completeTable: the mirror images across both axes
    and the origin, with Go's negation. *)
Definition mirror_axes (table : Table) : Table :=
  map_fold (λ key _ acc,
      let negX := mkOffset (neg_int (X key)) (Y key) in
      let negY := mkOffset (X key) (neg_int (Y key)) in
      let negXY := mkOffset (neg_int (X key)) (neg_int (Y key)) in
      set_fold (λ pos acc,
          let acc := addEntry acc negX (mkOffset (neg_int (X pos)) (Y pos)) in
          let acc := addEntry acc negY (mkOffset (X pos) (neg_int (Y pos))) in
          addEntry acc negXY (mkOffset (neg_int (X pos)) (neg_int (Y pos))))
        acc (edges acc key))
    table table.

(** func completeTable(table) *)
Definition completeTable (table : Table) : Table :=
  mirror_axes (mirror_diagonal table).

(** func computeTable(radius int) *)
Definition computeTable (radius : Z) : Table :=
  completeTable (octantTable radius).

(** ** Tiles *)

(** A pointer to a tile of the graph. *)
Definition ptr : Type := N.

(** Modelled from the spec: the Tile of model.go declares Face, Pass,
    Adjacent and Occupant; FoV and LoS read a transparency flag Lite and
    the position Offset of a tile, which the spec describes (a transparency
    flag, true if sight passes through, and an adjacency relation from
    small offsets to neighbouring tiles, absent at map edges).  The record
    keeps the fields the code of this file reads; the position is named
    TileOffset, Offset being the type. *)
Record Tile : Type := mkTile {
  Lite : bool;
  Adjacent : gmap Offset (option ptr);
  TileOffset : Offset
}.

Abbreviation Graph := (ptr → Tile).

(** [t.Adjacent[d]]: nil when d is not a key. *)
Definition adjacent (t : Tile) (d : Offset) : option ptr :=
  default None (Adjacent t !! d).

(** ** Outcomes *)

Inductive outcome (A : Type) : Type :=
  | Done (a : A)
  | Panic
  | OutOfFuel.
Arguments Done {A} a.
Arguments Panic {A}.
Arguments OutOfFuel {A}.

Definition obind {A B} (m : outcome A) (k : A → outcome B) : outcome B :=
  match m with
  | Done a => k a
  | Panic => Panic
  | OutOfFuel => OutOfFuel
  end.

(** ** FoV *)

(** map[Offset]*Tile *)
Abbreviation Fov := (gmap Offset (option ptr)).

(** The loop over [adj := range table[off]] for the popped offset off and
    its tile.  The stack has its top at the head of the list. *)
Fixpoint visit (g : Graph) (tile : option ptr) (off : Offset)
    (adjs : list Offset) (fov : Fov) (stack : list Offset)
    : outcome (Fov * list Offset) :=
  match adjs with
  | [] => Done (fov, stack)
  | adj :: adjs =>
    match tile with
    | None => Panic
    | Some t =>
      let neighbor := adjacent (g t) (Sub adj off) in
      let fov := <[adj := neighbor]> fov in
      match neighbor with
      | None => Panic
      | Some n =>
        if Lite (g n) then visit g tile off adjs fov (adj :: stack)
        else visit g tile off adjs fov stack
      end
    end
  end.

(** The loop [for len(stack) > 0]. *)
Fixpoint flood (fuel : nat) (g : Graph) (table : Table) (fov : Fov)
    (stack : list Offset) : outcome Fov :=
  match stack with
  | [] => Done fov
  | off :: stack =>
    match fuel with
    | O => OutOfFuel
    | S fuel =>
      let tile := default None (fov !! off) in
      match visit g tile off (elements (edges table off)) fov stack with
      | Done (fov, stack) => flood fuel g table fov stack
      | Panic => Panic
      | OutOfFuel => OutOfFuel
      end
    end
  end.

(** One of the four loops of wallfix.  [mk] places the marching coordinate:
    [mkOffset] for the loops over dx, its flip for the loops over dy; s is
    the direction of the march (1 or -1), d the current dx or dy, n the
    number of iterations left.  The loop stops at the first position of
    the axis that is not a key of fov. *)
Fixpoint march (g : Graph) (mk : Z → Z → Offset) (s : Z) (n : nat) (d : Z)
    (fov : Fov) : outcome Fov :=
  match n with
  | O => Done fov
  | S n =>
    match fov !! mk d 0 with
    | None => Done fov
    | Some _ =>
      match default None (fov !! mk (d - s) 0) with
      | None => Panic
      | Some pos =>
        let fov := <[mk d 1 := adjacent (g pos) (mk s 1)]> fov in
        let fov := <[mk d (-1) := adjacent (g pos) (mk s (-1))]> fov in
        march g mk s n (d + s) fov
      end
    end
  end.

Definition along_x (a b : Z) : Offset := mkOffset a b.
Definition along_y (a b : Z) : Offset := mkOffset b a.

(** func wallfix(fov, radius).  The loops counting up run radius times at
    most, those counting down as long as the counter is at least
    [-radius], a wrapped negation.  A loop ends at the first position of
    its axis that is not a key; the keys of fov lie within the radius
    (within ring 1 for a radius below 1), so that no counter reaches the
    limits of the machine integers. *)
Definition wallfix (g : Graph) (fov : Fov) (radius : Z) : outcome Fov :=
  let up := Z.to_nat radius in
  let down := Z.to_nat (- wrap (- radius)) in
  obind (march g along_x 1 up 1 fov) (λ fov,
  obind (march g along_x (-1) down (-1) fov) (λ fov,
  obind (march g along_y 1 up 1 fov) (λ fov,
  march g along_y (-1) down (-1) fov))).

(** func FoV(origin *Tile, radius int) map[Offset]*Tile *)
Definition FoV (fuel : nat) (g : Graph) (origin : option ptr) (radius : Z)
    : outcome Fov :=
  let table := computeTable radius in
  obind (flood fuel g table {[origin_offset := origin]} [origin_offset])
    (λ fov, wallfix g fov radius).

(** ** The reverse table, Trace and LoS *)

(** func computeReverseTable(radius int) map[Offset]Offset *)
Definition computeReverseTable (radius : Z) : gmap Offset Offset :=
  let forward := computeTable radius in
  map_fold (λ pos es reverse,
      set_fold (λ e reverse, <[e := pos]> reverse) reverse es)
    ∅ forward.

(** func getReverseTable(o Offset) map[Offset]Offset *)
Definition getReverseTable (o : Offset) : gmap Offset Offset :=
  computeReverseTable (Chebyshev o).

(** [table[o]] on a map of offsets: the zero Offset when o is not a key. *)
Definition parent (table : gmap Offset Offset) (o : Offset) : Offset :=
  default origin_offset (table !! o).

(** The loop [for goal.X != 0 || goal.Y != 0] of Trace. *)
Fixpoint trace_loop (fuel : nat) (table : gmap Offset Offset)
    (goal : Offset) (path : list Offset) : outcome (list Offset) :=
  if decide (X goal ≠ 0 ∨ Y goal ≠ 0) then
    match fuel with
    | O => OutOfFuel
    | S fuel => trace_loop fuel table (parent table goal) (path ++ [goal])
    end
  else Done path.

(** func Trace(goal Offset) []Offset; the swap loop at its end reverses
    the path. *)
Definition Trace (fuel : nat) (goal : Offset) : outcome (list Offset) :=
  obind (trace_loop fuel (getReverseTable goal) goal [])
    (λ path, Done (reverse path)).

(** The loop [for goal != origin] of LoS. *)
Fixpoint los_loop (fuel : nat) (g : Graph) (table : gmap Offset Offset)
    (origin goal : option ptr) (curr : Offset) : outcome bool :=
  if decide (goal ≠ origin) then
    match fuel with
    | O => OutOfFuel
    | S fuel =>
      match goal with
      | None => Panic
      | Some t =>
        if negb (Lite (g t)) then Done false
        else
          let next := parent table curr in
          los_loop fuel g table origin (adjacent (g t) (Sub next curr)) next
      end
    end
  else Done true.

(** func LoS(origin, goal *Tile) bool *)
Definition LoS (fuel : nat) (g : Graph) (origin goal : option ptr)
    : outcome bool :=
  match goal, origin with
  | Some b, Some a =>
    let curr := Sub (TileOffset (g b)) (TileOffset (g a)) in
    los_loop fuel g (getReverseTable curr) origin goal curr
  | _, _ => Panic
  end.

(** ** The integer helpers and the other methods of Offset *)

(** func (o Offset) Scale(s int) Offset *)
Definition Scale (o : Offset) (s : Z) : Offset :=
  mkOffset (wrap (X o * s)) (wrap (Y o * s)).

(** func (o Offset) Manhattan() int *)
Definition Manhattan (o : Offset) : Z := wrap (Abs (X o) + Abs (Y o)).

(** func Min(x, y int) int *)
Definition Min (x y : Z) : Z := if decide (y < x) then y else x.

(** func Mod(x, y int) int.  Go's [%] is the remainder of the division
    that truncates toward zero, [Z.rem]; it panics for a zero divisor. *)
Definition Mod (x y : Z) : outcome Z :=
  if decide (y = 0) then Panic
  else
    let z := Z.rem x y in
    if decide (z < 0) then Done (wrap (z + y)) else Done z.

(** func Clamp(min, val, max int) int *)
Definition Clamp (min val max : Z) : Z :=
  if decide (val < min) then min
  else if decide (val > max) then max
  else val.

(** func InRange(x, min, max int) bool *)
Definition InRange (x min max : Z) : bool :=
  bool_decide (min ≤ x) && bool_decide (x < max).

(** func InBounds(x, y, w, h int) bool *)
Definition InBounds (x y w h : Z) : bool :=
  bool_decide (0 ≤ x) && bool_decide (x < w) &&
  bool_decide (0 ≤ y) && bool_decide (y < h).

(** func Signum(x int) int *)
Definition Signum (x : Z) : Z := Clamp (-1) x 1.

(** ** Vocabulary of the statements *)

(** The value of currBreak during ring x: [break_step] iterated from the
    initial state, once per completed ring. *)
Definition break_at (x : Z) : Z :=
  (Nat.iter (Z.to_nat (x - 1)) break_step (0, 0)).1.

(** The entries of the first octant for a radius: the source (x, y) has
    0 <= y <= x, lies on ring 0 or on a ring below the radius, and leads to
    (x+1, y) up to the break row and to (x+1, y+1) from the break row on. *)
Definition octant_edge (r : Z) (p d : Offset) : Prop :=
  0 ≤ Y p ≤ X p ∧ (X p = 0 ∨ X p < r) ∧ X d = X p + 1 ∧
  ((Y p ≤ break_at (X p) ∧ Y d = Y p) ∨
   (break_at (X p) ≤ Y p ∧ Y d = Y p + 1)).

(** The eight symmetries of the plane: an optional flip across the
    diagonal followed by optional sign changes of the coordinates. *)
Record sym : Type := mkSym { flips : bool; negs_x : bool; negs_y : bool }.

Definition act (σ : sym) (o : Offset) : Offset :=
  let o := if flips σ then mkOffset (Y o) (X o) else o in
  mkOffset (if negs_x σ then - X o else X o) (if negs_y σ then - Y o else Y o).

(** The loops of completeTable, with the images to add as a list. *)
Definition reflect (images : list (Offset → Offset)) (table : Table) : Table :=
  map_fold (λ key _ acc,
      set_fold (λ pos acc,
          foldl (λ acc φ, addEntry acc (φ key) (φ pos)) acc images)
        acc (edges acc key))
    table table.

Definition flip_diagonal (o : Offset) : Offset := mkOffset (Y o) (X o).
Definition flip_x (o : Offset) : Offset := mkOffset (- X o) (Y o).
Definition flip_y (o : Offset) : Offset := mkOffset (X o) (- Y o).
Definition flip_xy (o : Offset) : Offset := mkOffset (- X o) (- Y o).

(** The images are closed under composition, up to the identity. *)
Definition closed_images (fs : list (Offset → Offset)) : Prop :=
  ∀ φ ψ, φ ∈ fs → ψ ∈ fs →
    (∀ o, φ (ψ o) = o) ∨ ∃ χ, χ ∈ fs ∧ ∀ o, φ (ψ o) = χ o.

Definition image_edge (fs : list (Offset → Offset)) (t : Table)
    (p d : Offset) : Prop :=
  ∃ q e, edge t q e ∧ ((p = q ∧ d = e) ∨ ∃ φ, φ ∈ fs ∧ p = φ q ∧ d = φ e).

(** The images of the second loop of completeTable, with Go's negation. *)
Definition neg_x (o : Offset) : Offset := mkOffset (neg_int (X o)) (Y o).
Definition neg_y (o : Offset) : Offset := mkOffset (X o) (neg_int (Y o)).
Definition neg_xy (o : Offset) : Offset :=
  mkOffset (neg_int (X o)) (neg_int (Y o)).

(** The eight symmetries as completeTable computes them, with Go's
    negation. *)
Definition act_int (σ : sym) (o : Offset) : Offset :=
  let o := if flips σ then mkOffset (Y o) (X o) else o in
  mkOffset (if negs_x σ then neg_int (X o) else X o)
    (if negs_y σ then neg_int (Y o) else Y o).

(** The images are closed under composition, up to the identity, on the
    offsets of a domain. *)
Definition closed_images_on (D : Offset → Prop) (fs : list (Offset → Offset))
    : Prop :=
  ∀ φ ψ, φ ∈ fs → ψ ∈ fs →
    (∀ o, D o → φ (ψ o) = o) ∨ ∃ χ, χ ∈ fs ∧ ∀ o, D o → φ (ψ o) = χ o.

(** One step of the table: the coordinates of the position differ by one
    at most from those of the key. *)
Definition unit_step (k pos : Offset) : Prop :=
  Z.abs (X pos - X k) ≤ 1 ∧ Z.abs (Y pos - Y k) ≤ 1.

(** Every key holds at least one destination. *)
Definition keyed (t : Table) : Prop := ∀ k s, t !! k = Some s → ∃ e, e ∈ s.

(** The offsets the flood pops and expands, with their tiles: the origin,
    and every offset whose transparent tile is the neighbour, in the
    direction the table dictates, of the tile of an expanded offset. *)
Inductive expanded (g : Graph) (table : Table) (origin : ptr)
    : Offset → ptr → Prop :=
  | expanded_origin : expanded g table origin origin_offset origin
  | expanded_step off t adj u :
      expanded g table origin off t → edge table off adj →
      adjacent (g t) (Sub adj off) = Some u → Lite (g u) = true →
      expanded g table origin adj u.

(** The offsets the flood records, with their tiles: the neighbours,
    transparent or not, of the expanded tiles. *)
Definition recorded (g : Graph) (table : Table) (origin : ptr)
    (adj : Offset) (u : ptr) : Prop :=
  ∃ off t, expanded g table origin off t ∧ edge table off adj ∧
    adjacent (g t) (Sub adj off) = Some u.

(** An expanded tile lacks a neighbour in a direction the table dictates. *)
Definition dangling (g : Graph) (table : Table) (origin : ptr) : Prop :=
  ∃ off t adj, expanded g table origin off t ∧ edge table off adj ∧
    adjacent (g t) (Sub adj off) = None.

(** The number of table paths of length at most n that start at an offset:
    a bound on the work the flood spends below it. *)
Fixpoint paths (table : Table) (n : nat) (off : Offset) : nat :=
  match n with
  | O => 1%nat
  | S n => S (sum_list (paths table n <$> elements (edges table off)))
  end.

(** The state of the flood between two iterations of its loop. *)
Definition flood_inv (g : Graph) (table : Table) (origin : ptr)
    (fov : Fov) (stack : list Offset) : Prop :=
  fov !! origin_offset = Some (Some origin) ∧
  (∀ off v, fov !! off = Some v → off ≠ origin_offset →
     ∃ u, v = Some u ∧ recorded g table origin off u) ∧
  (∀ off, off ∈ stack →
     ∃ t, fov !! off = Some (Some t) ∧ expanded g table origin off t) ∧
  (∀ off t, expanded g table origin off t →
     (∃ s, s ∈ stack ∧ rtc (edge table) s off) ∨
     (∀ adj, edge table off adj →
        ∃ u, adjacent (g t) (Sub adj off) = Some u ∧
          fov !! adj = Some (Some u))).

(** The weight of an offset in the flood for a radius: the paths below it,
    the depth being what is left up to the last ring. *)
Definition weight (table : Table) (r : Z) (off : Offset) : nat :=
  paths table (Z.to_nat (Z.max r 1 - ring off)) off.

(** Fuel that suffices for FoV at a radius. *)
Definition flood_fuel (r : Z) : nat := weight (computeTable r) r origin_offset.

(** [wallfix] writes the entry k with the value v: k lies beside a position
    of a cardinal axis that is a key of fov, and v is the diagonal neighbour
    of the tile at the previous position of that axis. *)
Definition patch (g : Graph) (fov : Fov) (k : Offset) (v : option ptr) : Prop :=
  ∃ mk s d b pos,
    (mk = along_x ∨ mk = along_y) ∧ (s = 1 ∨ s = -1) ∧ (b = 1 ∨ b = -1) ∧
    1 ≤ s * d ∧ k = mk d b ∧ is_Some (fov !! mk d 0) ∧
    fov !! mk (d - s) 0 = Some (Some pos) ∧ v = adjacent (g pos) (mk s b).

Definition on_axis (o : Offset) : Prop := X o = 0 ∨ Y o = 0.

(** The state of wallfix between its loops, fov0 being the map it started
    from: the axes are untouched, no key is lost, and every entry is one of
    fov0 or a patch. *)
Definition wall_inv (g : Graph) (fov0 fov : Fov) : Prop :=
  (∀ k, on_axis k → fov !! k = fov0 !! k) ∧
  (∀ k, is_Some (fov0 !! k) → is_Some (fov !! k)) ∧
  (∀ k v, fov !! k = Some v → fov0 !! k = Some v ∨ patch g fov0 k v).

(** The offset reached from o by n steps of the reverse table. *)
Definition ancestor (table : gmap Offset Offset) (n : nat) (o : Offset)
    : Offset :=
  Nat.iter n (parent table) o.

(** ** Two maps *)

(** The eight directions of the compass. *)
Definition compass : list Offset :=
  [mkOffset 1 0; mkOffset 1 1; mkOffset 0 1; mkOffset (-1) 1;
   mkOffset (-1) 0; mkOffset (-1) (-1); mkOffset 0 (-1); mkOffset 1 (-1)].

(** A tile of a map laid out on a grid: [cell] gives the tile at a
    position, if any; the tile at position o is linked, in each direction
    of the compass, to the tile at the position next to o in that
    direction, if any. *)
Definition grid_tile (cell : Offset → option ptr) (lite : bool) (o : Offset)
    : Tile :=
  mkTile lite
    (list_to_map (omap (λ d, (λ t, (d, Some t)) <$> cell (Add o d)) compass))
    o.

(** A walled corridor: the tiles (x, y) with -1 <= x <= 5 and -1 <= y <= 1,
    numbered row by row.  The five tiles (0,0), ..., (4,0) are the corridor,
    the middle one, (2,0), is opaque like the walls around; every tile is
    linked to its neighbours inside the rectangle. *)
Definition hall_cell (o : Offset) : option ptr :=
  if bool_decide (-1 ≤ X o ≤ 5 ∧ -1 ≤ Y o ≤ 1)
  then Some (Z.to_N ((Y o + 1) * 7 + (X o + 1)))
  else None.

Definition hall : Graph := λ id,
  let o := mkOffset (Z.of_N (id `mod` 7) - 1) (Z.of_N (id `div` 7) - 1) in
  grid_tile hall_cell (bool_decide (Y o = 0 ∧ 0 ≤ X o ≤ 4 ∧ X o ≠ 2)) o.

(** The tile (x, 0) of the corridor. *)
Definition hall_at (x : Z) : ptr := Z.to_N (7 + (x + 1)).

(** The graph g with the transparency flag of the tile t set to b. *)
Definition set_Lite (g : Graph) (t : ptr) (b : bool) : Graph := λ id,
  if decide (id = t) then mkTile b (Adjacent (g id)) (TileOffset (g id))
  else g id.

(** Two transparent tiles side by side, and nothing else: tile 0 at (0,0)
    and tile 1 at (1,0), linked to each other. *)
Definition pair_map : Graph := λ id,
  if decide (id = 0%N)
  then mkTile true {[mkOffset 1 0 := Some 1%N]} (mkOffset 0 0)
  else mkTile true {[mkOffset (-1) 0 := Some 0%N]} (mkOffset 1 0).

(** The same two tiles, tile 0 opaque. *)
Definition pair_dark : Graph := set_Lite pair_map 0%N false.

(** A corridor without walls: the five tiles (0,0), ..., (4,0) in a row,
    numbered from the left, the middle one opaque, each linked to the
    tiles beside it. *)
Definition corridor_cell (o : Offset) : option ptr :=
  if bool_decide (0 ≤ X o ≤ 4 ∧ Y o = 0) then Some (Z.to_N (X o)) else None.

Definition corridor : Graph := λ id,
  grid_tile corridor_cell (bool_decide (id ≠ 2%N)) (mkOffset (Z.of_N id) 0).

(** A yard of 7 by 7 tiles, (x, y) with -3 <= x, y <= 3, numbered row by
    row, each linked to its neighbours inside the yard, with two
    irregularities: the tile 34, at (3,1), is opaque, and the link (1,1)
    of the tile 26, at (2,0), is bent to the tile 24 in the middle instead
    of tile 34. *)
Definition yard_cell (o : Offset) : option ptr :=
  if bool_decide (-3 ≤ X o ≤ 3 ∧ -3 ≤ Y o ≤ 3)
  then Some (Z.to_N ((Y o + 3) * 7 + (X o + 3)))
  else None.

Definition yard : Graph := λ id,
  let o := mkOffset (Z.of_N (id `mod` 7) - 3) (Z.of_N (id `div` 7) - 3) in
  let t := grid_tile yard_cell (bool_decide (id ≠ 34%N)) o in
  if decide (id = 26%N)
  then mkTile (Lite t) (<[mkOffset 1 1 := Some 24%N]> (Adjacent t)) (TileOffset t)
  else t.

(** What FoV returns for the yard seen from its middle at radius 3. *)
Definition yard_view : Fov :=
  list_to_map
    [(mkOffset (-3) (-3), Some 0%N); (mkOffset (-2) (-3), Some 1%N);
     (mkOffset (-1) (-3), Some 2%N); (mkOffset 0 (-3), Some 3%N);
     (mkOffset 1 (-3), Some 4%N); (mkOffset 2 (-3), Some 5%N);
     (mkOffset 3 (-3), Some 6%N); (mkOffset (-3) (-2), Some 7%N);
     (mkOffset (-2) (-2), Some 8%N); (mkOffset (-1) (-2), Some 9%N);
     (mkOffset 0 (-2), Some 10%N); (mkOffset 1 (-2), Some 11%N);
     (mkOffset 2 (-2), Some 12%N); (mkOffset 3 (-2), Some 13%N);
     (mkOffset (-3) (-1), Some 14%N); (mkOffset (-2) (-1), Some 15%N);
     (mkOffset (-1) (-1), Some 16%N); (mkOffset 0 (-1), Some 17%N);
     (mkOffset 1 (-1), Some 18%N); (mkOffset 2 (-1), Some 19%N);
     (mkOffset 3 (-1), Some 20%N); (mkOffset (-3) 0, Some 21%N);
     (mkOffset (-2) 0, Some 22%N); (mkOffset (-1) 0, Some 23%N);
     (mkOffset 0 0, Some 24%N); (mkOffset 1 0, Some 25%N);
     (mkOffset 2 0, Some 26%N); (mkOffset 3 0, Some 27%N);
     (mkOffset (-3) 1, Some 28%N); (mkOffset (-2) 1, Some 29%N);
     (mkOffset (-1) 1, Some 30%N); (mkOffset 0 1, Some 31%N);
     (mkOffset 1 1, Some 32%N); (mkOffset 2 1, Some 33%N);
     (mkOffset 3 1, Some 24%N); (mkOffset (-3) 2, Some 35%N);
     (mkOffset (-2) 2, Some 36%N); (mkOffset (-1) 2, Some 37%N);
     (mkOffset 0 2, Some 38%N); (mkOffset 1 2, Some 39%N);
     (mkOffset 2 2, Some 40%N); (mkOffset 3 2, Some 41%N);
     (mkOffset (-3) 3, Some 42%N); (mkOffset (-2) 3, Some 43%N);
     (mkOffset (-1) 3, Some 44%N); (mkOffset 0 3, Some 45%N);
     (mkOffset 1 3, Some 46%N); (mkOffset 2 3, Some 47%N);
     (mkOffset 3 3, Some 48%N)].

(** What FoV returns for the corridor, seen from its left end at radius
    10. *)
Definition hall_view : Fov :=
  list_to_map
    [(mkOffset (-1) (-1), Some 0%N); (mkOffset 0 (-1), Some 1%N);
     (mkOffset (-1) 0, Some 7%N); (mkOffset (-1) 1, Some 14%N);
     (mkOffset 0 1, Some 15%N); (mkOffset 0 0, Some 8%N);
     (mkOffset 1 (-1), Some 2%N); (mkOffset 2 (-1), Some 3%N);
     (mkOffset 2 0, Some 10%N); (mkOffset 1 0, Some 9%N);
     (mkOffset 1 1, Some 16%N); (mkOffset 2 1, Some 17%N)].

(** What FoV returns for the corridor seen from its opaque middle tile at
    radius 10. *)
Definition hall_view_middle : Fov :=
  list_to_map
    [(mkOffset (-3) (-1), Some 0%N); (mkOffset (-2) (-1), Some 1%N);
     (mkOffset (-1) (-1), Some 2%N); (mkOffset 0 (-1), Some 3%N);
     (mkOffset 1 (-1), Some 4%N); (mkOffset 2 (-1), Some 5%N);
     (mkOffset 3 (-1), Some 6%N); (mkOffset (-3) 0, Some 7%N);
     (mkOffset (-2) 0, Some 8%N); (mkOffset (-1) 0, Some 9%N);
     (mkOffset 0 0, Some 10%N); (mkOffset 1 0, Some 11%N);
     (mkOffset 2 0, Some 12%N); (mkOffset 3 0, Some 13%N);
     (mkOffset (-3) 1, Some 14%N); (mkOffset (-2) 1, Some 15%N);
     (mkOffset (-1) 1, Some 16%N); (mkOffset 0 1, Some 17%N);
     (mkOffset 1 1, Some 18%N); (mkOffset 2 1, Some 19%N);
     (mkOffset 3 1, Some 20%N)].

(** A map laid out on a grid: the tile of a cell carries the position of
    the cell, a machine integer pair, and its Adjacent map holds, for the
    eight directions of the compass and for these only, the tile of the
    cell next to it. *)
Record grid (g : Graph) (cell : Offset → option ptr) : Prop := {
  grid_offset : ∀ o t, cell o = Some t →
    TileOffset (g t) = o ∧ int_range (X o) ∧ int_range (Y o);
  grid_adjacent : ∀ o t d, cell o = Some t →
    adjacent (g t) d = if decide (ring d = 1) then cell (Add o d) else None
}.

(** ** Vocabulary of the further properties *)

(** An offset of machine integers. *)
Definition int_offset (o : Offset) : Prop := int_range (X o) ∧ int_range (Y o).

(** The offsets beside a cardinal axis, where wallfix writes. *)
Definition beside_axis (k : Offset) : Prop :=
  (Z.abs (Y k) = 1 ∧ X k ≠ 0) ∨ (Z.abs (X k) = 1 ∧ Y k ≠ 0).

(** The result of a computation passed through a function. *)
Definition omap_outcome {A B} (f : A → B) (m : outcome A) : outcome B :=
  obind m (λ a, Done (f a)).

(** wallfix, started on fov0, has left in fov the entry it writes beside
    the position d of an axis: the diagonal neighbour of the tile that
    fov0 holds at the previous position of the axis. *)
Definition wall_entry (g : Graph) (fov0 fov : Fov) (mk : Z → Z → Offset)
    (s d b : Z) : Prop :=
  ∃ pos, fov0 !! mk (d - s) 0 = Some (Some pos) ∧
    fov !! mk d b = Some (adjacent (g pos) (mk s b)).

(** An open room: the transparent tiles (x, y) with -2 <= x, y <= 2,
    numbered row by row, each linked to its neighbours inside the room. *)
Definition room_cell (o : Offset) : option ptr :=
  if bool_decide (-2 ≤ X o ≤ 2 ∧ -2 ≤ Y o ≤ 2)
  then Some (Z.to_N ((Y o + 2) * 5 + (X o + 2)))
  else None.

Definition room : Graph := λ id,
  grid_tile room_cell true
    (mkOffset (Z.of_N (id `mod` 5) - 2) (Z.of_N (id `div` 5) - 2)).

(** * Proofs *)

(** ** Offsets *)

Lemma offset_eq (p q : Offset) : p = q ↔ X p = X q ∧ Y p = Y q.
Proof. destruct p, q; simpl. split; [by intros [= -> ->] | by intros [-> ->]]. Qed.

Lemma wrap_small z : min_int ≤ z ≤ max_int → wrap z = z.
Proof.
  unfold wrap, min_int, max_int. intros Hz.
  rewrite Z.mod_small by lia. lia.
Qed.

Lemma wrap_range z : min_int ≤ wrap z ≤ max_int.
Proof.
  unfold wrap, min_int, max_int.
  pose proof (Z.mod_pos_bound (z + 2 ^ 63) (2 ^ 64)). lia.
Qed.

(** ** addEntry *)

Lemma edge_addEntry t s e p d :
  edge (addEntry t s e) p d ↔ (p = s ∧ d = e) ∨ edge t p d.
Proof.
  unfold edge, edges, addEntry.
  destruct (t !! s) as [n|] eqn:Hs; destruct (decide (p = s)) as [->|Hne];
    rewrite ?lookup_insert_eq, ?lookup_insert_ne, ?Hs by done; simpl;
    set_solver.
Qed.

Lemma edge_empty p d : ¬ edge ∅ p d.
Proof. unfold edge, edges. rewrite lookup_empty. simpl. set_solver. Qed.

Lemma addEntry_again t s e : edge t s e → addEntry t s e = t.
Proof.
  unfold edge, edges, addEntry. destruct (t !! s) as [n|] eqn:Hs; simpl.
  - intros He. apply insert_id. rewrite Hs. f_equal. set_solver.
  - set_solver.
Qed.

(** ** The first octant *)

Lemma break_step_fst st : 0 ≤ st.1 → 0 ≤ (break_step st).1.
Proof.
  destruct st as [cb bc]; unfold break_step; simpl.
  case_decide; simpl; lia.
Qed.

Lemma break_iter_nonneg n : 0 ≤ (Nat.iter n break_step (0, 0)).1.
Proof. induction n; simpl; [done | by apply break_step_fst]. Qed.

Lemma break_at_nonneg x : 0 ≤ break_at x.
Proof. apply break_iter_nonneg. Qed.

(** The loop over y after its first n iterations. *)
Lemma row_loop x cb t n :
  0 ≤ cb →
  let st := foldl (row_step x cb) (0, t) (seqZ 0 (Z.of_nat n)) in
  st.1 = (if decide (cb < Z.of_nat n) then Z.of_nat n + 1 else Z.of_nat n) ∧
  ∀ p d, edge st.2 p d ↔
    edge t p d ∨
    (X p = x ∧ 0 ≤ Y p < Z.of_nat n ∧ X d = x + 1 ∧
     ((Y p ≤ cb ∧ Y d = Y p) ∨ (cb ≤ Y p ∧ Y d = Y p + 1))).
Proof.
  intros Hcb. induction n as [|n IH].
  - simpl. split; [case_decide; lia|]. intros p d. split; [auto|].
    intros [?|?]; [done|lia].
  - rewrite seqZ_S, foldl_app. simpl in *.
    destruct (foldl (row_step x cb) (0, t) (seqZ 0 (Z.of_nat n)))
      as [nextY t'] eqn:Hst.
    simpl in IH. destruct IH as [HnextY IH].
    unfold row_step. rewrite Z.add_0_l.
    destruct (decide (Z.of_nat n = cb)) as [Heq|Hne]; simpl.
    + split; [repeat case_decide; lia|].
      intros p d. rewrite !edge_addEntry, IH, !offset_eq; simpl.
      case_decide; [lia|]. subst nextY. clear Hst. split.
      * intros [[[? ?] [? ?]]|[[[? ?] [? ?]]|[?|?]]]; [right|right|by left|right]; lia.
      * intros [?|(? & ? & ? & Hd)]; [tauto|].
        destruct (decide (Y p = Z.of_nat n)); [|right; right; right; lia].
        destruct Hd as [[? ?]|[? ?]]; [right; left; lia | left; lia].
    + split; [repeat case_decide; lia|].
      intros p d. rewrite !edge_addEntry, IH, !offset_eq; simpl.
      clear Hst. split.
      * intros [[[? ?] [? ?]]|[?|?]]; [right|by left|right]; [|lia].
        case_decide; lia.
      * intros [?|(? & ? & ? & Hd)]; [tauto|].
        destruct (decide (Y p = Z.of_nat n)); [|right; right; lia].
        left. case_decide; lia.
Qed.

(** The loop over x after its first n iterations. *)
Lemma ring_loop t n :
  let st := foldl ring_step (0, 0, t) (seqZ 1 (Z.of_nat n)) in
  st.1 = Nat.iter n break_step (0, 0) ∧
  ∀ p d, edge st.2 p d ↔
    edge t p d ∨
    (0 ≤ Y p ≤ X p ∧ 1 ≤ X p ≤ Z.of_nat n ∧ X d = X p + 1 ∧
     ((Y p ≤ break_at (X p) ∧ Y d = Y p) ∨
      (break_at (X p) ≤ Y p ∧ Y d = Y p + 1))).
Proof.
  induction n as [|n IH].
  - simpl. split; [done|]. intros p d. split; [auto|]. intros [?|?]; [done|lia].
  - rewrite seqZ_S, foldl_app. simpl in *.
    destruct (foldl ring_step (0, 0, t) (seqZ 1 (Z.of_nat n)))
      as [brk t'] eqn:Hst.
    simpl in IH. destruct IH as [-> IH].
    unfold ring_step. simpl. split; [done|].
    replace (1 + Z.of_nat n + 1) with (Z.of_nat (S (S n))) by lia.
    pose proof (row_loop (1 + Z.of_nat n) (Nat.iter n break_step (0, 0)).1
                  t' (S (S n)) (break_iter_nonneg n)) as [_ Hrow].
    simpl in Hrow. intros p d. rewrite Hrow, IH. clear Hrow IH Hst.
    assert (Hb : ∀ x, x = 1 + Z.of_nat n →
      break_at x = (Nat.iter n break_step (0, 0)).1).
    { intros x ->. unfold break_at. do 3 f_equal. lia. }
    split.
    + intros [[?|?]|(Hx & ? & ? & ?)]; [by left|right; lia|right].
      rewrite (Hb _ Hx). lia.
    + intros [?|(? & ? & ? & Hd)]; [tauto|].
      destruct (decide (X p = 1 + Z.of_nat n)) as [Hx|?].
      * right. rewrite (Hb _ Hx) in Hd. lia.
      * left. right. lia.
Qed.

Lemma octantTable_edge r p d : edge (octantTable r) p d ↔ octant_edge r p d.
Proof.
  unfold octantTable.
  pose proof (ring_loop
    (addEntry (addEntry ∅ (mkOffset 0 0) (mkOffset 1 0))
       (mkOffset 0 0) (mkOffset 1 1)) (Z.to_nat (r - 1))) as [_ H].
  simpl in H.
  destruct (decide (1 ≤ r)) as [Hr|Hr].
  - rewrite Z2Nat.id in H by lia. rewrite H. clear H.
    rewrite !edge_addEntry, !offset_eq. simpl. unfold octant_edge.
    assert (break_at 0 = 0) as Hb0 by done.
    split.
    + intros [[[[? ?] [? ?]]|[[[? ?] [? ?]]|He]]|?].
      * replace (X p) with 0 by lia. rewrite Hb0. lia.
      * replace (X p) with 0 by lia. rewrite Hb0. lia.
      * by apply edge_empty in He.
      * lia.
    + intros (? & ? & ? & Hd).
      destruct (decide (X p = 0)) as [Hx|?]; [|right; lia].
      left. rewrite Hx, Hb0 in Hd. lia.
  - rewrite (seqZ_nil 1 (r - 1)) by lia. simpl.
    rewrite !edge_addEntry, !offset_eq. simpl. unfold octant_edge.
    assert (break_at 0 = 0) as Hb0 by done.
    split.
    + intros [[[? ?] [? ?]]|[[[? ?] [? ?]]|He]].
      * replace (X p) with 0 by lia. rewrite Hb0. lia.
      * replace (X p) with 0 by lia. rewrite Hb0. lia.
      * by apply edge_empty in He.
    + intros (? & ? & ? & Hd).
      assert (X p = 0) as Hx by lia. rewrite Hx, Hb0 in Hd. lia.
Qed.

(** ** Keys hold destinations *)

Lemma keyed_addEntry t s e : keyed t → keyed (addEntry t s e).
Proof.
  intros Ht k n. unfold addEntry.
  destruct (t !! s) as [n'|] eqn:Hs; destruct (decide (k = s)) as [->|Hne];
    rewrite ?lookup_insert_eq, ?lookup_insert_ne by done;
    try (intros [= <-]; exists e; set_solver); apply Ht.
Qed.

Lemma keyed_foldl {A} (f : Table → A → Table) (l : list A) t :
  (∀ t a, keyed t → keyed (f t a)) → keyed t → keyed (foldl f t l).
Proof. intros Hf. revert t. induction l; simpl; auto. Qed.

Lemma keyed_row x cb l st :
  keyed st.2 → keyed (foldl (row_step x cb) st l).2.
Proof.
  revert st. induction l as [|y l IH]; intros [nextY t] Ht; simpl; [done|].
  apply IH. unfold row_step. case_decide; simpl; auto using keyed_addEntry.
Qed.

Lemma keyed_ring l st : keyed st.2 → keyed (foldl ring_step st l).2.
Proof.
  revert st. induction l as [|x l IH]; intros [brk t] Ht; simpl; [done|].
  apply IH. simpl. by apply keyed_row.
Qed.

Lemma keyed_reflect fs t : keyed t → keyed (reflect fs t).
Proof.
  intros Ht. unfold reflect.
  apply (map_fold_weak_ind (λ (acc : Table) (_ : Table), keyed acc)); [done|].
  intros i x m r _ Hr.
  apply (set_fold_ind_L (λ (acc : Table) (_ : gset Offset), keyed acc)); [done|].
  intros pos _ a _ Ha. apply keyed_foldl; auto using keyed_addEntry.
Qed.

(** ** completeTable *)

Lemma images_foldl fs k pos (a : Table) p d :
  edge (foldl (λ acc (φ : Offset → Offset), addEntry acc (φ k) (φ pos)) a fs) p d ↔
  edge a p d ∨ ∃ φ, φ ∈ fs ∧ p = φ k ∧ d = φ pos.
Proof.
  revert a. induction fs as [|f fs IH]; intros a; simpl.
  - split; [auto|]. intros [?|(φ & Hφ & _)]; [done|]. by apply elem_of_nil in Hφ.
  - rewrite IH, edge_addEntry. split.
    + intros [[[-> ->]|?]|(φ & ? & ? & ?)]; [right; exists f|by left|right; exists φ];
        split_and!; try done; set_solver.
    + intros [?|(φ & [->|?]%elem_of_cons & -> & ->)]; [tauto|tauto|].
      right. by exists φ.
Qed.

Lemma images_set_fold fs k (r : Table) (S : gset Offset) p d :
  edge (set_fold (λ pos acc,
          foldl (λ acc (φ : Offset → Offset),
            addEntry acc (φ k) (φ pos)) acc fs) r S) p d ↔
  edge r p d ∨ ∃ pos φ, pos ∈ S ∧ φ ∈ fs ∧ p = φ k ∧ d = φ pos.
Proof.
  revert p d.
  apply (set_fold_ind_L (λ (a : Table) (S : gset Offset), ∀ p d,
    edge a p d ↔ edge r p d ∨ ∃ pos φ, pos ∈ S ∧ φ ∈ fs ∧ p = φ k ∧ d = φ pos)).
  - intros p d. split; [auto|]. intros [?|(pos & ? & ? & _)]; [done|set_solver].
  - intros x S' a Hx IH p d. rewrite images_foldl, IH. split.
    + intros [[?|(pos & φ & ? & ? & ? & ?)]|(φ & ? & ? & ?)].
      * by left.
      * right. exists pos, φ. split_and!; try done. set_solver.
      * right. exists x, φ. split_and!; try done. set_solver.
    + intros [?|(pos & φ & [Hp|Hp]%elem_of_union & ? & ? & ?)].
      * by left; left.
      * apply elem_of_singleton in Hp as ->. right. by exists φ.
      * left; right. by exists pos, φ.
Qed.

Lemma reflect_edge fs t p d :
  closed_images fs → edge (reflect fs t) p d ↔ image_edge fs t p d.
Proof.
  intros Hcl. unfold reflect.
  pose (P := λ (acc : Table) (m : Table),
    (∀ p d, edge t p d → edge acc p d) ∧
    (∀ p d, edge acc p d → image_edge fs t p d) ∧
    (∀ q e φ, is_Some (m !! q) → edge t q e → φ ∈ fs → edge acc (φ q) (φ e))).
  assert (∀ m : Table, P (map_fold (λ key _ acc,
      set_fold (λ pos acc,
          foldl (λ acc (φ : Offset → Offset),
            addEntry acc (φ key) (φ pos)) acc fs)
        acc (edges acc key)) t m) m) as HP.
  { apply (map_fold_weak_ind P).
    - split_and!; [done| |].
      + intros p' d' ?. exists p', d'. auto.
      + intros q e φ [? Hq]. by rewrite lookup_empty in Hq.
    - intros i x m r Hi (H1 & H2 & H3). split_and!.
      + intros p' d' ?. apply images_set_fold. left. auto.
      + intros p' d' [?|(pos & φ & Hpos & Hφ & -> & ->)]%images_set_fold; [auto|].
        destruct (H2 i pos Hpos) as (q & e & Hqe & [[-> ->]|(ψ & Hψ & -> & ->)]).
        * exists q, e. split; [done|]. right. by exists φ.
        * exists q, e. split; [done|].
          destruct (Hcl φ ψ Hφ Hψ) as [Hid|(χ & Hχ & Hcomp)].
          -- left. by rewrite !Hid.
          -- right. exists χ. by rewrite !Hcomp.
      + intros q e φ Hq Hqe Hφ. apply images_set_fold.
        destruct (decide (q = i)) as [->|Hne].
        * right. exists e, φ. split_and!; try done. by apply H1.
        * left. rewrite lookup_insert_ne in Hq by done. by apply H3. }
  destruct (HP t) as (H1 & H2 & H3). split; [apply H2|].
  intros (q & e & Hqe & [[-> ->]|(φ & Hφ & -> & ->)]); [by apply H1|].
  apply H3; [|done..]. unfold edge, edges in Hqe.
  destruct (t !! q); [done|]. simpl in Hqe. set_solver.
Qed.

(** The table a loop of completeTable leaves is closed under its images:
    visiting an entry once more, as Go may do for an entry created during
    the iteration, changes nothing. *)
Lemma reflect_again fs t (φ : Offset → Offset) p d :
  closed_images fs → φ ∈ fs → edge (reflect fs t) p d →
  addEntry (reflect fs t) (φ p) (φ d) = reflect fs t.
Proof.
  intros Hcl Hφ He. apply addEntry_again. apply reflect_edge; [done|].
  apply reflect_edge in He as (q & e & Hqe & Hpd); [|done].
  exists q, e. split; [done|].
  destruct Hpd as [[-> ->]|(ψ & Hψ & -> & ->)].
  - right. by exists φ.
  - destruct (Hcl φ ψ Hφ Hψ) as [Hid|(χ & Hχ & Hcomp)].
    + left. by rewrite !Hid.
    + right. exists χ. by rewrite !Hcomp.
Qed.

Lemma mirror_diagonal_reflect t : mirror_diagonal t = reflect [flip_diagonal] t.
Proof. reflexivity. Qed.

Lemma mirror_axes_reflect t : mirror_axes t = reflect [neg_x; neg_y; neg_xy] t.
Proof. reflexivity. Qed.

Lemma closed_diagonal : closed_images [flip_diagonal].
Proof.
  intros φ ψ ->%list_elem_of_singleton ->%list_elem_of_singleton. left.
  by intros [].
Qed.

Lemma closed_axes : closed_images [flip_x; flip_y; flip_xy].
Proof.
  intros φ ψ Hφ Hψ.
  assert (∀ a : Z, - - a = a) as Hopp by (intros; lia).
  assert (∀ χ : Offset → Offset, χ = flip_x ∨ χ = flip_y ∨ χ = flip_xy →
    χ ∈ [flip_x; flip_y; flip_xy]) as Hin.
  { intros χ [-> | [-> | ->] ]; set_solver. }
  repeat (apply elem_of_cons in Hφ as [->|Hφ]);
    repeat (apply elem_of_cons in Hψ as [->|Hψ]);
    try (by apply elem_of_nil in Hφ); try (by apply elem_of_nil in Hψ);
    first
      [ left; intros []; unfold flip_x, flip_y, flip_xy; simpl; by rewrite ?Hopp
      | right; exists flip_x; split; [auto|];
        intros []; unfold flip_x, flip_y, flip_xy; simpl; by rewrite ?Hopp
      | right; exists flip_y; split; [auto|];
        intros []; unfold flip_x, flip_y, flip_xy; simpl; by rewrite ?Hopp
      | right; exists flip_xy; split; [auto|];
        intros []; unfold flip_x, flip_y, flip_xy; simpl; by rewrite ?Hopp ].
Qed.

(** *** Go's negation and the negation of Z *)

Lemma neg_int_wrap z : int_range z → neg_int z = wrap (- z).
Proof.
  intros Hz. unfold neg_int. case_decide as Hm.
  - subst z. reflexivity.
  - rewrite wrap_small; [done|]. unfold int_range, min_int, max_int in *. lia.
Qed.

Lemma neg_int_opp z : z ≠ min_int → neg_int z = - z.
Proof. intros. unfold neg_int. by rewrite decide_False. Qed.

(** Two folds agree when their steps agree on the states met. *)
Lemma foldr_agree {A B} (I : B → Prop) (f f' : A → B → B) b l :
  I b → (∀ a r, a ∈ l → I r → f a r = f' a r ∧ I (f' a r)) →
  foldr f b l = foldr f' b l ∧ I (foldr f' b l).
Proof.
  intros Hb. induction l as [|a l IH]; intros Hf; simpl; [done|].
  destruct IH as [-> HI]; [intros; apply Hf; [by right|done]|].
  apply Hf; [by left|done].
Qed.

Lemma images_agree (fs fs' : list (Offset → Offset)) k pos (a : Table) :
  Forall2 (λ φ φ', φ k = φ' k ∧ φ pos = φ' pos) fs fs' →
  foldl (λ acc (φ : Offset → Offset), addEntry acc (φ k) (φ pos)) a fs =
  foldl (λ acc (φ : Offset → Offset), addEntry acc (φ k) (φ pos)) a fs'.
Proof.
  intros Hfs. revert a. induction Hfs as [|φ φ' fs fs' [E1 E2] _ IH];
    intros a; simpl; [done|]. rewrite E1, E2. apply IH.
Qed.

(** Two families of images give the same table when they agree on the
    entries the loop meets. *)
Lemma reflect_agree (P : Offset → Offset → Prop)
    (fs fs' : list (Offset → Offset)) (t : Table) :
  Forall2 (λ φ φ', ∀ k pos, is_Some (t !! k) → P k pos →
    φ k = φ' k ∧ φ pos = φ' pos) fs fs' →
  (∀ k pos (φ' : Offset → Offset), φ' ∈ fs' → P k pos → P (φ' k) (φ' pos)) →
  (∀ k pos, edge t k pos → P k pos) →
  reflect fs t = reflect fs' t.
Proof.
  intros Hfs Hcl Ht. unfold reflect. rewrite !map_fold_foldr.
  apply (foldr_agree (λ acc : Table, ∀ k pos, edge acc k pos → P k pos));
    [done|].
  intros [k x] r Hk%elem_of_map_to_list Hr. simpl.
  unfold set_fold. simpl.
  apply (foldr_agree (λ acc : Table, ∀ k pos, edge acc k pos → P k pos));
    [done|].
  intros pos a Hpos%elem_of_elements Ha. split.
  - apply images_agree. eapply Forall2_impl; [exact Hfs|].
    intros φ φ' H. apply H; [by rewrite Hk|by apply Hr].
  - intros p d [?|(φ' & Hφ' & -> & ->)]%images_foldl; [by apply Ha|].
    apply Hcl; [done|]. by apply Hr.
Qed.

(** On a table of unit steps whose keys have no negative coordinate, the
    negations of the second loop of completeTable are those of Z. *)
Lemma mirror_axes_plain (t : Table) :
  (∀ k, is_Some (t !! k) → 0 ≤ X k ∧ 0 ≤ Y k) →
  (∀ k pos, edge t k pos → unit_step k pos) →
  mirror_axes t = reflect [flip_x; flip_y; flip_xy] t.
Proof.
  intros Hkey Hstep. rewrite mirror_axes_reflect.
  apply (reflect_agree unit_step); [| |done].
  - assert (∀ k pos, is_Some (t !! k) → unit_step k pos →
      neg_int (X k) = - X k ∧ neg_int (Y k) = - Y k ∧
      neg_int (X pos) = - X pos ∧ neg_int (Y pos) = - Y pos) as Hneg.
    { intros k pos [? ?]%Hkey [? ?].
      rewrite !neg_int_opp by (unfold min_int; lia). done. }
    constructor; [|constructor; [|constructor; [|constructor] ] ];
      intros k pos Hk Hp;
      destruct (Hneg k pos Hk Hp) as (E1 & E2 & E3 & E4);
      unfold neg_x, neg_y, neg_xy, flip_x, flip_y, flip_xy;
      by rewrite ?E1, ?E2, ?E3, ?E4.
  - intros k pos φ' Hφ' [? ?].
    repeat (apply elem_of_cons in Hφ' as [->|Hφ']);
      [| | |by apply elem_of_nil in Hφ'];
      unfold unit_step, flip_x, flip_y, flip_xy; simpl; lia.
Qed.

(** The table of the first octant, mirrored across the diagonal. *)
Lemma mirror_axes_octant r :
  mirror_axes (mirror_diagonal (octantTable r)) =
  reflect [flip_x; flip_y; flip_xy] (mirror_diagonal (octantTable r)).
Proof.
  assert (∀ k pos, edge (mirror_diagonal (octantTable r)) k pos →
    (0 ≤ X k ∧ 0 ≤ Y k) ∧ unit_step k pos) as Hoct.
  { intros k pos. rewrite mirror_diagonal_reflect.
    rewrite (reflect_edge _ _ _ _ closed_diagonal). unfold image_edge.
    setoid_rewrite octantTable_edge.
    intros (q & e & Hqe & [[-> ->]|(φ & ->%list_elem_of_singleton & -> & ->)]);
      unfold octant_edge, unit_step, flip_diagonal in *; simpl; lia. }
  apply mirror_axes_plain.
  - intros k [s Hs].
    assert (keyed (mirror_diagonal (octantTable r))) as Hkeyed.
    { rewrite mirror_diagonal_reflect. apply keyed_reflect. unfold octantTable.
      apply keyed_ring. simpl. do 2 apply keyed_addEntry.
      intros k' s' Hk'. by rewrite lookup_empty in Hk'. }
    destruct (Hkeyed k s Hs) as [e He].
    apply (Hoct k e). unfold edge, edges. by rewrite Hs.
  - intros k pos He. by apply Hoct.
Qed.

(** The entries of the complete table are the images of the entries of the
    first octant under the eight symmetries. *)
Lemma computeTable_edge r p d :
  edge (computeTable r) p d ↔
  ∃ σ q e, octant_edge r q e ∧ p = act σ q ∧ d = act σ e.
Proof.
  unfold computeTable, completeTable.
  rewrite mirror_axes_octant, reflect_edge by apply closed_axes.
  unfold image_edge.
  setoid_rewrite mirror_diagonal_reflect.
  setoid_rewrite (reflect_edge _ _ _ _ closed_diagonal).
  unfold image_edge. setoid_rewrite octantTable_edge.
  split.
  - intros (q & e & (q' & e' & Hoct & Hd) & Ha).
    assert (∃ b, q = act (mkSym b false false) q' ∧ e = act (mkSym b false false) e')
      as (b & -> & ->).
    { destruct Hd as [[-> ->]|(φ & ->%list_elem_of_singleton & -> & ->)].
      - exists false. by destruct q', e'.
      - exists true. by destruct q', e'. }
    destruct Ha as [[-> ->]|(φ & Hφ & -> & ->)]; [by eauto 6|].
    repeat (apply elem_of_cons in Hφ as [->|Hφ]); [| | |by apply elem_of_nil in Hφ].
    + exists (mkSym b true false), q', e'. by destruct b.
    + exists (mkSym b false true), q', e'. by destruct b.
    + exists (mkSym b true true), q', e'. by destruct b.
  - intros ([b nx ny] & q & e & Hoct & -> & ->).
    exists (act (mkSym b false false) q), (act (mkSym b false false) e). split.
    + exists q, e. split; [done|]. destruct b.
      * right. exists flip_diagonal. split; [apply list_elem_of_here|done].
      * left. by destruct q, e.
    + destruct nx, ny.
      * right. exists flip_xy. split; [set_solver|]. by destruct b.
      * right. exists flip_x. split; [set_solver|]. by destruct b.
      * right. exists flip_y. split; [set_solver|]. by destruct b.
      * left. by destruct b.
Qed.

(** ** The shape of the table *)

Ltac sym_cases :=
  repeat match goal with
  | σ : sym |- _ => destruct σ as [[] [] []]
  | o : Offset |- _ => destruct o
  end;
  unfold octant_edge, act, ring in *; cbn in *.

Lemma ring_act σ o : ring (act σ o) = ring o.
Proof. sym_cases; lia. Qed.

Lemma ring_nonneg o : 0 ≤ ring o.
Proof. unfold ring. lia. Qed.

Lemma ring_zero o : ring o = 0 ↔ o = origin_offset.
Proof. rewrite offset_eq. unfold ring. simpl. lia. Qed.

Lemma act_inj σ o o' : act σ o = act σ o' → o = o'.
Proof. rewrite !offset_eq. sym_cases; lia. Qed.

Lemma act_compose σ τ : ∃ ρ, ∀ o, act σ (act τ o) = act ρ o.
Proof.
  destruct σ as [b nx ny], τ as [b' nx' ny'].
  exists (mkSym (xorb b b')
            (xorb nx (if b then ny' else nx'))
            (xorb ny (if b then nx' else ny'))).
  intros [x y]. destruct b, nx, ny, b', nx', ny'; unfold act; simpl;
    f_equal; lia.
Qed.

Lemma octant_edge_ring r q e :
  octant_edge r q e →
  ring q = X q ∧ ring e = X q + 1 ∧ 0 ≤ Y e ≤ X e ∧ (X q = 0 ∨ X q < r).
Proof. sym_cases. pose proof (break_at_nonneg X0). lia. Qed.

Lemma octant_edge_dst r q e : octant_edge r q e → 1 ≤ X e ∧ 0 ≤ Y e ≤ X e.
Proof. unfold octant_edge. pose proof (break_at_nonneg (X q)). lia. Qed.

(** Every entry leads from a ring to the next one, and its source lies on
    ring 0 or on a ring below the radius. *)
Lemma edge_ring r p d :
  edge (computeTable r) p d →
  ring d = ring p + 1 ∧ (ring p = 0 ∨ ring p < r).
Proof.
  intros (σ & q & e & Hoct%octant_edge_ring & -> & ->)%computeTable_edge.
  rewrite !ring_act. lia.
Qed.

(** Every entry is a step to one of the eight neighbours. *)
Lemma edge_step r p d :
  edge (computeTable r) p d →
  -1 ≤ X d - X p ≤ 1 ∧ -1 ≤ Y d - Y p ≤ 1.
Proof.
  intros (σ & q & e & Hoct & -> & ->)%computeTable_edge.
  sym_cases; lia.
Qed.

Lemma octant_pred_unique r r' q q' e :
  octant_edge r q e → octant_edge r' q' e → q = q'.
Proof.
  intros H H'. assert (X q = X q') as Hx by (sym_cases; lia).
  apply offset_eq. split; [done|].
  unfold octant_edge in *. rewrite <-Hx in H'. lia.
Qed.

(** An offset has at most one predecessor, whatever the radii of the
    tables the entries are taken from. *)
Lemma edge_pred_unique r r' p p' d :
  edge (computeTable r) p d → edge (computeTable r') p' d → p = p'.
Proof.
  intros (σ & q & e & Hoct & -> & Hd)%computeTable_edge
         (σ' & q' & e' & Hoct' & -> & Hd')%computeTable_edge.
  subst d.
  assert (e = e') as <-.
  { apply octant_edge_dst in Hoct, Hoct'. apply offset_eq in Hd'.
    apply offset_eq. clear q q'.
    destruct σ as [[] [] []], σ' as [[] [] []], e, e'; unfold act in *;
      cbn in *; lia. }
  assert (q = q') as <- by eauto using octant_pred_unique.
  clear Hoct'. apply offset_eq in Hd'. apply offset_eq.
  pose proof (break_at_nonneg (X q)).
  destruct Hoct as (? & _ & ? & ?).
  destruct σ as [[] [] []], σ' as [[] [] []], q, e; unfold act in *;
    cbn in *; lia.
Qed.

(** The table is closed under every symmetry. *)
Lemma edge_act r σ p d :
  edge (computeTable r) p d → edge (computeTable r) (act σ p) (act σ d).
Proof.
  intros (τ & q & e & Hoct & -> & ->)%computeTable_edge.
  apply computeTable_edge. destruct (act_compose σ τ) as [ρ Hρ].
  exists ρ, q, e. by rewrite !Hρ.
Qed.

(** The tables of two radii agree on the rings they share. *)
Lemma edge_mono k r p d :
  k ≤ r → edge (computeTable k) p d → edge (computeTable r) p d.
Proof.
  intros Hk (σ & q & e & Hoct & -> & ->)%computeTable_edge.
  apply computeTable_edge. exists σ, q, e. split; [|done].
  unfold octant_edge in *. lia.
Qed.

Lemma edge_restrict k r p d :
  edge (computeTable r) p d → ring d ≤ 1 ∨ ring d ≤ k →
  edge (computeTable k) p d.
Proof.
  intros (σ & q & e & Hoct & -> & ->)%computeTable_edge Hd.
  apply computeTable_edge. exists σ, q, e. split; [|done].
  rewrite ring_act in Hd. pose proof (octant_edge_ring _ _ _ Hoct).
  unfold octant_edge in *. lia.
Qed.

(** The eight neighbours of the origin are its successors for every
    radius. *)
Lemma edge_origin r d :
  edge (computeTable r) origin_offset d ↔ ring d = 1.
Proof.
  split.
  - intros [Hd _]%edge_ring. by rewrite Hd.
  - intros Hd. apply computeTable_edge.
    assert (∀ σ e, (e = mkOffset 1 0 ∨ e = mkOffset 1 1) → d = act σ e →
      ∃ σ q e, octant_edge r q e ∧ origin_offset = act σ q ∧ d = act σ e) as Hex.
    { intros σ e He ->. exists σ, origin_offset, e. split_and!; [|by destruct σ as [[] [] []]|done].
      unfold octant_edge. change (break_at (X origin_offset)) with 0.
      destruct He as [-> | ->]; simpl; lia. }
    destruct d as [x y]. unfold ring in Hd. simpl in Hd.
    destruct (decide (x = 1)), (decide (x = -1)), (decide (x = 0)),
      (decide (y = 1)), (decide (y = -1)), (decide (y = 0)); try lia; subst.
    + by apply (Hex (mkSym false false false) (mkOffset 1 1)); auto.
    + by apply (Hex (mkSym false false true) (mkOffset 1 1)); auto.
    + by apply (Hex (mkSym false false false) (mkOffset 1 0)); auto.
    + by apply (Hex (mkSym false true false) (mkOffset 1 1)); auto.
    + by apply (Hex (mkSym false true true) (mkOffset 1 1)); auto.
    + by apply (Hex (mkSym false true false) (mkOffset 1 0)); auto.
    + by apply (Hex (mkSym true false false) (mkOffset 1 0)); auto.
    + by apply (Hex (mkSym true false true) (mkOffset 1 0)); auto.
Qed.

(** On a cardinal axis the predecessor is the previous position of the
    axis. *)
Lemma edge_axis r p d :
  edge (computeTable r) p d → (X d = 0 ∨ Y d = 0) →
  (Y d = 0 → Y p = 0) ∧ (X d = 0 → X p = 0).
Proof.
  intros (σ & q & e & Hoct & -> & ->)%computeTable_edge Hd.
  pose proof (break_at_nonneg (X q)). sym_cases; lia.
Qed.

(** ** The keys of the table *)

Lemma keyed_computeTable r : keyed (computeTable r).
Proof.
  unfold computeTable, completeTable.
  rewrite mirror_axes_reflect, mirror_diagonal_reflect.
  do 2 apply keyed_reflect. unfold octantTable.
  apply keyed_ring. simpl. do 2 apply keyed_addEntry.
  intros k s Hk. by rewrite lookup_empty in Hk.
Qed.

(** The keys of the table are the sources of its entries. *)
Lemma key_edge r p :
  is_Some (computeTable r !! p) ↔ ∃ d, edge (computeTable r) p d.
Proof.
  split.
  - intros [s Hs]. destruct (keyed_computeTable r p s Hs) as [e He].
    exists e. unfold edge, edges. by rewrite Hs.
  - intros [d Hd]. unfold edge, edges in Hd.
    destruct (computeTable r !! p); [done|]. simpl in Hd. set_solver.
Qed.

(** ** The reverse table *)

(** The reverse table holds, for every destination of the forward table,
    its one source. *)
Lemma computeReverseTable_lookup r d p :
  computeReverseTable r !! d = Some p ↔ edge (computeTable r) p d.
Proof.
  unfold computeReverseTable.
  pose (P := λ (rev : gmap Offset Offset) (m : Table),
    (∀ d p, rev !! d = Some p → ∃ s, m !! p = Some s ∧ d ∈ s) ∧
    (∀ p s d, m !! p = Some s → d ∈ s → is_Some (rev !! d))).
  assert (∀ m : Table, P (map_fold (λ pos es reverse,
      set_fold (λ e reverse, <[e := pos]> reverse) reverse es) ∅ m) m) as HP.
  { apply (map_fold_weak_ind P).
    - split; [intros ?? H; by rewrite lookup_empty in H|].
      intros ??? H; by rewrite lookup_empty in H.
    - intros i x m rev Hi [H1 H2].
      assert (∀ d p, set_fold (λ e reverse, <[e := i]> reverse) rev x !! d
                = Some p ↔ (d ∈ x ∧ p = i) ∨ ((d ∉ x) ∧ rev !! d = Some p)) as Hin.
      { apply (set_fold_ind_L (λ (a : gmap Offset Offset) (S : gset Offset),
          ∀ d p, a !! d = Some p ↔
            (d ∈ S ∧ p = i) ∨ ((d ∉ S) ∧ rev !! d = Some p))).
        - intros d' p'. set_solver.
        - intros e S a He IH d' p'.
          destruct (decide (d' = e)) as [->|Hne].
          + rewrite lookup_insert_eq. set_solver.
          + rewrite lookup_insert_ne, IH by done. set_solver. }
      split.
      + intros d' p' [[? ->]|[? Hrev]]%Hin.
        * exists x. by rewrite lookup_insert_eq.
        * destruct (H1 _ _ Hrev) as (s & Hs & ?). exists s.
          rewrite lookup_insert_ne; [done|]. intros <-. congruence.
      + intros p' s d' Hp' Hd'.
        destruct (decide (d' ∈ x)) as [Hx|Hx].
        * exists i. apply Hin. auto.
        * destruct (decide (p' = i)) as [->|Hne].
          { rewrite lookup_insert_eq in Hp'. congruence. }
          rewrite lookup_insert_ne in Hp' by done.
          destruct (H2 _ _ _ Hp' Hd') as [q Hq]. exists q. apply Hin. auto. }
  destruct (HP (computeTable r)) as [H1 H2]. split.
  - intros (s & Hs & Hd)%H1. unfold edge, edges. by rewrite Hs.
  - intros Hd. assert (Hd' := Hd). unfold edge, edges in Hd'.
    destruct (computeTable r !! p) as [s|] eqn:Hs; [|simpl in Hd'; set_solver].
    destruct (H2 _ _ _ Hs Hd') as [q Hq]. rewrite Hq. f_equal.
    destruct (H1 _ _ Hq) as (s' & Hs' & Hd'').
    apply (edge_pred_unique r r q p d); [|done].
    unfold edge, edges. by rewrite Hs'.
Qed.

(** A step to the parent goes down at least one ring. *)
Lemma parent_ring r o :
  o ≠ origin_offset → ring (parent (computeReverseTable r) o) < ring o.
Proof.
  intros Ho. unfold parent.
  destruct (computeReverseTable r !! o) as [p|] eqn:Hp; simpl.
  - apply computeReverseTable_lookup, edge_ring in Hp as [Hp _].
    pose proof (ring_nonneg p). lia.
  - pose proof (ring_nonneg o).
    assert (ring o ≠ 0) by (by intros ?%ring_zero).
    change (ring origin_offset) with 0. lia.
Qed.

Lemma goal_test o : (X o ≠ 0 ∨ Y o ≠ 0) ↔ o ≠ origin_offset.
Proof. rewrite offset_eq. simpl. lia. Qed.

(** The loop of Trace returns once its fuel covers the ring of the goal;
    it appends the goal first, never the origin. *)
Lemma trace_loop_done r fuel goal path :
  ring goal ≤ Z.of_nat fuel →
  ∃ l, trace_loop fuel (computeReverseTable r) goal path = Done (path ++ l) ∧
    (origin_offset ∉ l) ∧
    (goal ≠ origin_offset → head l = Some goal) ∧
    (goal = origin_offset → l = []).
Proof.
  revert goal path. induction fuel as [|fuel IH]; intros goal path Hfuel.
  - assert (goal = origin_offset) as ->.
    { apply ring_zero. pose proof (ring_nonneg goal). lia. }
    exists []. simpl. rewrite app_nil_r. split_and!; try done. set_solver.
  - cbn [trace_loop]. destruct (decide (X goal ≠ 0 ∨ Y goal ≠ 0)) as [Hg|Hg].
    + apply goal_test in Hg.
      destruct (IH (parent (computeReverseTable r) goal) (path ++ [goal]))
        as (l & -> & Hl & _).
      { pose proof (parent_ring r goal Hg). lia. }
      exists (goal :: l). rewrite <-app_assoc. split_and!; try done.
      rewrite elem_of_cons. intros [?|?]; [congruence|done].
    + rewrite goal_test in Hg. apply dec_stable in Hg. subst goal.
      exists []. rewrite app_nil_r. split_and!; try done. set_solver.
Qed.

(** ** The flood *)

Section flood.
Context (g : Graph) (table : Table) (origin : ptr) (r : Z).

(** What the flood needs of the table: entries lead to the next ring,
    from ring 0 or from below the radius, and an offset has one
    predecessor at most. *)
Hypothesis table_ring : ∀ p d,
  edge table p d → ring d = ring p + 1 ∧ (ring p = 0 ∨ ring p < r).
Hypothesis table_unique : ∀ p p' d,
  edge table p d → edge table p' d → p = p'.

Local Abbreviation expanded := (expanded g table origin).
Local Abbreviation recorded := (recorded g table origin).
Local Abbreviation flood_inv := (flood_inv g table origin).
Local Abbreviation weight := (weight table r).

Lemma edge_not_origin p : ¬ edge table p origin_offset.
Proof.
  intros [Hp _]%table_ring. pose proof (ring_nonneg p).
  change (ring origin_offset) with 0 in Hp. lia.
Qed.

Lemma expanded_functional off t t' :
  expanded off t → expanded off t' → t = t'.
Proof.
  intros H. revert t'. induction H as [|off t adj u H IH He Ha Hl]; intros t' H'.
  - inversion H' as [|off' t0 adj' u' _ He']; subst; [done|].
    exfalso. by eapply edge_not_origin.
  - inversion H' as [Ho|off' t0 adj' u' H0 He' Ha' Hl']; subst.
    + exfalso. by eapply edge_not_origin.
    + assert (off' = off) as -> by eauto.
      rewrite (IH _ H0) in Ha. congruence.
Qed.

Lemma recorded_functional off u u' :
  recorded off u → recorded off u' → u = u'.
Proof.
  intros (p & t & Hp & He & Ha) (p' & t' & Hp' & He' & Ha').
  assert (p' = p) as -> by eauto.
  rewrite (expanded_functional _ _ _ Hp Hp') in Ha. congruence.
Qed.

Lemma expanded_recorded off t :
  expanded off t → off ≠ origin_offset → recorded off t ∧ Lite (g t) = true.
Proof. destruct 1; [done|]. intros _. split; [|done]. by exists off, t. Qed.

Lemma expanded_reach off t : expanded off t → rtc (edge table) origin_offset off.
Proof.
  induction 1; [done|]. eapply rtc_r; eauto.
Qed.

(** The offsets on the way to an expanded offset are expanded. *)
Lemma expanded_between s off t :
  expanded off t → rtc (edge table) s off → ∃ ts, expanded s ts.
Proof.
  intros Hoff Hs. revert s Hs.
  apply (rtc_ind_l (λ s, ∃ ts, expanded s ts)); [eauto|].
  intros s c Hsc Hc [tc Htc].
  inversion Htc as [Ho|p tp adj u Hp He Ha Hl]; subst.
  - exfalso. by eapply edge_not_origin.
  - assert (p = s) as -> by eauto. eauto.
Qed.

Lemma sum_cons (w : Offset → nat) a l :
  sum_list (w <$> a :: l) = (w a + sum_list (w <$> l))%nat.
Proof. done. Qed.

Lemma visit_cons t off a adjs fov stack :
  visit g (Some t) off (a :: adjs) fov stack =
  match adjacent (g t) (Sub a off) with
  | None => Panic
  | Some u =>
    visit g (Some t) off adjs (<[a := Some u]> fov)
      (if Lite (g u) then a :: stack else stack)
  end.
Proof.
  cbn [visit]. destruct (adjacent (g t) (Sub a off)) as [u|]; [|done].
  by destruct (Lite (g u)).
Qed.

(** The loop over the entries of one offset. *)
Lemma visit_cases (w : Offset → nat) t off adjs fov stack :
  (∃ adj, adj ∈ adjs ∧ adjacent (g t) (Sub adj off) = None ∧
     visit g (Some t) off adjs fov stack = Panic) ∨
  (∃ fov' stack', visit g (Some t) off adjs fov stack = Done (fov', stack') ∧
    (∀ adj, adj ∈ adjs → ∃ u, adjacent (g t) (Sub adj off) = Some u ∧
       fov' !! adj = Some (Some u)) ∧
    (∀ k, k ∉ adjs → fov' !! k = fov !! k) ∧
    (∀ s, s ∈ stack' ↔ s ∈ stack ∨
       (s ∈ adjs ∧ ∃ u, adjacent (g t) (Sub s off) = Some u ∧
          Lite (g u) = true)) ∧
    (sum_list (w <$> stack') ≤ sum_list (w <$> stack) + sum_list (w <$> adjs))%nat).
Proof.
  revert fov stack. induction adjs as [|a adjs IH]; intros fov stack.
  - right. exists fov, stack. simpl. split_and!; try done; [set_solver| |lia].
    intros s. set_solver.
  - rewrite visit_cons. destruct (adjacent (g t) (Sub a off)) as [u|] eqn:Ha.
    + set (fov1 := <[a := Some u]> fov).
      set (stack1 := if Lite (g u) then a :: stack else stack).
      destruct (IH fov1 stack1)
        as [(adj & ? & ? & ?)|(fov' & stack' & Hv & H1 & H2 & H3 & H4)].
      * left. exists adj. split_and!; try done. set_solver.
      * right. exists fov', stack'. split_and!; [done| | | |].
        -- intros adj [->|Hadj]%elem_of_cons; [|by apply H1].
           destruct (decide (a ∈ adjs)) as [Hin|Hin]; [by apply H1|].
           exists u. split; [done|]. rewrite H2 by done.
           apply lookup_insert_eq.
        -- intros k [Hk1 Hk2]%not_elem_of_cons.
           rewrite H2 by done. by apply lookup_insert_ne.
        -- intros s. rewrite H3. unfold stack1.
           destruct (Lite (g u)) eqn:Hl; rewrite ?elem_of_cons.
           ++ split; [|naive_solver]. intros [[->|?]|?]; [|tauto|naive_solver].
              right. eauto.
           ++ split; [naive_solver|]. intros [?|[[->|?] (u' & Hu' & Hl')]]; [tauto| |].
              ** congruence.
              ** right. eauto.
        -- unfold stack1 in H4.
           destruct (Lite (g u)); rewrite ?sum_cons in *; lia.
    + left. exists a. split_and!; [set_solver|done|done].
Qed.

Lemma weight_children off :
  (sum_list (weight <$> elements (edges table off)) < weight off)%nat.
Proof.
  unfold weight at 2.
  destruct (Z.to_nat (Z.max r 1 - ring off)) as [|n] eqn:Hn.
  - destruct (elements (edges table off)) as [|c l] eqn:Hel; [simpl; lia|].
    assert (edge table off c) as [? ?]%table_ring.
    { unfold edge. apply elem_of_elements. rewrite Hel. set_solver. }
    pose proof (ring_nonneg off). lia.
  - simpl. apply Nat.lt_succ_r, Nat.eq_le_incl. f_equal.
    apply list_fmap_ext. intros i c Hc.
    assert (edge table off c) as [? ?]%table_ring.
    { unfold edge. apply elem_of_elements. by eapply list_elem_of_lookup_2. }
    unfold weight. f_equal. lia.
Qed.

Lemma weight_pos off : (0 < weight off)%nat.
Proof. pose proof (weight_children off). lia. Qed.

(** One iteration of the loop of the flood keeps its invariant. *)
Lemma flood_inv_step fov off stack t fov' stack' :
  flood_inv fov (off :: stack) →
  fov !! off = Some (Some t) → expanded off t →
  (∀ adj, edge table off adj → ∃ u, adjacent (g t) (Sub adj off) = Some u ∧
     fov' !! adj = Some (Some u)) →
  (∀ k, ¬ edge table off k → fov' !! k = fov !! k) →
  (∀ s, s ∈ stack' ↔ s ∈ stack ∨
     (edge table off s ∧ ∃ u, adjacent (g t) (Sub s off) = Some u ∧
        Lite (g u) = true)) →
  flood_inv fov' stack'.
Proof.
  intros (I0 & I1 & I2 & I3) Hoff Ht V1 V2 V3. split_and!.
  - rewrite V2; [done|]. apply edge_not_origin.
  - intros k v Hk Hne. destruct (decide (edge table off k)) as [He|He].
    + destruct (V1 k He) as (u & Hu & Hk'). exists u. split; [congruence|].
      by exists off, t.
    + rewrite V2 in Hk by done. by apply I1.
  - intros s [Hs|(He & u & Hu & Hl)]%V3.
    + destruct (I2 s) as (ts & Hts & Hes); [set_solver|].
      exists ts. split; [|done].
      destruct (decide (edge table off s)) as [He|He]; [|by rewrite V2].
      destruct (V1 s He) as (u & Hu & ->). do 2 f_equal.
      apply (recorded_functional s); [by exists off, t|].
      apply expanded_recorded; [done|]. intros ->. by eapply edge_not_origin.
    + destruct (V1 s He) as (u' & Hu' & ->). exists u.
      split; [congruence|]. by eapply expanded_step.
  - intros o to Ho. destruct (I3 o to Ho) as [(s & Hs & Hso)|Hdone].
    + apply elem_of_cons in Hs as [->|Hs]; [|left; exists s; split; [apply V3|]; auto].
      destruct (rtc_inv _ _ Hso) as [<-|(c & Hc & Hco)].
      * right. rewrite (expanded_functional _ _ _ Ho Ht). apply V1.
      * destruct (expanded_between c o to Ho Hco) as [tc Htc].
        left. exists c. split; [|done]. apply V3. right. split; [done|].
        inversion Htc as [Hz|p tp adj u Hp He Ha Hl]; subst.
        { exfalso. by eapply edge_not_origin. }
        assert (p = off) as -> by eauto.
        rewrite (expanded_functional _ _ _ Hp Ht) in Ha. eauto.
    + right. intros adj Hadj. destruct (decide (edge table off adj)) as [He|He].
      * assert (o = off) as -> by eauto.
        rewrite (expanded_functional _ _ _ Ho Ht). by apply V1.
      * rewrite V2 by done. by apply Hdone.
Qed.

(** The flood, whatever its fuel: a result satisfies the invariant with
    an empty stack, a panic stems from a missing neighbour, and fuel only
    runs out below the weight of the stack. *)
Lemma flood_outcome fuel fov stack :
  flood_inv fov stack →
  match flood fuel g table fov stack with
  | Done fov' => flood_inv fov' []
  | Panic => dangling g table origin
  | OutOfFuel => (fuel < sum_list (weight <$> stack))%nat
  end.
Proof.
  revert fov stack. induction fuel as [|fuel IH]; intros fov stack Hinv.
  - destruct stack as [|off stack]; [done|]. cbn [flood].
    rewrite sum_cons. pose proof (weight_pos off). lia.
  - destruct stack as [|off stack]; [done|]. cbn [flood].
    destruct Hinv as (I0 & I1 & I2 & I3).
    destruct (I2 off) as (t & Hoff & Ht); [set_solver|].
    rewrite Hoff. change (default None (Some (Some t))) with (Some t).
    destruct (visit_cases weight t off (elements (edges table off)) fov stack)
      as [(adj & Hadj & Ha & ->)|(fov' & stack' & -> & V1 & V2 & V3 & V4)].
    + exists off, t, adj. split_and!; try done. by apply elem_of_elements.
    + assert (flood_inv fov' stack') as Hinv'.
      { eapply (flood_inv_step fov off stack t); try done.
        - intros adj Hadj. apply V1. by apply elem_of_elements.
        - intros k Hk. apply V2. by rewrite elem_of_elements.
        - intros s. rewrite V3. by rewrite elem_of_elements. }
      specialize (IH fov' stack' Hinv').
      destruct (flood fuel g table fov' stack'); [done..|].
      pose proof (weight_children off). rewrite sum_cons. lia.
Qed.

Lemma flood_inv_init :
  flood_inv {[origin_offset := Some origin]} [origin_offset].
Proof.
  split_and!.
  - apply lookup_singleton_eq.
  - intros off v Hoff Hne. by rewrite lookup_singleton_ne in Hoff.
  - intros off ->%list_elem_of_singleton. exists origin.
    split; [apply lookup_singleton_eq|constructor].
  - intros off t Ht. left. exists origin_offset.
    split; [set_solver|by eapply expanded_reach].
Qed.

(** What a finished flood holds. *)
Lemma flood_inv_final fov :
  flood_inv fov [] →
  fov !! origin_offset = Some (Some origin) ∧
  (∀ off u, off ≠ origin_offset →
     fov !! off = Some (Some u) ↔ recorded off u) ∧
  (∀ off v, fov !! off = Some v → is_Some v) ∧
  ¬ dangling g table origin.
Proof.
  intros (I0 & I1 & I2 & I3).
  assert (∀ off t adj, expanded off t → edge table off adj →
    ∃ u, adjacent (g t) (Sub adj off) = Some u ∧ fov !! adj = Some (Some u))
    as Hdone.
  { intros off t adj Ht He.
    destruct (I3 off t Ht) as [(s & Hs & _)|Hd]; [set_solver|by apply Hd]. }
  split_and!; [done| | |].
  - intros off u Hne. split.
    + intros Hoff. destruct (I1 _ _ Hoff Hne) as (u' & [= <-] & ?). done.
    + intros (p & t & Hp & He & Ha).
      destruct (Hdone p t off Hp He) as (u' & Hu' & ->). congruence.
  - intros off v Hoff. destruct (decide (off = origin_offset)) as [->|Hne].
    + rewrite I0 in Hoff. injection Hoff as <-. eauto.
    + destruct (I1 _ _ Hoff Hne) as (u & -> & _). eauto.
  - intros (off & t & adj & Ht & He & Ha).
    destruct (Hdone off t adj Ht He) as (u & Hu & _). congruence.
Qed.
End flood.

(** ** wallfix *)

(** The four loops of wallfix, as the source writes them, are the four
    instances of [march]. *)
Lemma march_dx_up g n dx fov :
  march g along_x 1 (S n) dx fov =
  match fov !! mkOffset dx 0 with
  | None => Done fov
  | Some _ =>
    match default None (fov !! mkOffset (dx - 1) 0) with
    | None => Panic
    | Some pos =>
      march g along_x 1 n (dx + 1)
        (<[mkOffset dx (-1) := adjacent (g pos) (mkOffset 1 (-1))]>
           (<[mkOffset dx 1 := adjacent (g pos) (mkOffset 1 1)]> fov))
    end
  end.
Proof. reflexivity. Qed.

Lemma march_dx_down g n dx fov :
  march g along_x (-1) (S n) dx fov =
  match fov !! mkOffset dx 0 with
  | None => Done fov
  | Some _ =>
    match default None (fov !! mkOffset (dx + 1) 0) with
    | None => Panic
    | Some pos =>
      march g along_x (-1) n (dx - 1)
        (<[mkOffset dx (-1) := adjacent (g pos) (mkOffset (-1) (-1))]>
           (<[mkOffset dx 1 := adjacent (g pos) (mkOffset (-1) 1)]> fov))
    end
  end.
Proof. reflexivity. Qed.

Lemma march_dy_up g n dy fov :
  march g along_y 1 (S n) dy fov =
  match fov !! mkOffset 0 dy with
  | None => Done fov
  | Some _ =>
    match default None (fov !! mkOffset 0 (dy - 1)) with
    | None => Panic
    | Some pos =>
      march g along_y 1 n (dy + 1)
        (<[mkOffset (-1) dy := adjacent (g pos) (mkOffset (-1) 1)]>
           (<[mkOffset 1 dy := adjacent (g pos) (mkOffset 1 1)]> fov))
    end
  end.
Proof. reflexivity. Qed.

Lemma march_dy_down g n dy fov :
  march g along_y (-1) (S n) dy fov =
  match fov !! mkOffset 0 dy with
  | None => Done fov
  | Some _ =>
    match default None (fov !! mkOffset 0 (dy + 1)) with
    | None => Panic
    | Some pos =>
      march g along_y (-1) n (dy - 1)
        (<[mkOffset (-1) dy := adjacent (g pos) (mkOffset (-1) (-1))]>
           (<[mkOffset 1 dy := adjacent (g pos) (mkOffset 1 (-1))]> fov))
    end
  end.
Proof. reflexivity. Qed.

(** One loop of wallfix returns and keeps the invariant, provided each key
    of its axis has the tile of the previous position recorded. *)
Lemma march_inv g fov0 mk s n d fov :
  (mk = along_x ∨ mk = along_y) → (s = 1 ∨ s = -1) → 1 ≤ s * d →
  (∀ d', 1 ≤ s * d' → is_Some (fov0 !! mk d' 0) →
     ∃ pos, fov0 !! mk (d' - s) 0 = Some (Some pos)) →
  wall_inv g fov0 fov →
  ∃ fov', march g mk s n d fov = Done fov' ∧ wall_inv g fov0 fov'.
Proof.
  intros Hmk Hs Hd Hax. revert d fov Hd.
  induction n as [|n IH]; intros d fov Hd Hinv; [by exists fov|].
  cbn [march]. destruct (fov !! mk d 0) as [v|] eqn:Hkey; [|by exists fov].
  destruct Hinv as (A1 & A2 & A3).
  assert (∀ a, on_axis (mk a 0)) as Haxis.
  { intros a. unfold on_axis. destruct Hmk as [-> | ->]; simpl; auto. }
  rewrite A1 in Hkey by done.
  destruct (Hax d Hd) as [pos Hpos]; [by rewrite Hkey|].
  rewrite A1, Hpos by done. simpl.
  apply IH; [destruct Hs as [-> | ->]; lia|].
  assert (∀ b, b = 1 ∨ b = -1 → ¬ on_axis (mk d b)) as Hoff.
  { intros b Hb. unfold on_axis. destruct Hmk as [-> | ->]; simpl; nia. }
  assert (∀ b, b = 1 ∨ b = -1 →
    patch g fov0 (mk d b) (adjacent (g pos) (mk s b))) as Hpatch.
  { intros b Hb. exists mk, s, d, b, pos.
    split_and!; done. }
  split_and!.
  - intros k Hk. rewrite !lookup_insert_ne; [by apply A1|..];
      intros <-; revert Hk; apply Hoff; auto.
  - intros k Hk. rewrite !lookup_insert. repeat case_decide; eauto.
  - intros k v'. rewrite !lookup_insert. repeat case_decide; subst.
    + intros [= <-]. right. apply Hpatch. auto.
    + intros [= <-]. right. apply Hpatch. auto.
    + apply A3.
Qed.

Lemma wall_inv_refl g fov : wall_inv g fov fov.
Proof. split_and!; auto. Qed.

Lemma wallfix_inv g fov0 r :
  (∀ mk s d, (mk = along_x ∨ mk = along_y) → (s = 1 ∨ s = -1) → 1 ≤ s * d →
     is_Some (fov0 !! mk d 0) →
     ∃ pos, fov0 !! mk (d - s) 0 = Some (Some pos)) →
  ∃ fov, wallfix g fov0 r = Done fov ∧ wall_inv g fov0 fov.
Proof.
  intros Hax. unfold wallfix.
  destruct (march_inv g fov0 along_x 1 (Z.to_nat r) 1 fov0)
    as (fov1 & -> & H1); [auto|auto|lia|eauto|apply wall_inv_refl|].
  cbn [obind].
  destruct (march_inv g fov0 along_x (-1) (Z.to_nat (- wrap (- r))) (-1) fov1)
    as (fov2 & -> & H2); [auto|auto|lia|eauto|done|].
  cbn [obind].
  destruct (march_inv g fov0 along_y 1 (Z.to_nat r) 1 fov2)
    as (fov3 & -> & H3); [auto|auto|lia|eauto|done|].
  cbn [obind].
  destruct (march_inv g fov0 along_y (-1) (Z.to_nat (- wrap (- r))) (-1) fov3)
    as (fov4 & -> & H4); [auto|auto|lia|eauto|done|].
  by exists fov4.
Qed.

(** ** FoV *)

Lemma wrap_unit z : -1 ≤ z ≤ 1 → wrap z = z.
Proof. intros. apply wrap_small. unfold min_int, max_int. lia. Qed.

(** The direction of a table entry. *)
Lemma Sub_edge r p d :
  edge (computeTable r) p d →
  Sub d p = mkOffset (X d - X p) (Y d - Y p) ∧ ring (Sub d p) = 1.
Proof.
  intros He. pose proof (edge_step _ _ _ He) as [Hx Hy].
  pose proof (edge_ring _ _ _ He) as [Hr _].
  unfold Sub. rewrite !wrap_unit by done. split; [done|].
  unfold ring in *. simpl. lia.
Qed.

Section fov.
Context (g : Graph) (origin : ptr) (r : Z).

Local Abbreviation table := (computeTable r).
Local Abbreviation start := ({[origin_offset := Some origin]} : Fov).

Lemma flood_computeTable fuel :
  match flood fuel g table start [origin_offset] with
  | Done fov' => flood_inv g table origin fov' []
  | Panic => dangling g table origin
  | OutOfFuel => (fuel < flood_fuel r)%nat
  end.
Proof.
  pose proof (flood_outcome g table origin r (edge_ring r)
    (edge_pred_unique r r) fuel start [origin_offset]
    (flood_inv_init g table origin r (edge_ring r)
       (edge_pred_unique r r))) as H.
  destruct (flood fuel g table start [origin_offset]); [done..|].
  rewrite sum_cons in H. unfold flood_fuel. simpl in H. lia.
Qed.

(** Along a cardinal axis the flood records the previous position of
    every key. *)
Lemma flood_axis fov0 mk s d :
  flood_inv g table origin fov0 [] →
  (mk = along_x ∨ mk = along_y) → (s = 1 ∨ s = -1) → 1 ≤ s * d →
  is_Some (fov0 !! mk d 0) →
  ∃ pos, fov0 !! mk (d - s) 0 = Some (Some pos).
Proof.
  intros Hinv Hmk Hs Hd [v Hv].
  destruct (flood_inv_final g table origin r (edge_ring r)
    (edge_pred_unique r r) fov0 Hinv)
    as (F0 & F1 & F2 & _).
  assert (mk d 0 ≠ origin_offset) as Hne.
  { rewrite offset_eq. destruct Hmk as [-> | ->]; simpl; nia. }
  destruct (F2 _ _ Hv) as [u ->].
  apply F1 in Hv as (p & t & Hp & He & _); [|done].
  assert (p = mk (d - s) 0) as ->.
  { pose proof (edge_step _ _ _ He) as [Hx Hy].
    pose proof (edge_ring _ _ _ He) as [Hr _].
    pose proof (edge_axis r p (mk d 0) He) as [Ha1 Ha2].
    { destruct Hmk as [-> | ->]; simpl; auto. }
    apply offset_eq. unfold ring in Hr.
    destruct Hmk as [-> | ->], Hs as [-> | ->]; simpl in *; lia. }
  destruct (decide (mk (d - s) 0 = origin_offset)) as [Hz|Hz].
  - rewrite Hz. eauto.
  - exists t. apply F1; [done|].
    by apply (expanded_recorded g table origin).
Qed.

(** A result of FoV is the result of the flood, patched by wallfix. *)
Lemma FoV_done fuel fov :
  FoV fuel g (Some origin) r = Done fov →
  ∃ fov0, flood_inv g table origin fov0 [] ∧ wall_inv g fov0 fov.
Proof.
  unfold FoV. pose proof (flood_computeTable fuel) as Hfl.
  destruct (flood fuel g table start [origin_offset]) as [fov0| |]; [|done..].
  cbn [obind]. intros Hw. exists fov0. split; [done|].
  destruct (wallfix_inv g fov0 r) as (fov' & Hw' & ?);
    [eauto using flood_axis|]. congruence.
Qed.

(** With enough fuel FoV returns unless an expanded tile lacks a
    neighbour, and panics when one does. *)
Lemma FoV_enough fuel :
  (flood_fuel r ≤ fuel)%nat →
  (¬ dangling g table origin ∧ ∃ fov, FoV fuel g (Some origin) r = Done fov) ∨
  (dangling g table origin ∧ FoV fuel g (Some origin) r = Panic).
Proof.
  intros Hfuel. unfold FoV. pose proof (flood_computeTable fuel) as Hfl.
  destruct (flood fuel g table start [origin_offset]) as [fov0| |]; [| |lia].
  - left. split.
    + by apply (flood_inv_final g table origin r (edge_ring r)
    (edge_pred_unique r r) fov0).
    + cbn [obind].
      destruct (wallfix_inv g fov0 r) as (fov' & Hw' & ?);
        [eauto using flood_axis|]. eauto.
  - by right.
Qed.
End fov.

(** ** Fuel *)

Lemma trace_loop_mono fuel fuel' table goal path l :
  trace_loop fuel table goal path = Done l → (fuel ≤ fuel')%nat →
  trace_loop fuel' table goal path = Done l.
Proof.
  revert fuel' goal path. induction fuel as [|fuel IH]; intros fuel' goal path.
  - destruct fuel'; simpl; case_decide; try done.
  - intros H Hle. destruct fuel' as [|fuel']; [lia|].
    cbn [trace_loop] in *. case_decide; [|done]. apply IH; [done|lia].
Qed.

Lemma flood_mono fuel fuel' g table fov stack fov' :
  flood fuel g table fov stack = Done fov' → (fuel ≤ fuel')%nat →
  flood fuel' g table fov stack = Done fov'.
Proof.
  revert fuel' fov stack. induction fuel as [|fuel IH]; intros fuel' fov stack.
  - destruct stack, fuel'; simpl; done.
  - intros H Hle. destruct fuel' as [|fuel']; [lia|].
    destruct stack as [|off stack]; [done|]. cbn [flood] in *.
    destruct (visit g (default None (fov !! off)) off
                (elements (edges table off)) fov stack) as [[fov1 stack1]| |];
      [|done..].
    apply IH; [done|lia].
Qed.

Lemma FoV_mono fuel fuel' g origin r fov :
  FoV fuel g origin r = Done fov → (fuel ≤ fuel')%nat →
  FoV fuel' g origin r = Done fov.
Proof.
  unfold FoV. intros H Hle.
  destruct (flood fuel g (computeTable r) {[origin_offset := origin]}
              [origin_offset]) as [fov0| |] eqn:Hfl; [|done..].
  by rewrite (flood_mono _ _ _ _ _ _ _ Hfl Hle).
Qed.

(** ** Distances *)

Lemma Abs_le x R : Z.abs x ≤ R → Abs x ≤ R.
Proof.
  unfold Abs. case_decide; [|lia]. intros Hx.
  destruct (decide (- x ≤ max_int)).
  - rewrite wrap_small; [lia|]. unfold min_int, max_int in *. lia.
  - pose proof (wrap_range (- x)). lia.
Qed.

Lemma Chebyshev_le o R : ring o ≤ R → Chebyshev o ≤ R.
Proof.
  unfold ring, Chebyshev, Max. intros Ho.
  pose proof (Abs_le (X o) R). pose proof (Abs_le (Y o) R).
  case_decide; lia.
Qed.

Lemma Abs_abs x : Z.abs x ≤ max_int → Abs x = Z.abs x.
Proof.
  intros Hx. unfold Abs. case_decide; [|lia].
  rewrite wrap_small; [lia|]. unfold min_int, max_int in *. lia.
Qed.

Lemma Chebyshev_ring o : ring o ≤ max_int → Chebyshev o = ring o.
Proof.
  unfold ring, Chebyshev, Max. intros Ho.
  rewrite !Abs_abs by lia. case_decide; lia.
Qed.

(** ** The table: symmetry and extent *)

(** C5.  Whenever the table of a radius r >= 1 holds the destination d
    under the key p, it holds, for each of the reflections across the
    diagonal, across either axis and across the origin, and for each of the
    eight symmetries of the plane they generate, the reflected destination
    under the reflected key. *)
Theorem computeTable_symmetric r p d :
  1 ≤ r → edge (computeTable r) p d →
  edge (computeTable r) (flip_diagonal p) (flip_diagonal d) ∧
  edge (computeTable r) (flip_x p) (flip_x d) ∧
  edge (computeTable r) (flip_y p) (flip_y d) ∧
  edge (computeTable r) (flip_xy p) (flip_xy d) ∧
  ∀ σ, edge (computeTable r) (act σ p) (act σ d).
Proof.
  intros _ He. split_and!.
  - apply (edge_act r (mkSym true false false)) in He. by destruct p, d.
  - apply (edge_act r (mkSym false true false)) in He. by destruct p, d.
  - apply (edge_act r (mkSym false false true)) in He. by destruct p, d.
  - apply (edge_act r (mkSym false true true)) in He. by destruct p, d.
  - intros σ. by apply edge_act.
Qed.

Lemma computeTable_symmetric_witness :
  1 ≤ 3 ∧ edge (computeTable 3) (mkOffset 2 1) (mkOffset 3 2) ∧
  edge (computeTable 3) (mkOffset 1 2) (mkOffset 2 3) ∧
  edge (computeTable 3) (mkOffset (-2) 1) (mkOffset (-3) 2).
Proof.
  assert (edge (computeTable 3) (mkOffset 2 1) (mkOffset 3 2)) as He.
  { apply (bool_decide_unpack _). vm_compute. exact I. }
  assert (1 ≤ 3) as Hr by lia.
  pose proof (computeTable_symmetric 3 _ _ Hr He) as (H1 & H2 & _).
  exact (conj Hr (conj He (conj H1 H2))).
Defined.

(** The offsets of a table lie within the radius (within ring 1 when the
    radius is not positive): the counters of computeTable and wallfix stay
    within the machine integers. *)
Lemma computeTable_span r p d :
  edge (computeTable r) p d → ring p < Z.max r 1 ∧ ring d ≤ Z.max r 1.
Proof. intros [? ?]%edge_ring. lia. Qed.

(** C8.  Every key and every destination of the table of a radius r >= 1
    has a Chebyshev distance of at most r + 1. *)
Theorem computeTable_bounded r o :
  1 ≤ r →
  is_Some (computeTable r !! o) ∨ (∃ p, edge (computeTable r) p o) →
  Chebyshev o ≤ r + 1.
Proof.
  intros Hr Ho. apply Chebyshev_le.
  destruct Ho as [[d Hd%computeTable_span]%key_edge|[p Hp%computeTable_span]]; lia.
Qed.

Lemma computeTable_bounded_witness :
  1 ≤ 3 ∧
  (is_Some (computeTable 3 !! mkOffset 2 1) ∨
   ∃ p, edge (computeTable 3) p (mkOffset 2 1)) ∧
  Chebyshev (mkOffset 2 1) ≤ 3 + 1.
Proof.
  assert (1 ≤ 3) as Hr by lia.
  assert (is_Some (computeTable 3 !! mkOffset 2 1) ∨
          ∃ p, edge (computeTable 3) p (mkOffset 2 1)) as Ho.
  { right. exists (mkOffset 1 0). apply (bool_decide_unpack _). vm_compute. exact I. }
  exact (conj Hr (conj Ho (computeTable_bounded 3 _ Hr Ho))).
Defined.

(** ** The reverse table and Trace *)

Lemma ancestor_S table n o :
  ancestor table (S n) o = ancestor table n (parent table o).
Proof. unfold ancestor. by rewrite Nat.iter_succ_r. Qed.

(** The chain of parents reaches the origin within as many steps as the
    ring of its start, going down a ring or more at each step. *)
Lemma ancestor_descent r o :
  ∃ n, Z.of_nat n ≤ ring o ∧
    ancestor (computeReverseTable r) n o = origin_offset ∧
    ∀ i j, (i < j ≤ n)%nat →
      ring (ancestor (computeReverseTable r) j o)
      < ring (ancestor (computeReverseTable r) i o).
Proof.
  remember (Z.to_nat (ring o)) as k eqn:Hk. revert o Hk.
  induction k as [k IH] using lt_wf_ind. intros o Hk.
  destruct (decide (o = origin_offset)) as [->|Hne].
  - exists 0%nat. split_and!; [done..|]. intros i j ?. lia.
  - pose proof (parent_ring r o Hne) as Hp.
    pose proof (ring_nonneg (parent (computeReverseTable r) o)).
    destruct (IH (Z.to_nat (ring (parent (computeReverseTable r) o)))
                ltac:(lia) _ eq_refl) as (n & Hn & Hz & Hdesc).
    exists (S n). split_and!; [lia|by rewrite ancestor_S|].
    intros i j Hij. destruct j as [|j]; [lia|]. rewrite ancestor_S.
    destruct i as [|i].
    + change (ancestor (computeReverseTable r) 0 o) with o.
      destruct j as [|j]; [done|].
      specialize (Hdesc 0%nat (S j) ltac:(lia)).
      change (ancestor (computeReverseTable r) 0
                (parent (computeReverseTable r) o))
        with (parent (computeReverseTable r) o) in Hdesc. lia.
    + rewrite ancestor_S. apply Hdesc. lia.
Qed.

(** C4.  For a radius r >= 1 and a key o of the reverse table other than
    the origin: the chain of predecessors from o reaches the origin after
    at least one and at most r steps and never repeats an offset; the
    predecessor of o is the one source the forward table has for it; and
    the loop of Trace over this table returns when started at o with fuel
    for r iterations. *)
Theorem reverse_chain r o :
  1 ≤ r → is_Some (computeReverseTable r !! o) → o ≠ origin_offset →
  (∃ n, (1 ≤ n)%nat ∧ Z.of_nat n ≤ r ∧
     ancestor (computeReverseTable r) n o = origin_offset ∧
     ∀ i j, (i < j ≤ n)%nat →
       ancestor (computeReverseTable r) i o
       ≠ ancestor (computeReverseTable r) j o) ∧
  (∃ p, computeReverseTable r !! o = Some p ∧ edge (computeTable r) p o ∧
     ∀ p', edge (computeTable r) p' o → p' = p) ∧
  (∀ fuel, r ≤ Z.of_nat fuel →
     ∃ path, trace_loop fuel (computeReverseTable r) o [] = Done path).
Proof.
  intros Hr [p Hp] Hne.
  assert (edge (computeTable r) p o) as He by by apply computeReverseTable_lookup.
  pose proof (computeTable_span _ _ _ He) as [_ Ho].
  split_and!.
  - destruct (ancestor_descent r o) as (n & Hn & Hz & Hdesc).
    exists n. split_and!; [|lia|done|].
    + destruct n; [|lia]. by cbn in Hz.
    + intros i j Hij Heq. specialize (Hdesc i j Hij). rewrite Heq in Hdesc. lia.
  - exists p. split_and!; [done..|]. intros p' Hp'.
    by apply (edge_pred_unique r r p' p o).
  - intros fuel Hfuel.
    destruct (trace_loop_done r fuel o []) as (l & Hl & _); [lia|]. eauto.
Qed.

Lemma reverse_chain_witness :
  ∃ path, trace_loop 3 (computeReverseTable 3) (mkOffset 3 1) [] = Done path.
Proof.
  assert (1 ≤ 3) as Hr by lia.
  assert (is_Some (computeReverseTable 3 !! mkOffset 3 1)) as Hk.
  { exists (mkOffset 2 1). vm_compute. reflexivity. }
  assert (mkOffset 3 1 ≠ origin_offset) as Hne by done.
  destruct (reverse_chain 3 (mkOffset 3 1) Hr Hk Hne) as (_ & _ & Hfuel).
  apply (Hfuel 3%nat). vm_compute. congruence.
Defined.

(** C7.  Trace returns for every goal once its fuel covers the ring of the
    goal; the path never contains the origin; it ends with the goal when
    the goal is not the origin, and is empty when it is. *)
Theorem Trace_endpoints goal :
  ∃ path,
    (∀ fuel, ring goal ≤ Z.of_nat fuel → Trace fuel goal = Done path) ∧
    (origin_offset ∉ path) ∧
    (goal ≠ origin_offset → last path = Some goal) ∧
    (goal = origin_offset → path = []).
Proof.
  pose proof (ring_nonneg goal).
  destruct (trace_loop_done (Chebyshev goal) (Z.to_nat (ring goal)) goal [])
    as (l & Hl & Hin & Hhead & Hnil); [lia|].
  exists (reverse l). split_and!.
  - intros fuel Hfuel. unfold Trace, getReverseTable.
    rewrite (trace_loop_mono _ fuel _ _ _ _ Hl) by lia. done.
  - by rewrite elem_of_reverse.
  - intros Hne. rewrite last_reverse. auto.
  - intros ->. by rewrite Hnil.
Qed.

Lemma Trace_endpoints_witness :
  ∃ path, Trace 3 (mkOffset 3 1) = Done path ∧
    last path = Some (mkOffset 3 1).
Proof.
  destruct (Trace_endpoints (mkOffset 3 1)) as (path & Hrun & _ & Hlast & _).
  exists path. split; [apply Hrun; vm_compute; congruence|by apply Hlast].
Defined.

(** The line to (3,1), and the entries of the table it follows. *)
Example Trace_3_1 :
  Trace 3 (mkOffset 3 1) = Done [mkOffset 1 0; mkOffset 2 1; mkOffset 3 1].
Proof. vm_compute. reflexivity. Qed.

Example computeTable_2_origin :
  elements (edges (computeTable 2) (mkOffset 1 0))
  ≡ₚ [mkOffset 2 0; mkOffset 2 1; mkOffset 2 (-1)].
Proof. vm_compute. apply (bool_decide_unpack _). vm_compute. exact I. Qed.

(** ** The field of view *)

Section field.
Context (g : Graph) (origin : ptr) (r : Z).

Local Abbreviation table := (computeTable r).
Local Abbreviation expanded := (expanded g table origin).
Local Abbreviation recorded := (recorded g table origin).

Lemma recorded_not_origin off u : recorded off u → off ≠ origin_offset.
Proof.
  intros (p & t & _ & He & _) ->.
  by apply (edge_not_origin table r (edge_ring r)) in He.
Qed.

Lemma recorded_ring off u : recorded off u → 1 ≤ ring off ≤ Z.max r 1.
Proof.
  intros (p & t & _ & [? ?]%edge_ring & _). pose proof (ring_nonneg p). lia.
Qed.

(** A patch of the flooded map is a patch of the final map. *)
Lemma patch_final fov0 fov k v :
  wall_inv g fov0 fov → patch g fov0 k v → patch g fov k v.
Proof.
  intros (A1 & A2 & A3) (mk & s & d & b & pos & Hmk & Hs & Hb & Hd & -> & Hk & Hp & ->).
  assert (∀ a, on_axis (mk a 0)) as Haxis.
  { intros a. unfold on_axis. destruct Hmk as [-> | ->]; simpl; auto. }
  exists mk, s, d, b, pos. split_and!; try done; by rewrite A1.
Qed.

Lemma patch_ring fov0 k v :
  flood_inv g table origin fov0 [] → patch g fov0 k v →
  1 ≤ ring k ≤ Z.max r 1.
Proof.
  intros Hinv (mk & s & d & b & pos & Hmk & Hs & Hb & Hd & -> & [w Hk] & _).
  destruct (flood_inv_final g table origin r (edge_ring r)
    (edge_pred_unique r r) fov0 Hinv) as (F0 & F1 & F2 & _).
  destruct (F2 _ _ Hk) as [u ->].
  assert (mk d 0 ≠ origin_offset) as Hne.
  { rewrite offset_eq. destruct Hmk as [-> | ->]; simpl; nia. }
  apply F1, recorded_ring in Hk; [|done].
  unfold ring in *.
  destruct Hmk as [-> | ->], Hs as [-> | ->], Hb as [-> | ->]; simpl in *; lia.
Qed.

(** The entries of a result of FoV. *)
Lemma FoV_entries fuel fov :
  FoV fuel g (Some origin) r = Done fov →
  fov !! origin_offset = Some (Some origin) ∧
  (∀ k v, fov !! k = Some v → k ≠ origin_offset →
     (∃ u, v = Some u ∧ recorded k u) ∨ patch g fov k v) ∧
  (∀ k u, recorded k u →
     ∃ v, fov !! k = Some v ∧ (v = Some u ∨ patch g fov k v)) ∧
  (∀ k, is_Some (fov !! k) → ring k ≤ Z.max r 1) ∧
  ¬ dangling g table origin.
Proof.
  intros (fov0 & Hinv & Hwall)%FoV_done.
  destruct (flood_inv_final g table origin r (edge_ring r)
    (edge_pred_unique r r) fov0 Hinv) as (F0 & F1 & F2 & F3).
  pose proof Hwall as (A1 & A2 & A3).
  assert (∀ k v, fov !! k = Some v → k ≠ origin_offset →
     (∃ u, v = Some u ∧ recorded k u) ∨ patch g fov k v) as Hentries.
  { intros k v Hk Hne. destruct (A3 _ _ Hk) as [Hk0|Hp].
    - left. destruct (F2 _ _ Hk0) as [u ->]. exists u. split; [done|].
      by apply F1.
    - right. by eapply patch_final. }
  split_and!; [|done| | |done].
  - rewrite A1; [done|]. by left.
  - intros k u Hrec. pose proof (recorded_not_origin _ _ Hrec) as Hne.
    assert (fov0 !! k = Some (Some u)) as Hk0 by by apply F1.
    destruct (A2 k) as [v Hv]; [by rewrite Hk0|].
    exists v. split; [done|]. destruct (A3 _ _ Hv) as [Hk|Hp].
    + left. congruence.
    + right. by eapply patch_final.
  - intros k [v Hk]. destruct (decide (k = origin_offset)) as [->|Hne].
    { change (ring origin_offset) with 0. lia. }
    destruct (A3 _ _ Hk) as [Hk0|Hp].
    + destruct (F2 _ _ Hk0) as [u ->]. apply F1, recorded_ring in Hk0; [lia|done].
    + by apply (patch_ring fov0 k v).
Qed.

(** The eight neighbours of the origin tile are in every result, whatever
    the radius and the transparency of the origin tile. *)
Lemma FoV_neighbours fuel fov d :
  FoV fuel g (Some origin) r = Done fov → ring d = 1 →
  ∃ u, adjacent (g origin) d = Some u ∧ fov !! d = Some (Some u).
Proof.
  intros HF Hd. destruct (FoV_entries _ _ HF) as (E0 & E1 & E2 & _ & E4).
  assert (edge table origin_offset d) as He by by apply edge_origin.
  assert (Sub d origin_offset = d) as Hsub.
  { destruct (Sub_edge _ _ _ He) as [-> _]. destruct d. simpl. f_equal; lia. }
  destruct (adjacent (g origin) d) as [u|] eqn:Ha.
  - exists u. split; [done|].
    destruct (E2 d u) as (v & Hv & [->|Hp]); [|done|].
    { exists origin_offset, origin. split_and!; [constructor|done|].
      by rewrite Hsub. }
    rewrite Hv. f_equal.
    destruct Hp as (mk & s & k & b & pos & Hmk & Hs & Hb & Hk & -> & _ & Hpos & ->).
    assert (k = s) as ->.
    { unfold ring in Hd.
      destruct Hmk as [-> | ->], Hs as [-> | ->], Hb as [-> | ->]; simpl in *; lia. }
    rewrite Z.sub_diag in Hpos.
    assert (mk 0 0 = origin_offset) as Hz by by destruct Hmk as [-> | ->].
    rewrite Hz, E0 in Hpos. injection Hpos as <-. done.
  - exfalso. apply E4. exists origin_offset, origin, d.
    split_and!; [constructor|done|]. by rewrite Hsub.
Qed.
End field.

(** ** What FoV returns *)

(** On a map where the origin and every transparent tile have their eight
    neighbours, no expanded tile lacks one. *)
Lemma closed_not_dangling g origin r :
  (∀ t d, t = origin ∨ Lite (g t) = true → ring d = 1 →
     is_Some (adjacent (g t) d)) →
  ¬ dangling g (computeTable r) origin.
Proof.
  intros Hclosed (off & t & adj & Ht & He & Ha).
  destruct (Sub_edge _ _ _ He) as [_ Hd].
  destruct (Hclosed t (Sub adj off)) as [u Hu]; [|done|congruence].
  destruct Ht; auto.
Qed.

(** C2, as the code has it.  At a positive radius FoV returns, given fuel
    for [flood_fuel] iterations, when every neighbour the flood looks up
    exists; when an expanded tile lacks a neighbour in a direction of the
    table, FoV panics (the nil neighbour is dereferenced for its Lite flag)
    and returns for no amount of fuel. *)
Theorem FoV_completes g origin r :
  0 < r →
  (¬ dangling g (computeTable r) origin →
     ∃ fov, ∀ fuel, (flood_fuel r ≤ fuel)%nat →
       FoV fuel g (Some origin) r = Done fov) ∧
  (dangling g (computeTable r) origin →
     (∀ fuel, (flood_fuel r ≤ fuel)%nat →
        FoV fuel g (Some origin) r = Panic) ∧
     (∀ fuel fov, FoV fuel g (Some origin) r ≠ Done fov)).
Proof.
  intros _. split.
  - intros Hnd.
    destruct (FoV_enough g origin r (flood_fuel r)) as [[_ [fov Hfov]]|[? _]];
      [done| |done].
    exists fov. intros fuel Hfuel. by apply (FoV_mono (flood_fuel r)).
  - intros Hd. split.
    + intros fuel Hfuel.
      by destruct (FoV_enough g origin r fuel Hfuel) as [[? _]|[_ ?]].
    + intros fuel fov HF. by apply FoV_entries in HF as (_ & _ & _ & _ & ?).
Qed.

Lemma FoV_completes_witness :
  0 < 10 ∧
  ∃ fov, ∀ fuel, (flood_fuel 10 ≤ fuel)%nat →
    FoV fuel hall (Some (hall_at 0)) 10 = Done fov.
Proof.
  assert (0 < 10) as Hr by lia. split; [exact Hr|].
  apply (FoV_completes hall (hall_at 0) 10 Hr).
  assert (FoV 30 hall (Some (hall_at 0)) 10 = Done hall_view) as HF.
  { vm_compute. reflexivity. }
  apply FoV_entries in HF as (_ & _ & _ & _ & Hnd). exact Hnd.
Defined.

(** The counterexample to C2 as stated: on the map of two tiles the origin
    has no neighbour at (1,1), and FoV panics. *)
Lemma FoV_panics_at_map_edge : FoV 1 pair_map (Some 0%N) 1 = Panic.
Proof. vm_compute. reflexivity. Qed.

(** C6, as the code has it.  A result of FoV maps the origin offset to the
    origin tile, and each of its keys has a Chebyshev distance of at most
    the radius, when the radius is at least 1, and of at most 1 otherwise:
    the eight neighbours are recorded for every radius. *)
Theorem FoV_extent fuel g origin r fov :
  FoV fuel g (Some origin) r = Done fov →
  fov !! origin_offset = Some (Some origin) ∧
  ∀ k, is_Some (fov !! k) → Chebyshev k ≤ Z.max r 1.
Proof.
  intros (E0 & _ & _ & E3 & _)%FoV_entries. split; [done|].
  intros k Hk. by apply Chebyshev_le, E3.
Qed.

Lemma FoV_extent_witness :
  FoV 30 hall (Some (hall_at 0)) 10 = Done hall_view ∧
  hall_view !! origin_offset = Some (Some (hall_at 0)) ∧
  ∀ k, is_Some (hall_view !! k) → Chebyshev k ≤ Z.max 10 1.
Proof.
  assert (FoV 30 hall (Some (hall_at 0)) 10 = Done hall_view) as HF.
  { vm_compute. reflexivity. }
  exact (conj HF (FoV_extent 30 hall (hall_at 0) 10 hall_view HF)).
Defined.

(** The counterexample to C6 as stated: at radius 0 the result for the
    corridor has the key (1,0), at Chebyshev distance 1. *)
Lemma FoV_radius_zero_reaches_ring_one :
  ∃ fov, FoV 30 hall (Some (hall_at 0)) 0 = Done fov ∧
    is_Some (fov !! mkOffset 1 0) ∧ ¬ Chebyshev (mkOffset 1 0) ≤ 0.
Proof.
  eexists. split_and!.
  - vm_compute. reflexivity.
  - eexists. vm_compute. reflexivity.
  - vm_compute. intros H. exact (H eq_refl).
Qed.





(** ** Machine arithmetic on offsets *)

Lemma wrap_add_l a b : wrap (wrap a + b) = wrap (a + b).
Proof.
  unfold wrap. f_equal.
  replace ((a + 2 ^ 63) `mod` 2 ^ 64 - 2 ^ 63 + b + 2 ^ 63)
    with ((a + 2 ^ 63) `mod` 2 ^ 64 + b) by lia.
  rewrite Zplus_mod_idemp_l. f_equal. lia.
Qed.

Lemma wrap_add_r a b : wrap (a + wrap b) = wrap (a + b).
Proof. by rewrite Z.add_comm, wrap_add_l, Z.add_comm. Qed.

Lemma wrap_fixed a c :
  int_range a → int_range c → wrap (a + c) = a → c = 0.
Proof.
  unfold wrap, int_range, min_int, max_int. intros Ha Hc Hw.
  pose proof (Z.div_mod (a + c + 2 ^ 63) (2 ^ 64) ltac:(lia)). lia.
Qed.

Lemma Add_origin o : int_range (X o) → int_range (Y o) → Add o origin_offset = o.
Proof.
  intros. apply offset_eq. unfold Add. simpl.
  rewrite !Z.add_0_r, !wrap_small; done.
Qed.

Lemma Add_Sub o a : int_range (X o) → int_range (Y o) → Add a (Sub o a) = o.
Proof.
  intros. apply offset_eq. unfold Add, Sub. simpl.
  rewrite !wrap_add_r.
  replace (X a + (X o - X a)) with (X o) by lia.
  replace (Y a + (Y o - Y a)) with (Y o) by lia.
  by rewrite !wrap_small.
Qed.

Lemma Add_Add_Sub a c n : Add (Add a c) (Sub n c) = Add a n.
Proof.
  apply offset_eq. unfold Add, Sub. simpl.
  rewrite !wrap_add_l, !wrap_add_r. split; f_equal; lia.
Qed.

Lemma Add_fixed a c :
  int_range (X a) → int_range (Y a) → int_range (X c) → int_range (Y c) →
  Add a c = a → c = origin_offset.
Proof.
  intros Hax Hay Hcx Hcy [Hx Hy]%offset_eq. apply offset_eq. simpl in *.
  split; [exact (wrap_fixed _ _ Hax Hcx Hx)|exact (wrap_fixed _ _ Hay Hcy Hy)].
Qed.

Lemma Sub_range o a : int_range (X (Sub o a)) ∧ int_range (Y (Sub o a)).
Proof. split; apply wrap_range. Qed.

Lemma ring_range o : ring o ≤ max_int → int_range (X o) ∧ int_range (Y o).
Proof. unfold ring, int_range, min_int, max_int. lia. Qed.

(** The negation of a machine integer is a unit step only for a unit
    step. *)
Lemma Sub_origin_unit c :
  int_range (X c) → int_range (Y c) → ring (Sub origin_offset c) = 1 →
  ring c = 1.
Proof.
  intros Hx Hy.
  assert (∀ x, int_range x →
    (x = min_int ∧ wrap (0 - x) = min_int) ∨ wrap (0 - x) = - x) as Hw.
  { intros x Hxr. destruct (decide (x = min_int)) as [->|].
    - left. done.
    - right. rewrite wrap_small; unfold int_range, min_int, max_int in *; lia. }
  unfold Sub, ring. cbn [X Y origin_offset].
  destruct (Hw _ Hx) as [[_ ->]| ->], (Hw _ Hy) as [[_ ->]| ->];
    unfold min_int; lia.
Qed.

(** ** Line of sight on a grid *)

Section los.
Context (g : Graph) (cell : Offset → option ptr) (a : ptr).
Hypothesis Hgrid : grid g cell.
Hypothesis Ha : cell (TileOffset (g a)) = Some a.

Local Abbreviation oa := (TileOffset (g a)).

Lemma oa_range : int_range (X oa) ∧ int_range (Y oa).
Proof. by destruct (grid_offset g cell Hgrid _ _ Ha) as (_ & ? & ?). Qed.

(** The tile the flood expands at an offset is the tile of the cell at
    that offset from the origin tile. *)
Lemma grid_expanded r off t :
  expanded g (computeTable r) a off t → cell (Add oa off) = Some t.
Proof.
  induction 1 as [|off t adj u _ IH He Hadj _].
  - destruct oa_range. by rewrite Add_origin.
  - rewrite (grid_adjacent g cell Hgrid _ _ _ IH) in Hadj.
    destruct (Sub_edge _ _ _ He) as [_ Hd].
    rewrite decide_True in Hadj by done. by rewrite Add_Add_Sub in Hadj.
Qed.

Lemma grid_recorded r off u :
  recorded g (computeTable r) a off u → cell (Add oa off) = Some u.
Proof.
  intros (p & t & Hp%grid_expanded & He & Hadj).
  rewrite (grid_adjacent g cell Hgrid _ _ _ Hp) in Hadj.
  destruct (Sub_edge _ _ _ He) as [_ Hd].
  rewrite decide_True in Hadj by done. by rewrite Add_Add_Sub in Hadj.
Qed.

Lemma expanded_mono k r off t :
  k ≤ r → expanded g (computeTable k) a off t →
  expanded g (computeTable r) a off t.
Proof.
  intros Hk. induction 1; [constructor|].
  eapply expanded_step; eauto using edge_mono.
Qed.

(** Every entry of a result of FoV holds the tile of the cell at its
    offset from the origin tile. *)
Lemma grid_FoV fuel r fov k v :
  FoV fuel g (Some a) r = Done fov → fov !! k = Some v →
  v = cell (Add oa k).
Proof.
  intros HF Hk. destruct (FoV_entries _ _ _ _ _ HF) as (E0 & E1 & _).
  assert (∀ k v, fov !! k = Some v → on_axis k → v = cell (Add oa k)) as Haxis.
  { intros k' v' Hk' Hax. destruct (decide (k' = origin_offset)) as [->|Hne].
    - destruct oa_range. rewrite Add_origin by done. congruence.
    - destruct (E1 _ _ Hk' Hne) as [(u & -> & Hu)|Hp].
      + symmetry. by eapply grid_recorded.
      + exfalso.
        destruct Hp as (mk & s & d & b & _ & Hmk & Hs & Hb & Hd & -> & _).
        unfold on_axis in Hax.
        destruct Hmk as [-> | ->], Hs as [-> | ->], Hb as [-> | ->];
          simpl in Hax; lia. }
  destruct (decide (k = origin_offset)) as [->|Hne].
  { apply Haxis; [done|by left]. }
  destruct (E1 _ _ Hk Hne) as [(u & -> & Hu)|Hp].
  - symmetry. by eapply grid_recorded.
  - destruct Hp as (mk & s & d & b & pos & Hmk & Hs & Hb & Hd & -> & _ & Hpos & ->).
    apply Haxis in Hpos;
      [|unfold on_axis; destruct Hmk as [-> | ->]; simpl; auto].
    symmetry in Hpos.
    rewrite (grid_adjacent g cell Hgrid _ _ _ Hpos).
    assert (ring (mk s b) = 1) as Hunit.
    { unfold ring.
      destruct Hmk as [-> | ->], Hs as [-> | ->], Hb as [-> | ->]; simpl; lia. }
    rewrite decide_True by done. f_equal.
    apply offset_eq. unfold Add.
    destruct Hmk as [-> | ->]; simpl; rewrite !wrap_add_l; split; f_equal; lia.
Qed.

(** The loop of LoS answers true only from an offset the flood expands,
    with the tile it holds there. *)
Lemma los_loop_expanded k fuel goal curr :
  k ≤ max_int → int_range (X curr) → int_range (Y curr) →
  goal = cell (Add oa curr) →
  los_loop fuel g (computeReverseTable k) (Some a) goal curr = Done true →
  (goal = Some a ∧ curr = origin_offset) ∨
  (∃ t, goal = Some t ∧ Lite (g t) = true ∧
     expanded g (computeTable k) a curr t).
Proof.
  intros Hk. revert goal curr.
  induction fuel as [|fuel IH]; intros goal curr Hcx Hcy Hgoal Hlos.
  - cbn [los_loop] in Hlos. case_decide as Hne; [done|].
    subst goal. left. split; [done|].
    destruct (grid_offset g cell Hgrid _ _ Hne) as (Hoff & _).
    destruct oa_range. by eapply Add_fixed.
  - cbn [los_loop] in Hlos. case_decide as Hne.
    2:{ left. split; [done|]. subst goal.
        destruct (grid_offset g cell Hgrid _ _ Hne) as (Hoff & _).
        destruct oa_range. by eapply Add_fixed. }
    destruct goal as [t|]; [|done].
    destruct (Lite (g t)) eqn:Hlite; [|done]. cbn [negb] in Hlos.
    set (next := parent (computeReverseTable k) curr) in *.
    symmetry in Hgoal.
    rewrite (grid_adjacent g cell Hgrid _ _ _ Hgoal) in Hlos.
    destruct (decide (ring (Sub next curr) = 1)) as [Hunit|Hunit].
    2:{ destruct fuel; cbn [los_loop] in Hlos; by case_decide. }
    rewrite Add_Add_Sub in Hlos.
    assert (edge (computeTable k) next curr) as He.
    { apply computeReverseTable_lookup. unfold next, parent in *.
      destruct (computeReverseTable k !! curr) as [p|] eqn:Hp; [done|].
      simpl in *. apply Sub_origin_unit in Hunit; [|done..].
      apply (edge_origin k), computeReverseTable_lookup in Hunit.
      congruence. }
    assert (int_range (X next) ∧ int_range (Y next)) as [Hnx Hny].
    { apply ring_range. apply computeTable_span in He.
      unfold max_int in *. lia. }
    destruct (Sub_edge _ _ _ He) as [_ Hd].
    right. exists t. split_and!; [done..|].
    destruct (IH _ _ Hnx Hny eq_refl Hlos) as [[Hn ->]|(t' & Hn & Hl' & Hexp)].
    + eapply expanded_step; [constructor|done| |done].
      rewrite (grid_adjacent g cell Hgrid _ _ _ Ha), decide_True by done.
      destruct oa_range. rewrite <-(Add_origin oa) at 1 by done.
      by rewrite Add_Add_Sub.
    + eapply expanded_step; [done..| |done].
      rewrite (grid_adjacent g cell Hgrid _ _ _ Hn), decide_True by done.
      by rewrite Add_Add_Sub.
Qed.
End los.

(** ** Line of sight and field of view *)

Lemma tc_last {A} (R : relation A) x z : tc R x z → ∃ y, rtc R x y ∧ R y z.
Proof.
  induction 1 as [x z Hxz|x y z Hxy _ (y' & Hy & Hz)].
  - by exists x.
  - exists y'. split; [by eapply rtc_l|done].
Qed.

(** C1, as the code has it.  In a result of FoV at a positive radius,
    every tile the flood reaches along a path of the table through
    transparent tiles, opaque or not, has its offset as a key, mapped to
    that tile unless wallfix wrote the entry, and mapped to that tile in
    any case on a map laid out on a grid; and an offset strictly beyond a
    reached opaque tile along the table is a key only when wallfix wrote
    the entry. *)
Theorem FoV_opaque_blocks fuel g origin r fov :
  0 < r → FoV fuel g (Some origin) r = Done fov →
  (∀ off u, recorded g (computeTable r) origin off u →
     ∃ v, fov !! off = Some v ∧ (v = Some u ∨ patch g fov off v)) ∧
  (∀ cell, grid g cell → cell (TileOffset (g origin)) = Some origin →
     ∀ off u, recorded g (computeTable r) origin off u →
       fov !! off = Some (Some u)) ∧
  (∀ p t q v, recorded g (computeTable r) origin p t → Lite (g t) = false →
     tc (edge (computeTable r)) p q → fov !! q = Some v → patch g fov q v).
Proof.
  intros _ HF. destruct (FoV_entries _ _ _ _ _ HF) as (E0 & E1 & E2 & _ & _).
  split_and!; [done| |].
  { intros cell Hgrid Ho off u Hrec. destruct (E2 _ _ Hrec) as (v & Hv & _).
    rewrite Hv. f_equal.
    rewrite (grid_FoV g cell origin Hgrid Ho _ _ _ _ _ HF Hv).
    by apply (grid_recorded g cell origin Hgrid Ho r). }
  intros p t q v Hp Hl Hpq Hq.
  assert (q ≠ origin_offset) as Hne.
  { intros ->. apply tc_last in Hpq as (y & _ & Hy).
    by apply (edge_not_origin _ r (edge_ring r)) in Hy. }
  destruct (E1 q v Hq Hne) as [(u & -> & (p' & t' & Hp' & He' & _))|?]; [|done].
  exfalso. apply tc_last in Hpq as (y & Hpy & Hy).
  assert (y = p') as -> by by apply (edge_pred_unique r r _ _ q).
  destruct (expanded_between g _ origin r (edge_ring r) (edge_pred_unique r r)
    p p' t' Hp' Hpy) as [tp Htp].
  apply expanded_recorded in Htp as [Hrec Hlite];
    [|by eapply recorded_not_origin].
  rewrite (recorded_functional g _ origin r (edge_ring r)
    (edge_pred_unique r r) p t tp Hp Hrec) in Hl. congruence.
Qed.

(** The walled corridor seen from its left end at radius 10: the opaque
    middle tile is in the result, with the walls beside it, and no offset
    further to the right is. *)
Lemma FoV_opaque_blocks_witness :
  0 < 10 ∧
  FoV 30 hall (Some (hall_at 0)) 10 = Done hall_view ∧
  hall_view !! mkOffset 2 0 = Some (Some (hall_at 2)) ∧
  (∃ v, hall_view !! mkOffset 2 1 = Some v ∧
     (v = Some 17%N ∨ patch hall hall_view (mkOffset 2 1) v)) ∧
  (∀ k, is_Some (hall_view !! k) → X k ≤ 2).
Proof.
  assert (FoV 30 hall (Some (hall_at 0)) 10 = Done hall_view) as HF.
  { vm_compute. reflexivity. }
  pose proof (FoV_opaque_blocks 30 hall (hall_at 0) 10 hall_view
    ltac:(lia) HF) as (Hrec & _ & _).
  split_and!; [lia|exact HF| | |]; clear HF.
  - vm_compute. reflexivity.
  - apply Hrec. exists (mkOffset 1 0), (hall_at 1). split_and!.
    + eapply (expanded_step _ _ _ origin_offset); [constructor|..].
      * apply (bool_decide_unpack _). vm_compute. exact I.
      * vm_compute. reflexivity.
      * vm_compute. reflexivity.
    + apply (bool_decide_unpack _). vm_compute. exact I.
    + vm_compute. reflexivity.
  - clear Hrec. intros k [v Hk]. apply elem_of_list_to_map_2 in Hk.
    repeat (apply elem_of_cons in Hk as [[= -> ->]|Hk]; [simpl; lia|]).
    apply elem_of_nil in Hk. destruct Hk.
Defined.

(** The counterexample to C1 as stated.  In the yard, a grid of 7 by 7
    tiles seen from its middle at radius 3, the link (1,1) of the tile at
    (2,0) is bent to the middle tile and the tile 34 at (3,1) is opaque.
    The flood reaches tile 34 from (2,1) and records it at (3,1); wallfix
    then overwrites that entry with the bent link of the tile at (2,0),
    and the result holds tile 34 nowhere.  And the corridor of five tiles
    without walls has no result at all: FoV panics from either end. *)
Lemma FoV_loses_reached_opaque_tile :
  (FoV 49 yard (Some 24%N) 3 = Done yard_view ∧
   recorded yard (computeTable 3) 24%N (mkOffset 3 1) 34%N ∧
   Lite (yard 34%N) = false ∧
   yard_view !! mkOffset 3 1 = Some (Some 24%N) ∧
   ∀ k, yard_view !! k ≠ Some (Some 34%N)) ∧
  FoV 1 corridor (Some 0%N) 10 = Panic ∧
  FoV 1 corridor (Some 4%N) 10 = Panic.
Proof.
  split_and!.
  - vm_compute. reflexivity.
  - exists (mkOffset 2 1), 33%N. split_and!.
    + eapply (expanded_step _ _ _ (mkOffset 1 0) 25%N).
      * eapply (expanded_step _ _ _ origin_offset 24%N); [constructor|..].
        -- apply (bool_decide_unpack _). vm_compute. exact I.
        -- vm_compute. reflexivity.
        -- vm_compute. reflexivity.
      * apply (bool_decide_unpack _). vm_compute. exact I.
      * vm_compute. reflexivity.
      * vm_compute. reflexivity.
    + apply (bool_decide_unpack _). vm_compute. exact I.
    + vm_compute. reflexivity.
  - vm_compute. reflexivity.
  - vm_compute. reflexivity.
  - assert (map_Forall (λ _ v, v ≠ Some 34%N) yard_view) as Hall.
    { apply (bool_decide_unpack _). vm_compute. exact I. }
    intros k Hk. by apply (Hall k _ Hk).
  - vm_compute. reflexivity.
  - vm_compute. reflexivity.
Qed.

Lemma Abs_range x : int_range x → Abs x ≤ max_int.
Proof.
  unfold Abs, int_range. intros Hx. case_decide; [|lia].
  apply wrap_range.
Qed.

Lemma Chebyshev_range o :
  int_range (X o) → int_range (Y o) → Chebyshev o ≤ max_int.
Proof.
  intros Hx%Abs_range Hy%Abs_range. unfold Chebyshev, Max. by case_decide.
Qed.

(** C3, as the code has it.  On a map laid out on a grid, for tiles a and
    b of the grid and a radius r for which FoV from a returns: if LoS
    answers true for a and b and the Chebyshev distance of the offset of b
    from a is at most r, the result of FoV maps that offset to b. *)
Theorem LoS_FoV_consistent g cell a b r fuel fuel' fov :
  grid g cell →
  cell (TileOffset (g a)) = Some a → cell (TileOffset (g b)) = Some b →
  LoS fuel g (Some a) (Some b) = Done true →
  Chebyshev (Sub (TileOffset (g b)) (TileOffset (g a))) ≤ r →
  FoV fuel' g (Some a) r = Done fov →
  fov !! Sub (TileOffset (g b)) (TileOffset (g a)) = Some (Some b).
Proof.
  intros Hgrid Ha Hb Hlos Hr HF. unfold LoS, getReverseTable in Hlos.
  set (c := Sub (TileOffset (g b)) (TileOffset (g a))) in *.
  destruct (grid_offset g cell Hgrid _ _ Hb) as (_ & Hbx & Hby).
  destruct (Sub_range (TileOffset (g b)) (TileOffset (g a))) as [Hcx Hcy].
  assert (Add (TileOffset (g a)) c = TileOffset (g b)) as Hc by by apply Add_Sub.
  assert (is_Some (fov !! c)) as [v Hv].
  { destruct (FoV_entries _ _ _ _ _ HF) as (E0 & _ & E2 & _).
    assert (Some b = cell (Add (TileOffset (g a)) c)) as Hcell by by rewrite Hc.
    destruct (los_loop_expanded g cell a Hgrid Ha (Chebyshev c) fuel
      (Some b) c (Chebyshev_range _ Hcx Hcy) Hcx Hcy Hcell Hlos)
      as [[_ Hz]|(t & [= <-] & _ & Hexp)].
    - by rewrite Hz, E0.
    - destruct (decide (c = origin_offset)) as [->|Hne]; [by rewrite E0|].
      apply (expanded_mono g a (Chebyshev c) r) in Hexp; [|done].
      apply expanded_recorded in Hexp as [Hrec _]; [|done].
      destruct (E2 _ _ Hrec) as (v & -> & _). eauto. }
  rewrite Hv. f_equal.
  rewrite (grid_FoV g cell a Hgrid Ha _ _ _ _ _ HF Hv). by rewrite Hc.
Qed.

(** The counterexample to C3 as stated: on the map of two tiles LoS
    answers true from tile 0 to tile 1, one step away, while FoV from
    tile 0 at radius 1 returns no result: the origin has no neighbour at
    (1,1). *)
Lemma LoS_without_FoV :
  LoS 2 pair_map (Some 0%N) (Some 1%N) = Done true ∧
  Chebyshev (Sub (TileOffset (pair_map 1%N)) (TileOffset (pair_map 0%N))) ≤ 1 ∧
  ∀ fuel fov, FoV fuel pair_map (Some 0%N) 1 ≠ Done fov.
Proof.
  split_and!.
  - vm_compute. reflexivity.
  - vm_compute. discriminate.
  - intros fuel fov (_ & _ & _ & _ & Hnd)%FoV_entries. apply Hnd.
    exists origin_offset, 0%N, (mkOffset 1 1). split_and!.
    + constructor.
    + apply (bool_decide_unpack _). vm_compute. exact I.
    + vm_compute. reflexivity.
Qed.

(** ** The corridor is a grid *)

Lemma compass_ring d : d ∈ compass ↔ ring d = 1.
Proof.
  unfold compass, ring. destruct d as [x y].
  rewrite !elem_of_cons, elem_of_nil, !offset_eq. simpl. lia.
Qed.

Lemma grid_tile_keys (cell : Offset → option ptr) o l :
  (omap (λ d, (λ t, (d, Some t)) <$> cell (Add o d)) l).*1 `sublist_of` l.
Proof.
  induction l as [|d l IH]; simpl; [done|].
  destruct (cell (Add o d)); simpl; by constructor.
Qed.

Lemma adjacent_grid_tile cell lite o d :
  adjacent (grid_tile cell lite o) d =
  if decide (ring d = 1) then cell (Add o d) else None.
Proof.
  unfold adjacent, grid_tile. cbn [Adjacent].
  set (l := omap (λ d, (λ t, (d, Some t)) <$> cell (Add o d)) compass).
  assert (NoDup l.*1) as Hnd.
  { eapply sublist_NoDup; [|apply grid_tile_keys].
    apply (bool_decide_unpack _). vm_compute. exact I. }
  assert (∀ v, (d, v) ∈ l ↔
    d ∈ compass ∧ ∃ t, cell (Add o d) = Some t ∧ v = Some t) as Hl.
  { intros v. unfold l. rewrite list_elem_of_omap. split.
    - intros (d' & Hd' & Hf). destruct (cell (Add o d')) as [t|] eqn:Ht; [|done].
      simpl in Hf. injection Hf as <- <-. eauto.
    - intros (Hd & t & Ht & ->). exists d. by rewrite Ht. }
  case_decide as Hd.
  - destruct (cell (Add o d)) as [t|] eqn:Ht.
    + erewrite (elem_of_list_to_map_1 l d (Some t)); [done..|].
      apply Hl. split; [by apply compass_ring|eauto].
    + rewrite not_elem_of_list_to_map_1; [done|].
      intros ((d' & v) & -> & [_ (t & ? & _)]%Hl)%list_elem_of_fmap. congruence.
  - rewrite not_elem_of_list_to_map_1; [done|].
    intros ((d' & v) & -> & [?%compass_ring _]%Hl)%list_elem_of_fmap. done.
Qed.

Lemma hall_offset o t : hall_cell o = Some t → TileOffset (hall t) = o.
Proof.
  unfold hall_cell. case_bool_decide as Ho; [|done]. intros [= <-].
  destruct o as [x y]. simpl in Ho.
  assert (y = -1 ∨ y = 0 ∨ y = 1) as Hy by lia.
  assert (x = -1 ∨ x = 0 ∨ x = 1 ∨ x = 2 ∨ x = 3 ∨ x = 4 ∨ x = 5) as Hx by lia.
  clear Ho.
  destruct Hy as [-> | [-> | ->] ];
    destruct Hx as [-> | [-> | [-> | [-> | [-> | [-> | ->] ] ] ] ] ];
    vm_compute; reflexivity.
Qed.

Lemma hall_grid : grid hall hall_cell.
Proof.
  split.
  - intros o t Ht. split; [by apply hall_offset|].
    unfold hall_cell in Ht. case_bool_decide as Ho; [|done].
    unfold int_range, min_int, max_int. lia.
  - intros o t d Ht. apply hall_offset in Ht.
    unfold hall in *. cbn zeta in *. rewrite adjacent_grid_tile.
    cbn [TileOffset grid_tile] in Ht. by rewrite Ht.
Qed.

Lemma LoS_FoV_consistent_witness :
  LoS 2 hall (Some (hall_at 0)) (Some (hall_at 1)) = Done true ∧
  Chebyshev (Sub (TileOffset (hall (hall_at 1)))
               (TileOffset (hall (hall_at 0)))) ≤ 10 ∧
  FoV 30 hall (Some (hall_at 0)) 10 = Done hall_view ∧
  hall_view !! Sub (TileOffset (hall (hall_at 1)))
                 (TileOffset (hall (hall_at 0))) = Some (Some (hall_at 1)).
Proof.
  assert (LoS 2 hall (Some (hall_at 0)) (Some (hall_at 1)) = Done true) as Hlos.
  { vm_compute. reflexivity. }
  assert (Chebyshev (Sub (TileOffset (hall (hall_at 1)))
            (TileOffset (hall (hall_at 0)))) ≤ 10) as Hr.
  { vm_compute. discriminate. }
  assert (FoV 30 hall (Some (hall_at 0)) 10 = Done hall_view) as HF.
  { vm_compute. reflexivity. }
  assert (hall_cell (TileOffset (hall (hall_at 0))) = Some (hall_at 0)) as Ha.
  { vm_compute. reflexivity. }
  assert (hall_cell (TileOffset (hall (hall_at 1))) = Some (hall_at 1)) as Hb.
  { vm_compute. reflexivity. }
  exact (conj Hlos (conj Hr (conj HF
    (LoS_FoV_consistent hall hall_cell (hall_at 0) (hall_at 1) 10 2 30
       hall_view hall_grid Ha Hb Hlos Hr HF)))).
Defined.

(** ** The flag of the origin tile *)

Lemma adjacent_set_Lite g t b id d :
  adjacent (set_Lite g t b id) d = adjacent (g id) d.
Proof. unfold set_Lite, adjacent. by case_decide. Qed.

Lemma Lite_set_Lite g t b id : id ≠ t → Lite (set_Lite g t b id) = Lite (g id).
Proof. intros. unfold set_Lite. by rewrite decide_False. Qed.

(** The loop over the entries of an offset reads the flag of the
    neighbours it records, and of no other tile. *)
Lemma visit_flag g origin b t off adjs fov stack :
  (∀ adj, adj ∈ adjs → adjacent (g t) (Sub adj off) ≠ Some origin) →
  visit (set_Lite g origin b) (Some t) off adjs fov stack =
  visit g (Some t) off adjs fov stack.
Proof.
  revert fov stack. induction adjs as [|a adjs IH]; intros fov stack Hadj;
    [done|].
  rewrite !visit_cons, adjacent_set_Lite.
  destruct (adjacent (g t) (Sub a off)) as [u|] eqn:Hu; [|done].
  rewrite Lite_set_Lite.
  - apply IH. intros adj ?. apply Hadj. by right.
  - intros ->. by apply (Hadj a); [left|].
Qed.

Lemma flood_flag g origin r b fuel fov stack :
  (∀ k, ¬ recorded g (computeTable r) origin k origin) →
  flood_inv g (computeTable r) origin fov stack →
  flood fuel (set_Lite g origin b) (computeTable r) fov stack =
  flood fuel g (computeTable r) fov stack.
Proof.
  intros Hun. revert fov stack.
  induction fuel as [|fuel IH]; intros fov stack Hinv; [done|].
  destruct stack as [|off stack]; [done|]. cbn [flood].
  destruct Hinv as (I0 & I1 & I2 & I3).
  destruct (I2 off) as (t & Hoff & Ht); [set_solver|].
  rewrite Hoff. change (default None (Some (Some t))) with (Some t).
  rewrite visit_flag.
  2:{ intros adj Hadj%elem_of_elements Hu. apply (Hun adj). by exists off, t. }
  destruct (visit_cases g (computeTable r) r (edge_ring r)
    (edge_pred_unique r r) (λ _, 0%nat) t off
    (elements (edges (computeTable r) off)) fov stack)
    as [(adj & Hadj & Ha & ->)|(fov' & stack' & -> & V1 & V2 & V3 & V4)];
    [done|].
  apply IH.
  eapply (flood_inv_step g (computeTable r) origin r (edge_ring r)
    (edge_pred_unique r r) fov off stack t); try done.
  - intros adj Hadj. apply V1. by apply elem_of_elements.
  - intros k Hk. apply V2. by rewrite elem_of_elements.
  - intros s. rewrite V3. by rewrite elem_of_elements.
Qed.

(** wallfix reads no flag. *)
Lemma march_flag g origin b mk s n d fov :
  march (set_Lite g origin b) mk s n d fov = march g mk s n d fov.
Proof.
  revert d fov. induction n as [|n IH]; intros d fov; [done|]. cbn [march].
  destruct (fov !! mk d 0); [|done].
  destruct (default None (fov !! mk (d - s) 0)); [|done].
  by rewrite !adjacent_set_Lite, IH.
Qed.

Lemma wallfix_flag g origin b fov r :
  wallfix (set_Lite g origin b) fov r = wallfix g fov r.
Proof.
  unfold wallfix. rewrite march_flag.
  destruct (march g along_x 1 (Z.to_nat r) 1 fov) as [f1| |]; [|done..].
  cbn [obind]. rewrite march_flag.
  destruct (march g along_x (-1) (Z.to_nat (- wrap (- r))) (-1) f1)
    as [f2| |]; [|done..].
  cbn [obind]. rewrite march_flag.
  destruct (march g along_y 1 (Z.to_nat r) 1 f2) as [f3| |]; [|done..].
  cbn [obind]. by rewrite march_flag.
Qed.

(** FoV does not depend on the flag of the origin tile, unless the origin
    tile is also a neighbour that the flood records. *)
Lemma FoV_flag g origin r b fuel :
  (∀ k, ¬ recorded g (computeTable r) origin k origin) →
  FoV fuel (set_Lite g origin b) (Some origin) r = FoV fuel g (Some origin) r.
Proof.
  intros Hun. unfold FoV. rewrite flood_flag; [|done|].
  - destruct (flood fuel g (computeTable r) {[origin_offset := Some origin]}
      [origin_offset]); [|done..].
    cbn [obind]. apply wallfix_flag.
  - apply (flood_inv_init g (computeTable r) origin r (edge_ring r)
      (edge_pred_unique r r)).
Qed.

(** On a grid the origin tile is no neighbour that the flood records. *)
Lemma grid_origin_unrecorded g cell a r k :
  grid g cell → cell (TileOffset (g a)) = Some a → r ≤ max_int →
  ¬ recorded g (computeTable r) a k a.
Proof.
  intros Hgrid Ha Hr Hrec.
  pose proof (recorded_ring g a r k a Hrec) as Hring.
  pose proof (grid_recorded g cell a Hgrid Ha r k a Hrec) as Hcell.
  destruct (grid_offset g cell Hgrid _ _ Hcell) as (Hoff & _).
  destruct (oa_range g cell a Hgrid Ha) as [Hax Hay].
  assert (int_range (X k) ∧ int_range (Y k)) as [Hkx Hky].
  { apply ring_range. unfold max_int in *. lia. }
  symmetry in Hoff. apply Add_fixed in Hoff; [|done..]. subst k.
  change (ring origin_offset) with 0 in Hring. lia.
Qed.

(** C10, as the code has it.  At a positive radius a result of FoV holds,
    for every successor d of the origin offset in the table, the neighbour
    of the origin tile in the direction d, whether or not the origin tile
    is transparent; and the result is the same whatever the transparency
    flag of the origin tile, which FoV reads only when the origin tile is
    also a neighbour that the flood records, as it never is on a map laid
    out on a grid. *)
Theorem FoV_from_opaque_origin fuel g origin r fov :
  0 < r → FoV fuel g (Some origin) r = Done fov →
  (∀ d, edge (computeTable r) origin_offset d →
     ∃ u, adjacent (g origin) d = Some u ∧ fov !! d = Some (Some u)) ∧
  ((∀ k, ¬ recorded g (computeTable r) origin k origin) →
   ∀ b, FoV fuel (set_Lite g origin b) (Some origin) r = Done fov) ∧
  (r ≤ max_int → ∀ cell, grid g cell →
   cell (TileOffset (g origin)) = Some origin →
   ∀ b, FoV fuel (set_Lite g origin b) (Some origin) r = Done fov).
Proof.
  intros _ HF. split_and!.
  - intros d Hd%edge_origin. by eapply FoV_neighbours.
  - intros Hun b. by rewrite FoV_flag.
  - intros Hr cell Hgrid Ho b. rewrite FoV_flag; [done|].
    intros k. by eapply grid_origin_unrecorded.
Qed.

(** The corridor seen from its opaque middle tile: the result is that of
    the corridor with the middle tile made transparent. *)
Lemma FoV_from_opaque_origin_witness :
  0 < 10 ∧ Lite (hall (hall_at 2)) = false ∧
  FoV 30 hall (Some (hall_at 2)) 10 = Done hall_view_middle ∧
  FoV 30 (set_Lite hall (hall_at 2) true) (Some (hall_at 2)) 10 =
    Done hall_view_middle ∧
  ∃ u, adjacent (hall (hall_at 2)) (mkOffset 1 0) = Some u ∧
    hall_view_middle !! mkOffset 1 0 = Some (Some u).
Proof.
  assert (0 < 10) as Hr by lia.
  assert (FoV 30 hall (Some (hall_at 2)) 10 = Done hall_view_middle) as HF.
  { vm_compute. reflexivity. }
  assert (10 ≤ max_int) as Hmax by (vm_compute; discriminate).
  assert (hall_cell (TileOffset (hall (hall_at 2))) = Some (hall_at 2)) as Ho.
  { vm_compute. reflexivity. }
  destruct (FoV_from_opaque_origin 30 hall (hall_at 2) 10 _ Hr HF)
    as (Hnb & _ & Hflag).
  split_and!; [exact Hr|vm_compute; reflexivity|exact HF| |].
  - exact (Hflag Hmax hall_cell hall_grid Ho true).
  - apply Hnb. clear. apply (bool_decide_unpack _). vm_compute. exact I.
Defined.

(** The counterexample to C10 as stated: an opaque origin tile at the edge
    of a map.  On the map of two tiles with tile 0 opaque, FoV from tile 0
    panics at the missing neighbour and records nothing. *)
Lemma FoV_opaque_origin_panics :
  Lite (pair_dark 0%N) = false ∧
  FoV 1 pair_dark (Some 0%N) 1 = Panic ∧
  ∀ fuel fov, FoV fuel pair_dark (Some 0%N) 1 ≠ Done fov.
Proof.
  split_and!.
  - reflexivity.
  - vm_compute. reflexivity.
  - intros fuel fov (_ & _ & _ & _ & Hnd)%FoV_entries. apply Hnd.
    exists origin_offset, 0%N, (mkOffset 1 1). split_and!.
    + constructor.
    + apply (bool_decide_unpack _). vm_compute. exact I.
    + vm_compute. reflexivity.
Qed.

(** * Further properties *)

(** ** The utilities *)

Lemma wrap_wrap z : wrap (wrap z) = wrap z.
Proof. apply wrap_small, wrap_range. Qed.

(** [wrap] picks the representative of a residue modulo 2^64. *)
Lemma wrap_spec z : ∃ k, wrap z = z + k * 2 ^ 64.
Proof.
  exists (- ((z + 2 ^ 63) `div` 2 ^ 64)). unfold wrap.
  pose proof (Z.div_mod (z + 2 ^ 63) (2 ^ 64) ltac:(lia)). lia.
Qed.

Lemma wrap_congr a b k : a = b + k * 2 ^ 64 → wrap a = wrap b.
Proof.
  intros ->. unfold wrap. f_equal.
  replace (b + k * 2 ^ 64 + 2 ^ 63) with (b + 2 ^ 63 + k * 2 ^ 64) by lia.
  apply Z_mod_plus_full.
Qed.

Lemma wrap_sub_l a b : wrap (wrap a - b) = wrap (a - b).
Proof. destruct (wrap_spec a) as [k ->]. apply (wrap_congr _ _ k). lia. Qed.

Lemma wrap_sub_r a b : wrap (a - wrap b) = wrap (a - b).
Proof. destruct (wrap_spec b) as [k ->]. apply (wrap_congr _ _ (- k)). lia. Qed.

Lemma wrap_opp a : wrap (- wrap a) = wrap (- a).
Proof. destruct (wrap_spec a) as [k ->]. apply (wrap_congr _ _ (- k)). lia. Qed.

Lemma wrap_mul_l a b : wrap (wrap a * b) = wrap (a * b).
Proof. destruct (wrap_spec a) as [k ->]. apply (wrap_congr _ _ (k * b)). lia. Qed.

Lemma Mod_mod x y :
  int_range x → int_range y → 0 < y → Mod x y = Done (x `mod` y).
Proof.
  intros Hx Hy Hpos.
  unfold Mod. rewrite decide_False by lia.
  pose proof (Z.quot_rem' x y) as Hq.
  destruct (decide (0 ≤ x)) as [Hx0|Hx0].
  - pose proof (Z.rem_bound_pos x y Hx0 Hpos) as Hrem.
    rewrite decide_False by lia. f_equal.
    apply (Z.mod_unique_pos x y (x ÷ y)); lia.
  - pose proof (Z.rem_bound_pos_neg x y Hpos ltac:(lia)) as Hrem.
    destruct (decide (Z.rem x y < 0)) as [Hneg|Hneg]; f_equal.
    + rewrite wrap_small by (unfold int_range, min_int, max_int in *; lia).
      apply (Z.mod_unique_pos x y (x ÷ y - 1)); lia.
    + apply (Z.mod_unique_pos x y (x ÷ y)); lia.
Qed.

(** X1.  For a positive modulus Mod returns the modulo of the integers,
    between 0 and the modulus, also for a negative x, where Go's [%]
    alone gives a negative remainder. *)
Theorem Mod_positive x y :
  int_range x → int_range y → 0 < y →
  Mod x y = Done (x `mod` y) ∧ 0 ≤ x `mod` y < y.
Proof.
  intros Hx Hy Hpos. split; [by apply Mod_mod|by apply Z.mod_pos_bound].
Qed.

Lemma Mod_positive_witness :
  int_range (-7) ∧ int_range 3 ∧ 0 < 3 ∧ Mod (-7) 3 = Done 2.
Proof.
  assert (int_range (-7)) as Hx by (unfold int_range, min_int, max_int; lia).
  assert (int_range 3) as Hy by (unfold int_range, min_int, max_int; lia).
  assert (0 < 3) as Hpos by lia.
  exact (conj Hx (conj Hy (conj Hpos (proj1 (Mod_positive (-7) 3 Hx Hy Hpos))))).
Defined.

(** X2.  For a negative modulus Mod still returns a number congruent to x,
    but one between the modulus and 0 only when the modulus divides x: a
    negative remainder is moved further down, a positive one is left. *)
Theorem Mod_negative x y v :
  int_range x → - 2 ^ 62 ≤ y → y < 0 → Mod x y = Done v →
  (∃ q, x = y * q + v) ∧ (y < v ≤ 0 ↔ Z.rem x y = 0).
Proof.
  intros Hx Hy Hneg. unfold Mod. rewrite decide_False by lia.
  pose proof (Z.quot_rem' x y) as Hq.
  destruct (decide (0 ≤ x)) as [Hx0|Hx0].
  - pose proof (Z.rem_bound_neg_pos x y Hneg Hx0) as Hrem.
    rewrite decide_False by lia. intros [= <-]. split; [eauto|lia].
  - pose proof (Z.rem_bound_neg_neg x y Hneg ltac:(lia)) as Hrem.
    destruct (decide (Z.rem x y < 0)) as [Hlt|Hlt]; intros [= <-].
    + rewrite wrap_small by (unfold int_range, min_int, max_int in *; lia).
      split; [exists (x ÷ y - 1); lia|lia].
    + split; [eauto|lia].
Qed.

Lemma Mod_negative_witness :
  (∃ q, -7 = -3 * q + -4) ∧ (-3 < -4 ≤ 0 ↔ Z.rem (-7) (-3) = 0).
Proof.
  apply (Mod_negative (-7) (-3) (-4)).
  - unfold int_range, min_int, max_int; lia.
  - lia.
  - lia.
  - vm_compute. reflexivity.
Defined.

(** X3.  Clamp with ordered bounds returns a value within the bounds, the
    value itself when it lies within them, and the nearer bound
    otherwise. *)
Theorem Clamp_within lo val hi :
  lo ≤ hi →
  lo ≤ Clamp lo val hi ≤ hi ∧
  (lo ≤ val ≤ hi → Clamp lo val hi = val) ∧
  (val < lo → Clamp lo val hi = lo) ∧
  (hi < val → Clamp lo val hi = hi) ∧
  Clamp lo (Clamp lo val hi) hi = Clamp lo val hi.
Proof. intros Hle. unfold Clamp. repeat case_decide; lia. Qed.

Lemma Clamp_within_witness : 0 ≤ 9 ∧ 0 ≤ Clamp 0 12 9 ≤ 9.
Proof.
  assert (0 ≤ 9) as H by lia.
  exact (conj H (proj1 (Clamp_within 0 12 9 H))).
Defined.

(** X4.  Signum is the sign function of the integers. *)
Theorem Signum_sgn x : Signum x = Z.sgn x.
Proof. unfold Signum, Clamp. repeat case_decide; lia. Qed.

(** X5.  Abs is the absolute value for every machine integer but the least
    one, which it returns unchanged: only there is its result negative. *)
Theorem Abs_least x :
  int_range x →
  (x ≠ min_int → Abs x = Z.abs x) ∧
  (x = min_int → Abs x = min_int) ∧
  (0 ≤ Abs x ↔ x ≠ min_int).
Proof.
  intros Hx.
  destruct (decide (x = min_int)) as [->|Hne].
  - change (Abs min_int) with min_int.
    split_and!; [done|done|]. unfold min_int. split; [lia|done].
  - assert (Abs x = Z.abs x) as ->.
    { apply Abs_abs. unfold int_range, min_int, max_int in *. lia. }
    split_and!; [done|done|lia].
Qed.

Lemma Abs_least_witness : int_range min_int ∧ Abs min_int = min_int.
Proof.
  assert (int_range min_int) as H by (unfold int_range, min_int, max_int; lia).
  exact (conj H (proj1 (proj2 (Abs_least min_int H)) eq_refl)).
Defined.

(** X6.  Offset arithmetic is arithmetic modulo 2^64 on each coordinate:
    for machine offsets, overflow included, Sub undoes Add and Add undoes
    Sub, Neg is its own inverse, subtracting is adding the negation, and
    Add is commutative and associative. *)
Theorem Offset_group o a b :
  int_offset o →
  Sub (Add o a) a = o ∧ Add (Sub o a) a = o ∧ Neg (Neg o) = o ∧
  Sub o a = Add o (Neg a) ∧ Add o a = Add a o ∧
  Add (Add o a) b = Add o (Add a b) ∧ Add o (Neg o) = origin_offset.
Proof.
  intros [Hx Hy].
  assert (∀ z z', int_range z' → wrap z = wrap z' → wrap z = z') as Hback.
  { intros z z' Hz ->. by apply wrap_small. }
  unfold Sub, Add, Neg. rewrite !offset_eq. cbn [X Y origin_offset].
  rewrite !wrap_sub_l, !wrap_add_l, !wrap_add_r, !wrap_opp.
  split_and!; try (apply Hback; [done|]); try (f_equal; lia);
    (change 0 with (wrap 0); f_equal; lia).
Qed.

Lemma Offset_group_witness :
  int_offset (mkOffset max_int 0) ∧
  Sub (Add (mkOffset max_int 0) (mkOffset 1 0)) (mkOffset 1 0)
  = mkOffset max_int 0.
Proof.
  assert (int_offset (mkOffset max_int 0)) as H.
  { split; unfold int_range, min_int, max_int; simpl; lia. }
  exact (conj H (proj1 (Offset_group _ (mkOffset 1 0) origin_offset H))).
Defined.

(** X7.  Scale distributes over Add and composes by multiplication, modulo
    2^64; scaling by 1 is the identity on machine offsets, scaling by -1 is
    Neg, scaling by 0 gives the origin. *)
Theorem Scale_linear o a s t :
  Scale (Add o a) s = Add (Scale o s) (Scale a s) ∧
  Scale (Scale o s) t = Scale o (s * t) ∧
  Scale o (-1) = Neg o ∧ Scale o 0 = origin_offset ∧
  (int_offset o → Scale o 1 = o).
Proof.
  unfold Scale, Add, Neg, int_offset. rewrite !offset_eq. cbn [X Y origin_offset].
  rewrite !wrap_mul_l, !wrap_add_l, !wrap_add_r, !Z.mul_0_r, !Z.mul_1_r.
  change (wrap 0) with 0.
  split_and!; try done; try (f_equal; lia).
  intros [? ?]. by rewrite !wrap_small.
Qed.

(** X8.  Without overflow the two integer metrics bound each other, and
    each vanishes at the origin only. *)
Theorem metrics_compare o :
  ring o < 2 ^ 62 →
  Chebyshev o ≤ Manhattan o ≤ 2 * Chebyshev o ∧
  (Chebyshev o = 0 ↔ o = origin_offset) ∧
  (Manhattan o = 0 ↔ o = origin_offset).
Proof.
  intros Ho. rewrite <-ring_zero.
  assert (ring o ≤ max_int) as Hr by (unfold max_int; lia).
  rewrite (Chebyshev_ring o Hr). unfold Manhattan.
  unfold ring, max_int in *.
  rewrite !Abs_abs by (unfold max_int; lia).
  rewrite wrap_small by (unfold min_int, max_int; lia). lia.
Qed.

Lemma metrics_compare_witness :
  ring (mkOffset 3 (-4)) < 2 ^ 62 ∧
  Chebyshev (mkOffset 3 (-4)) ≤ Manhattan (mkOffset 3 (-4))
    ≤ 2 * Chebyshev (mkOffset 3 (-4)).
Proof.
  assert (ring (mkOffset 3 (-4)) < 2 ^ 62) as H by (vm_compute; reflexivity).
  exact (conj H (proj1 (metrics_compare _ H))).
Defined.

(** X9.  Without overflow Chebyshev is a norm: it satisfies the triangle
    inequality under Add, and the distance Chebyshev of Sub is symmetric
    and invariant under Neg. *)
Theorem Chebyshev_norm a b :
  ring a < 2 ^ 62 → ring b < 2 ^ 62 →
  Chebyshev (Add a b) ≤ Chebyshev a + Chebyshev b ∧
  Chebyshev (Sub a b) = Chebyshev (Sub b a) ∧
  Chebyshev (Neg a) = Chebyshev a.
Proof.
  intros Ha Hb.
  assert (- 2 ^ 62 < X a < 2 ^ 62 ∧ - 2 ^ 62 < Y a < 2 ^ 62) as [Hxa Hya]
    by (unfold ring in Ha; lia).
  assert (- 2 ^ 62 < X b < 2 ^ 62 ∧ - 2 ^ 62 < Y b < 2 ^ 62) as [Hxb Hyb]
    by (unfold ring in Hb; lia).
  clear Ha Hb.
  assert (∀ x y, - 2 ^ 63 < x < 2 ^ 63 → - 2 ^ 63 < y < 2 ^ 63 →
    Chebyshev (mkOffset (wrap x) (wrap y)) = Z.abs x `max` Z.abs y) as Hc.
  { intros x y Hx Hy.
    rewrite !wrap_small by (unfold min_int, max_int; lia).
    rewrite Chebyshev_ring; [done|]. unfold ring, max_int. simpl. lia. }
  assert (∀ o, - 2 ^ 62 < X o < 2 ^ 62 → - 2 ^ 62 < Y o < 2 ^ 62 →
    Chebyshev o = Z.abs (X o) `max` Z.abs (Y o)) as Hc'.
  { intros o Hx Hy. rewrite Chebyshev_ring; [done|].
    unfold ring, max_int. lia. }
  unfold Add, Sub, Neg.
  rewrite !Hc, !Hc' by lia. split_and!; lia.
Qed.

Lemma Chebyshev_norm_witness :
  Chebyshev (Add (mkOffset 3 (-4)) (mkOffset (-1) 9))
  ≤ Chebyshev (mkOffset 3 (-4)) + Chebyshev (mkOffset (-1) 9).
Proof.
  apply (Chebyshev_norm (mkOffset 3 (-4)) (mkOffset (-1) 9));
    vm_compute; reflexivity.
Defined.

(** ** addEntry and completeTable on tables of machine offsets *)

(** X10.  addEntry adds exactly one entry: afterwards the entries are the
    earlier ones and src -> dst, the keys the earlier ones and src, and
    adding an entry that is there changes nothing. *)
Theorem addEntry_spec (t : Table) src dst :
  (∀ p d, edge (addEntry t src dst) p d ↔ (p = src ∧ d = dst) ∨ edge t p d) ∧
  dom (addEntry t src dst) = {[src]} ∪ dom t ∧
  (edge t src dst → addEntry t src dst = t) ∧
  addEntry (addEntry t src dst) src dst = addEntry t src dst.
Proof.
  split_and!.
  - intros p d. apply edge_addEntry.
  - unfold addEntry. destruct (t !! src); by rewrite dom_insert_L.
  - apply addEntry_again.
  - apply addEntry_again, edge_addEntry. by left.
Qed.

Lemma reflect_edge_on (D : Offset → Prop) fs t p d :
  (∀ (φ : Offset → Offset) o, φ ∈ fs → D o → D (φ o)) →
  closed_images_on D fs →
  (∀ p d, edge t p d → D p ∧ D d) →
  edge (reflect fs t) p d ↔ image_edge fs t p d.
Proof.
  intros HD Hcl Ht. unfold reflect.
  pose (P := λ (acc : Table) (m : Table),
    (∀ p d, edge t p d → edge acc p d) ∧
    (∀ p d, edge acc p d → image_edge fs t p d) ∧
    (∀ q e φ, is_Some (m !! q) → edge t q e → φ ∈ fs → edge acc (φ q) (φ e))).
  assert (∀ m : Table, P (map_fold (λ key _ acc,
      set_fold (λ pos acc,
          foldl (λ acc (φ : Offset → Offset),
            addEntry acc (φ key) (φ pos)) acc fs)
        acc (edges acc key)) t m) m) as HP.
  { apply (map_fold_weak_ind P).
    - split_and!; [done| |].
      + intros p' d' ?. exists p', d'. auto.
      + intros q e φ [? Hq]. by rewrite lookup_empty in Hq.
    - intros i x m r Hi (H1 & H2 & H3). split_and!.
      + intros p' d' ?. apply images_set_fold. left. auto.
      + intros p' d' [?|(pos & φ & Hpos & Hφ & -> & ->)]%images_set_fold; [auto|].
        destruct (H2 i pos Hpos) as (q & e & Hqe & [[-> ->]|(ψ & Hψ & -> & ->)]).
        * exists q, e. split; [done|]. right. by exists φ.
        * exists q, e. split; [done|]. destruct (Ht q e Hqe) as [Dq De].
          destruct (Hcl φ ψ Hφ Hψ) as [Hid|(χ & Hχ & Hcomp)].
          -- left. by rewrite !Hid.
          -- right. exists χ. by rewrite !Hcomp.
      + intros q e φ Hq Hqe Hφ. apply images_set_fold.
        destruct (decide (q = i)) as [->|Hne].
        * right. exists e, φ. split_and!; try done. by apply H1.
        * left. rewrite lookup_insert_ne in Hq by done. by apply H3. }
  destruct (HP t) as (H1 & H2 & H3). split; [apply H2|].
  intros (q & e & Hqe & [[-> ->]|(φ & Hφ & -> & ->)]); [by apply H1|].
  apply H3; [|done..]. unfold edge, edges in Hqe.
  destruct (t !! q); [done|]. simpl in Hqe. set_solver.
Qed.

Lemma neg_int_range z : int_range z → int_range (neg_int z).
Proof.
  unfold neg_int, int_range, min_int, max_int. intros. case_decide; lia.
Qed.

Lemma neg_int_involutive z : int_range z → neg_int (neg_int z) = z.
Proof.
  unfold neg_int, int_range, min_int, max_int. intros.
  repeat case_decide; lia.
Qed.

Lemma act_int_range σ o : int_offset o → int_offset (act_int σ o).
Proof.
  intros [Hx Hy]. destruct σ as [[] [] []]; unfold act_int, int_offset; simpl;
    auto using neg_int_range.
Qed.

Lemma act_int_compose σ τ :
  ∃ ρ, ∀ o, int_offset o → act_int σ (act_int τ o) = act_int ρ o.
Proof.
  destruct σ as [b nx ny], τ as [b' nx' ny'].
  exists (mkSym (xorb b b')
            (xorb nx (if b then ny' else nx'))
            (xorb ny (if b then nx' else ny'))).
  intros [x y] [Hx Hy]. simpl in Hx, Hy.
  destruct b, nx, ny, b', nx', ny'; unfold act_int; simpl;
    by rewrite ?neg_int_involutive by done.
Qed.

(** Within the machine integers, the least one apart, Go's symmetries are
    those of the plane. *)
Lemma act_int_act σ o : ring o ≤ max_int → act_int σ o = act σ o.
Proof.
  intros Ho. unfold ring in Ho.
  assert (neg_int (X o) = - X o ∧ neg_int (Y o) = - Y o) as [Ex Ey].
  { rewrite !neg_int_opp by (unfold min_int, max_int in *; lia). done. }
  destruct σ as [[] [] []]; unfold act_int, act; simpl; by rewrite ?Ex, ?Ey.
Qed.

Lemma neg_act o :
  flip_diagonal o = act_int (mkSym true false false) o ∧
  neg_x o = act_int (mkSym false true false) o ∧
  neg_y o = act_int (mkSym false false true) o ∧
  neg_xy o = act_int (mkSym false true true) o ∧
  o = act_int (mkSym false false false) o.
Proof. by destruct o. Qed.

Lemma closed_neg : closed_images_on int_offset [neg_x; neg_y; neg_xy].
Proof.
  intros φ ψ Hφ Hψ.
  assert (∀ χ : Offset → Offset, χ = neg_x ∨ χ = neg_y ∨ χ = neg_xy →
    χ ∈ [neg_x; neg_y; neg_xy]) as Hin.
  { intros χ [-> | [-> | ->] ]; set_solver. }
  assert (∀ o, int_offset o →
    neg_int (neg_int (X o)) = X o ∧ neg_int (neg_int (Y o)) = Y o) as Hinv.
  { intros o [? ?]. by rewrite !neg_int_involutive. }
  repeat (apply elem_of_cons in Hφ as [->|Hφ]);
    repeat (apply elem_of_cons in Hψ as [->|Hψ]);
    try (by apply elem_of_nil in Hφ); try (by apply elem_of_nil in Hψ);
    first
      [ left; intros [x y] [Ex Ey]%Hinv; unfold neg_x, neg_y, neg_xy;
        simpl in *; by rewrite ?Ex, ?Ey
      | right; exists neg_x; split; [auto|];
        intros [x y] [Ex Ey]%Hinv; unfold neg_x, neg_y, neg_xy;
        simpl in *; by rewrite ?Ex, ?Ey
      | right; exists neg_y; split; [auto|];
        intros [x y] [Ex Ey]%Hinv; unfold neg_x, neg_y, neg_xy;
        simpl in *; by rewrite ?Ex, ?Ey
      | right; exists neg_xy; split; [auto|];
        intros [x y] [Ex Ey]%Hinv; unfold neg_x, neg_y, neg_xy;
        simpl in *; by rewrite ?Ex, ?Ey ].
Qed.

(** The entries of completeTable of a table of machine offsets are the
    images of the entries of the table under the eight symmetries. *)
Lemma completeTable_act (t : Table) p d :
  (∀ p d, edge t p d → int_offset p ∧ int_offset d) →
  edge (completeTable t) p d ↔
  ∃ σ q e, edge t q e ∧ p = act_int σ q ∧ d = act_int σ e.
Proof.
  intros Ht. unfold completeTable.
  assert (∀ p d, edge (mirror_diagonal t) p d ↔
    ∃ b q e, edge t q e ∧ p = act_int (mkSym b false false) q ∧
      d = act_int (mkSym b false false) e) as Hdiag.
  { intros p' d'. rewrite mirror_diagonal_reflect.
    rewrite (reflect_edge _ _ _ _ closed_diagonal). unfold image_edge. split.
    - intros (q & e & Hqe & [[-> ->]|(φ & ->%list_elem_of_singleton & -> & ->)]).
      + exists false, q, e. by destruct q, e.
      + exists true, q, e. by destruct q, e.
    - intros ([] & q & e & Hqe & -> & ->); exists q, e; (split; [done|]).
      + right. exists flip_diagonal. split; [apply list_elem_of_here|done].
      + left. by destruct q, e. }
  rewrite mirror_axes_reflect.
  rewrite (reflect_edge_on int_offset).
  - unfold image_edge. setoid_rewrite Hdiag. split.
    + intros (q & e & (b & q' & e' & Hqe & -> & ->) & Ha).
      destruct (Ht q' e' Hqe) as [Dq De].
      assert (∃ ρ, p = act_int ρ (act_int (mkSym b false false) q') ∧
        d = act_int ρ (act_int (mkSym b false false) e')) as (ρ & -> & ->).
      { destruct Ha as [[-> ->]|(φ & Hφ & -> & ->)].
        - exists (mkSym false false false). by rewrite <-!(proj2 (proj2 (proj2 (proj2 (neg_act _))))).
        - repeat (apply elem_of_cons in Hφ as [->|Hφ]);
            [| | |by apply elem_of_nil in Hφ].
          + exists (mkSym false true false). by rewrite !(proj1 (proj2 (neg_act _))).
          + exists (mkSym false false true).
            by rewrite !(proj1 (proj2 (proj2 (neg_act _)))).
          + exists (mkSym false true true).
            by rewrite !(proj1 (proj2 (proj2 (proj2 (neg_act _))))). }
      destruct (act_int_compose ρ (mkSym b false false)) as [υ Hυ].
      exists υ, q', e'. by rewrite !Hυ.
    + intros ([b nx ny] & q & e & Hqe & -> & ->).
      exists (act_int (mkSym b false false) q), (act_int (mkSym b false false) e).
      split; [by eauto 6|].
      destruct nx, ny.
      * right. exists neg_xy. split; [set_solver|]. by destruct b.
      * right. exists neg_x. split; [set_solver|]. by destruct b.
      * right. exists neg_y. split; [set_solver|]. by destruct b.
      * left. by destruct b.
  - intros φ o Hφ Ho.
    repeat (apply elem_of_cons in Hφ as [->|Hφ]);
      [| | |by apply elem_of_nil in Hφ].
    + rewrite (proj1 (proj2 (neg_act _))). by apply act_int_range.
    + rewrite (proj1 (proj2 (proj2 (neg_act _)))). by apply act_int_range.
    + rewrite (proj1 (proj2 (proj2 (proj2 (neg_act _))))). by apply act_int_range.
  - apply closed_neg.
  - intros p' d' (b & q & e & Hqe & -> & ->)%Hdiag.
    destruct (Ht q e Hqe). split; by apply act_int_range.
Qed.

Lemma reflect_fixed fs (t : Table) :
  (∀ (φ : Offset → Offset) p d, φ ∈ fs → edge t p d → edge t (φ p) (φ d)) →
  reflect fs t = t.
Proof.
  intros Hcl. unfold reflect.
  apply (map_fold_weak_ind (λ (acc : Table) (_ : Table), acc = t)); [done|].
  intros i x m r _ ->.
  apply (set_fold_ind_L (λ (acc : Table) (S : gset Offset),
    S ⊆ edges t i → acc = t)); [done| |done].
  intros pos S a Hpos IH HS. rewrite IH by set_solver.
  assert (edge t i pos) as He by (unfold edge; set_solver).
  clear -Hcl He. 
  assert (∀ l, (∀ φ, φ ∈ l → φ ∈ fs) →
    foldl (λ acc (φ : Offset → Offset), addEntry acc (φ i) (φ pos)) t l = t)
    as Hfold.
  { induction l as [|φ l IHl]; intros Hl; [done|]. simpl.
    rewrite addEntry_again; [apply IHl; set_solver|].
    apply Hcl; [|done]. apply Hl. set_solver. }
  by apply Hfold.
Qed.

(** completeTable of a table of machine offsets is a table of machine
    offsets, closed under the eight symmetries. *)
Lemma completeTable_closed (t : Table) :
  (∀ p d, edge t p d → int_offset p ∧ int_offset d) →
  (∀ p d, edge (completeTable t) p d → int_offset p ∧ int_offset d) ∧
  (∀ σ p d, edge (completeTable t) p d →
     edge (completeTable t) (act_int σ p) (act_int σ d)).
Proof.
  intros Ht. split.
  - intros p d (σ & q & e & Hqe & -> & ->)%completeTable_act; [|done].
    destruct (Ht q e Hqe). split; by apply act_int_range.
  - intros σ p d (τ & q & e & Hqe & -> & ->)%completeTable_act; [|done].
    apply completeTable_act; [done|]. destruct (Ht q e Hqe).
    destruct (act_int_compose σ τ) as [ρ Hρ].
    exists ρ, q, e. by rewrite !Hρ.
Qed.

(** X11.  For a table of machine offsets, the entries of completeTable of
    the table are the images of its entries under the eight symmetries of
    the plane as Go computes them, the negation of the least int being the
    least int: the entries of the table are kept, and the result is closed
    under these symmetries.  On offsets without the least int they are the
    symmetries of the plane. *)
Theorem completeTable_images (t : Table) :
  (∀ p d, edge t p d → int_offset p ∧ int_offset d) →
  (∀ p d, edge (completeTable t) p d ↔
     ∃ σ q e, edge t q e ∧ p = act_int σ q ∧ d = act_int σ e) ∧
  (∀ p d, edge t p d → edge (completeTable t) p d) ∧
  (∀ σ p d, edge (completeTable t) p d →
     edge (completeTable t) (act_int σ p) (act_int σ d)) ∧
  (∀ σ o, ring o ≤ max_int → act_int σ o = act σ o).
Proof.
  intros Ht. split_and!.
  - intros p d. by apply completeTable_act.
  - intros p d He. apply completeTable_act; [done|].
    exists (mkSym false false false), p, d. by destruct p, d.
  - by apply completeTable_closed.
  - apply act_int_act.
Qed.

Lemma least_table_int p d :
  edge ({[mkOffset min_int 0 := {[origin_offset]}]} : Table) p d →
  int_offset p ∧ int_offset d.
Proof.
  unfold edge, edges. intros He.
  destruct (decide (p = mkOffset min_int 0)) as [->|Hne].
  - rewrite lookup_singleton_eq in He. simpl in He.
    apply elem_of_singleton in He as ->.
    by repeat split.
  - rewrite lookup_singleton_ne in He by done. simpl in He. set_solver.
Qed.

(** A table with the least int: its mirror image across the diagonal is
    an entry, and so is the entry itself, its own image under the change
    of sign. *)
Lemma completeTable_images_witness :
  edge (completeTable {[mkOffset min_int 0 := {[origin_offset]}]})
    (mkOffset 0 min_int) origin_offset ∧
  edge (completeTable {[mkOffset min_int 0 := {[origin_offset]}]})
    (act_int (mkSym false true false) (mkOffset min_int 0)) origin_offset.
Proof.
  destruct (completeTable_images _ least_table_int) as (H1 & H2 & H3 & _).
  assert (edge (completeTable {[mkOffset min_int 0 := {[origin_offset]}]})
    (mkOffset min_int 0) origin_offset) as He.
  { apply H2. unfold edge, edges. rewrite lookup_singleton_eq. simpl.
    by apply elem_of_singleton. }
  split.
  - exact (H3 (mkSym true false false) _ _ He).
  - exact (H3 (mkSym false true false) _ _ He).
Defined.

(** X12.  completeTable is idempotent on tables of machine offsets:
    completing a completed table changes nothing. *)
Theorem completeTable_idempotent (t : Table) :
  (∀ p d, edge t p d → int_offset p ∧ int_offset d) →
  completeTable (completeTable t) = completeTable t.
Proof.
  intros Ht. destruct (completeTable_closed t Ht) as [_ Hcl].
  set (T := completeTable t) in *. unfold completeTable.
  rewrite mirror_diagonal_reflect, mirror_axes_reflect.
  rewrite (reflect_fixed [flip_diagonal] T).
  - apply reflect_fixed. intros φ p d Hφ He.
    repeat (apply elem_of_cons in Hφ as [->|Hφ]);
      [| | |by apply elem_of_nil in Hφ].
    + rewrite !(proj1 (proj2 (neg_act _))). by apply Hcl.
    + rewrite !(proj1 (proj2 (proj2 (neg_act _)))). by apply Hcl.
    + rewrite !(proj1 (proj2 (proj2 (proj2 (neg_act _))))). by apply Hcl.
  - intros φ p d ->%list_elem_of_singleton He.
    rewrite !(proj1 (neg_act _)). by apply Hcl.
Qed.

Lemma completeTable_idempotent_witness :
  completeTable (completeTable {[mkOffset min_int 0 := {[origin_offset]}]}) =
  completeTable {[mkOffset min_int 0 := {[origin_offset]}]}.
Proof. exact (completeTable_idempotent _ least_table_int). Defined.

(** ** The rings the table covers *)

Lemma break_iter_le n : (Nat.iter n break_step (0, 0)).1 ≤ Z.of_nat n.
Proof.
  induction n as [|n IH]; [done|]. rewrite Nat.iter_succ.
  destruct (Nat.iter n break_step (0, 0)) as [cb bc]. unfold break_step.
  simpl in *. case_decide; simpl; lia.
Qed.

(** The break row of a ring lies below the ring. *)
Lemma break_at_le x : 1 ≤ x → break_at x ≤ x - 1.
Proof.
  intros Hx. unfold break_at.
  pose proof (break_iter_le (Z.to_nat (x - 1))). lia.
Qed.

Lemma octant_pred_exists r e :
  0 ≤ Y e ≤ X e → 1 ≤ X e → X e = 1 ∨ X e ≤ r → ∃ q, octant_edge r q e.
Proof.
  intros Hy Hx Hr. pose proof (break_at_nonneg (X e - 1)) as Hb0.
  assert (break_at (X e - 1) ≤ Z.max (X e - 2) 0) as Hb.
  { destruct (decide (X e = 1)) as [->|]; [done|].
    pose proof (break_at_le (X e - 1)). lia. }
  destruct (decide (Y e ≤ break_at (X e - 1))).
  - exists (mkOffset (X e - 1) (Y e)). unfold octant_edge. simpl. lia.
  - exists (mkOffset (X e - 1) (Y e - 1)). unfold octant_edge. simpl. lia.
Qed.

Lemma octant_succ_exists r q :
  0 ≤ Y q ≤ X q → X q = 0 ∨ X q < r → ∃ e, octant_edge r q e.
Proof.
  intros Hy Hx. destruct (decide (Y q ≤ break_at (X q))).
  - exists (mkOffset (X q + 1) (Y q)). unfold octant_edge. simpl. lia.
  - exists (mkOffset (X q + 1) (Y q + 1)). unfold octant_edge. simpl. lia.
Qed.

(** Every offset has an image in the first octant. *)
Lemma act_octant o : ∃ σ, 0 ≤ Y (act σ o) ≤ X (act σ o).
Proof.
  destruct o as [x y].
  destruct (decide (Z.abs x < Z.abs y)), (decide (x < 0)), (decide (y < 0)).
  - exists (mkSym true true true). unfold act. simpl. lia.
  - exists (mkSym true false true). unfold act. simpl. lia.
  - exists (mkSym true true false). unfold act. simpl. lia.
  - exists (mkSym true false false). unfold act. simpl. lia.
  - exists (mkSym false true true). unfold act. simpl. lia.
  - exists (mkSym false true false). unfold act. simpl. lia.
  - exists (mkSym false false true). unfold act. simpl. lia.
  - exists (mkSym false false false). unfold act. simpl. lia.
Qed.

Lemma act_inverse σ : ∃ τ, ∀ o, act τ (act σ o) = o.
Proof.
  destruct σ as [b nx ny].
  exists (mkSym b (if b then ny else nx) (if b then nx else ny)).
  intros [x y]. destruct b, nx, ny; unfold act; simpl; f_equal; lia.
Qed.

(** Every offset on a ring from 1 to the radius has a predecessor. *)
Lemma edge_pred_exists r o :
  1 ≤ ring o ≤ Z.max r 1 → ∃ p, edge (computeTable r) p o.
Proof.
  intros Ho. destruct (act_octant o) as [σ Hσ].
  destruct (act_inverse σ) as [τ Hτ]. pose proof (ring_act σ o) as Hring.
  assert (ring (act σ o) = X (act σ o)) as HX by (unfold ring; lia).
  destruct (octant_pred_exists r (act σ o)) as [q Hq]; [done|lia|lia|].
  exists (act τ q). apply computeTable_edge.
  exists τ, q, (act σ o). by rewrite Hτ.
Qed.

(** Every offset on a ring below the radius has a successor. *)
Lemma edge_succ_exists r o :
  ring o < Z.max r 1 → ∃ d, edge (computeTable r) o d.
Proof.
  intros Ho. destruct (act_octant o) as [σ Hσ].
  destruct (act_inverse σ) as [τ Hτ]. pose proof (ring_act σ o) as Hring.
  pose proof (ring_nonneg o) as Hpos.
  assert (ring (act σ o) = X (act σ o)) as HX by (unfold ring; lia).
  destruct (octant_succ_exists r (act σ o)) as [e He]; [done|lia|].
  exists (act τ e). apply computeTable_edge.
  exists τ, (act σ o), e. by rewrite Hτ.
Qed.

(** X13.  The table of a radius covers the rings up to the radius: the
    keys are the offsets on the rings below max(radius, 1), the
    destinations those on the rings 1, ..., max(radius, 1). *)
Theorem computeTable_covers r o :
  (is_Some (computeTable r !! o) ↔ ring o < Z.max r 1) ∧
  ((∃ p, edge (computeTable r) p o) ↔ 1 ≤ ring o ≤ Z.max r 1).
Proof.
  pose proof (ring_nonneg o) as Hpos. split; split.
  - intros [d Hd%computeTable_span]%key_edge. lia.
  - intros Ho. by apply key_edge, edge_succ_exists.
  - intros [p Hp]. pose proof (edge_ring _ _ _ Hp) as [? _].
    pose proof (computeTable_span _ _ _ Hp). pose proof (ring_nonneg p). lia.
  - apply edge_pred_exists.
Qed.

(** X14.  The tables of two radii agree where both reach: the table of the
    smaller radius holds the entries of the larger one whose destination
    lies within the smaller radius (within ring 1 at least), and no
    others. *)
Theorem computeTable_radii k r p d :
  k ≤ r →
  (edge (computeTable k) p d ↔
   edge (computeTable r) p d ∧ ring d ≤ Z.max k 1).
Proof.
  intros Hk. split.
  - intros He. split; [by eapply edge_mono|].
    by apply computeTable_span in He as [_ ?].
  - intros [He Hd]. apply (edge_restrict k r); [done|lia].
Qed.

Lemma computeTable_radii_witness :
  2 ≤ 5 ∧ edge (computeTable 2) (mkOffset 1 0) (mkOffset 2 1) ∧
  edge (computeTable 5) (mkOffset 1 0) (mkOffset 2 1).
Proof.
  assert (2 ≤ 5) as Hk by lia.
  assert (edge (computeTable 2) (mkOffset 1 0) (mkOffset 2 1)) as He.
  { apply (bool_decide_unpack _). vm_compute. exact I. }
  exact (conj Hk (conj He
    (proj1 (proj1 (computeTable_radii 2 5 _ _ Hk) He)))).
Defined.

(** ** The reverse table *)

(** X15.  The keys of the reverse table of a radius are the offsets on the
    rings 1, ..., max(radius, 1); the predecessor of a key lies one ring
    below it, one step of the compass away. *)
Theorem computeReverseTable_keys r o :
  (is_Some (computeReverseTable r !! o) ↔ 1 ≤ ring o ≤ Z.max r 1) ∧
  (∀ p, computeReverseTable r !! o = Some p →
     ring p = ring o - 1 ∧ ring (Sub o p) = 1).
Proof.
  split; [split|].
  - intros [p Hp%computeReverseTable_lookup].
    pose proof (edge_ring _ _ _ Hp) as [? _].
    pose proof (computeTable_span _ _ _ Hp). pose proof (ring_nonneg p). lia.
  - intros [p Hp]%(edge_pred_exists r). exists p.
    by apply computeReverseTable_lookup.
  - intros p Hp%computeReverseTable_lookup.
    pose proof (edge_ring _ _ _ Hp) as [? _].
    pose proof (Sub_edge _ _ _ Hp) as [_ ?]. split; [lia|done].
Qed.

Lemma computeReverseTable_keys_witness :
  is_Some (computeReverseTable 3 !! mkOffset 3 1) ∧
  ring (parent (computeReverseTable 3) (mkOffset 3 1)) = 2.
Proof.
  assert (1 ≤ ring (mkOffset 3 1) ≤ Z.max 3 1) as H.
  { split; vm_compute; discriminate. }
  pose proof (proj2 (proj1 (computeReverseTable_keys 3 (mkOffset 3 1))) H)
    as Hkey.
  split; [exact Hkey|]. destruct Hkey as [p Hp].
  unfold parent. rewrite Hp.
  exact (proj1 (proj2 (computeReverseTable_keys 3 (mkOffset 3 1)) p Hp)).
Defined.

(** ** The shape of a trace *)

Lemma parent_key r o :
  1 ≤ ring o ≤ Z.max r 1 →
  ring (parent (computeReverseTable r) o) = ring o - 1 ∧
  edge (computeTable r) (parent (computeReverseTable r) o) o.
Proof.
  intros [p Hp]%(edge_pred_exists r).
  pose proof (edge_ring _ _ _ Hp) as [? _].
  unfold parent. rewrite (proj2 (computeReverseTable_lookup _ _ _) Hp).
  simpl. split; [lia|done].
Qed.

(** The loop of Trace collects the chain of predecessors of the goal. *)
Lemma trace_loop_chain r n fuel goal path :
  ring goal = Z.of_nat n → ring goal ≤ Z.max r 1 → (n ≤ fuel)%nat →
  trace_loop fuel (computeReverseTable r) goal path =
  Done (path ++ ((λ i, ancestor (computeReverseTable r) i goal) <$> seq 0 n)).
Proof.
  revert fuel goal path. induction n as [|n IH]; intros fuel goal path Hn Hr Hfuel.
  - assert (goal = origin_offset) as -> by by apply ring_zero.
    rewrite app_nil_r. by destruct fuel.
  - destruct fuel as [|fuel]; [lia|]. cbn [trace_loop].
    rewrite decide_True.
    2:{ apply goal_test. intros Heq. apply ring_zero in Heq. lia. }
    destruct (parent_key r goal) as [Hp _]; [lia|].
    rewrite IH by lia. f_equal. rewrite <-app_assoc. f_equal.
    cbn [seq fmap list_fmap]. f_equal.
    rewrite <-fmap_S_seq, <-list_fmap_compose. apply list_fmap_ext.
    intros i j _. unfold compose. cbv beta. by rewrite ancestor_S.
Qed.

Lemma ancestor_ring r goal i :
  ring goal ≤ Z.max r 1 → Z.of_nat i ≤ ring goal →
  ring (ancestor (computeReverseTable r) i goal) = ring goal - Z.of_nat i.
Proof.
  revert goal. induction i as [|i IH]; intros goal Hr Hi.
  - unfold ancestor. simpl. lia.
  - rewrite ancestor_S. destruct (parent_key r goal) as [Hp _]; [lia|].
    rewrite IH by lia. lia.
Qed.

Lemma ancestor_edge r goal i :
  ring goal ≤ Z.max r 1 → Z.of_nat i < ring goal →
  edge (computeTable r) (ancestor (computeReverseTable r) (S i) goal)
    (ancestor (computeReverseTable r) i goal).
Proof.
  revert goal. induction i as [|i IH]; intros goal Hr Hi.
  - rewrite ancestor_S. unfold ancestor. simpl. apply parent_key. lia.
  - rewrite (ancestor_S _ (S i) goal), (ancestor_S _ i goal).
    destruct (parent_key r goal) as [Hp _]; [lia|]. apply IH; lia.
Qed.

(** X16.  For a goal other than the origin whose ring is a machine
    integer, Trace returns a path of as many offsets as the ring of the
    goal: the offset at index i lies on ring i + 1, the first is a
    successor of the origin in the table, and each further one a successor
    of the one before, hence one step of the compass away. *)
Theorem Trace_shape goal :
  1 ≤ ring goal ≤ max_int →
  ∃ path,
    (∀ fuel, ring goal ≤ Z.of_nat fuel → Trace fuel goal = Done path) ∧
    Z.of_nat (length path) = ring goal ∧
    (∀ i o, path !! i = Some o → ring o = Z.of_nat i + 1) ∧
    (∀ o, path !! 0%nat = Some o →
       edge (computeTable (ring goal)) origin_offset o) ∧
    (∀ i o o', path !! i = Some o → path !! S i = Some o' →
       edge (computeTable (ring goal)) o o' ∧ ring (Sub o' o) = 1).
Proof.
  intros Hg. set (k := ring goal) in *. set (n := Z.to_nat k).
  set (rev := computeReverseTable k).
  set (chain := (λ i, ancestor rev i goal) <$> seq 0 n).
  assert (Chebyshev goal = k) as Hc by (apply Chebyshev_ring; lia).
  assert (∀ i o, reverse chain !! i = Some o →
    (i < n)%nat ∧ o = ancestor rev (n - 1 - i) goal) as Hlook.
  { intros i o Hi. pose proof (lookup_lt_Some _ _ _ Hi) as Hlt.
    rewrite length_reverse in Hlt. unfold chain in Hlt, Hi.
    rewrite length_fmap, length_seq in Hlt. split; [done|].
    rewrite reverse_lookup in Hi by (by rewrite length_fmap, length_seq).
    rewrite length_fmap, length_seq in Hi.
    rewrite list_lookup_fmap, lookup_seq_lt in Hi by lia.
    simpl in Hi. injection Hi as <-. f_equal. lia. }
  exists (reverse chain). split_and!.
  - intros fuel Hfuel. unfold Trace, getReverseTable. rewrite Hc.
    rewrite (trace_loop_chain k n) by (fold k; lia). done.
  - rewrite length_reverse. unfold chain. rewrite length_fmap, length_seq. lia.
  - intros i o [Hi ->]%Hlook. unfold rev. rewrite ancestor_ring by (fold k; lia).
    fold k. lia.
  - intros o [Hi ->]%Hlook. rewrite Nat.sub_0_r.
    assert (ancestor rev n goal = origin_offset) as <-.
    { apply ring_zero. unfold rev. rewrite ancestor_ring by (fold k; lia).
      fold k. lia. }
    replace n with (S (n - 1)) at 1 by lia.
    apply ancestor_edge; fold k; lia.
  - intros i o o' [Hi ->]%Hlook [Hi' ->]%Hlook.
    replace (n - 1 - i)%nat with (S (n - 1 - S i)) by lia.
    assert (edge (computeTable k) (ancestor rev (S (n - 1 - S i)) goal)
              (ancestor rev (n - 1 - S i) goal)) as He.
    { apply ancestor_edge; fold k; lia. }
    split; [done|]. by apply (Sub_edge k).
Qed.

Lemma Trace_shape_witness :
  1 ≤ ring (mkOffset 3 1) ≤ max_int ∧
  ∃ path, Trace 3 (mkOffset 3 1) = Done path ∧
    Z.of_nat (length path) = ring (mkOffset 3 1).
Proof.
  assert (1 ≤ ring (mkOffset 3 1) ≤ max_int) as H.
  { split; vm_compute; discriminate. }
  split; [exact H|].
  destruct (Trace_shape (mkOffset 3 1) H) as (path & Hrun & Hlen & _).
  exists path. split; [|exact Hlen]. apply Hrun. vm_compute. discriminate.
Defined.

(** ** The symmetry of Trace *)

Lemma act_origin σ : act σ origin_offset = origin_offset.
Proof. by destruct σ as [[] [] []]. Qed.

Lemma act_origin_inv σ o : act σ o = origin_offset → o = origin_offset.
Proof. intros H. apply (act_inj σ). by rewrite act_origin. Qed.

(** The predecessor of the image of an offset is the image of its
    predecessor. *)
Lemma parent_act r σ o :
  parent (computeReverseTable r) (act σ o) =
  act σ (parent (computeReverseTable r) o).
Proof.
  unfold parent.
  destruct (computeReverseTable r !! o) as [p|] eqn:Hp.
  - apply computeReverseTable_lookup, (edge_act r σ),
      computeReverseTable_lookup in Hp. by rewrite Hp.
  - destruct (computeReverseTable r !! act σ o) as [q|] eqn:Hq.
    + exfalso. destruct (act_inverse σ) as [τ Hτ].
      apply computeReverseTable_lookup, (edge_act r τ) in Hq.
      rewrite Hτ in Hq. apply computeReverseTable_lookup in Hq. congruence.
    + simpl. by rewrite act_origin.
Qed.

Lemma trace_loop_act r σ fuel goal path :
  trace_loop fuel (computeReverseTable r) (act σ goal) (act σ <$> path) =
  omap_outcome (fmap (act σ))
    (trace_loop fuel (computeReverseTable r) goal path).
Proof.
  revert goal path. induction fuel as [|fuel IH]; intros goal path;
    cbn [trace_loop].
  - destruct (decide (X goal ≠ 0 ∨ Y goal ≠ 0)) as [Hg|Hg].
    + rewrite decide_True; [done|].
      apply goal_test. intros ?%act_origin_inv. by apply goal_test in Hg.
    + rewrite decide_False; [done|].
      rewrite goal_test in Hg |- *. intros Hne. apply Hg. intros ->.
      by rewrite act_origin in Hne.
  - destruct (decide (X goal ≠ 0 ∨ Y goal ≠ 0)) as [Hg|Hg].
    + rewrite decide_True.
      2:{ apply goal_test. intros ?%act_origin_inv. by apply goal_test in Hg. }
      rewrite parent_act, <-IH. by rewrite fmap_app.
    + rewrite decide_False; [done|].
      rewrite goal_test in Hg |- *. intros Hne. apply Hg. intros ->.
      by rewrite act_origin in Hne.
Qed.

(** X17.  Trace commutes with the eight symmetries of the table: the path
    to the image of a goal under a flip or a change of signs is the image
    of the path to the goal, and both take the same number of steps. *)
Theorem Trace_symmetric σ fuel goal :
  ring goal ≤ max_int →
  Trace fuel (act σ goal) = omap_outcome (fmap (act σ)) (Trace fuel goal).
Proof.
  intros Hg. unfold Trace, getReverseTable.
  rewrite !Chebyshev_ring by (rewrite ?ring_act; done). rewrite ring_act.
  pose proof (trace_loop_act (ring goal) σ fuel goal []) as H.
  rewrite fmap_nil in H. rewrite H.
  destruct (trace_loop fuel (computeReverseTable (ring goal)) goal []);
    [|done..].
  simpl. by rewrite fmap_reverse.
Qed.

Lemma Trace_symmetric_witness :
  ring (mkOffset 3 1) ≤ max_int ∧
  Trace 3 (mkOffset (-1) 3) =
  Done [mkOffset 0 1; mkOffset (-1) 2; mkOffset (-1) 3].
Proof.
  assert (ring (mkOffset 3 1) ≤ max_int) as H by (vm_compute; discriminate).
  split; [exact H|].
  exact (eq_trans (Trace_symmetric (mkSym true true false) 3 (mkOffset 3 1) H)
    (eq_refl (Done [mkOffset 0 1; mkOffset (-1) 2; mkOffset (-1) 3]))).
Defined.

(** ** FoV from no tile *)

(** X18.  FoV from a nil origin panics at the first neighbour it looks up,
    for every radius: the table of every radius has entries at the
    origin. *)
Theorem FoV_nil_origin fuel g r : FoV (S fuel) g None r = Panic.
Proof.
  unfold FoV. cbn [flood]. rewrite lookup_singleton_eq. cbn [default].
  assert (mkOffset 1 0 ∈ elements (edges (computeTable r) origin_offset)) as He.
  { apply elem_of_elements. apply (edge_origin r). by vm_compute. }
  destruct (elements (edges (computeTable r) origin_offset)) as [|adj adjs];
    [by apply elem_of_nil in He|].
  done.
Qed.

(** ** wallfix on any map *)

Lemma march_frame g mk s n d fov fov' :
  march g mk s n d fov = Done fov' →
  s = 1 ∨ s = -1 →
  (∀ k, (∀ d' b, s * d ≤ s * d' < s * d + Z.of_nat n → b = 1 ∨ b = -1 →
           k ≠ mk d' b) →
        fov' !! k = fov !! k) ∧
  (∀ k, is_Some (fov !! k) → is_Some (fov' !! k)).
Proof.
  intros Hm Hs. revert d fov Hm.
  induction n as [|n IH]; intros d fov Hm; cbn [march] in Hm.
  - by injection Hm as <-.
  - destruct (fov !! mk d 0) as [v0|]; [|by injection Hm as <-].
    destruct (default None (fov !! mk (d - s) 0)) as [pos|]; [|done].
    apply IH in Hm as [Hsame Hkeys]. split.
    + intros k Hk. rewrite Hsame.
      2:{ intros d' b Hd'. apply Hk. lia. }
      rewrite !lookup_insert_ne; [done|symmetry; apply Hk; lia..].
    + intros k Hk. apply Hkeys.
      rewrite !lookup_insert_is_Some'. auto.
Qed.

(** X19.  wallfix, for a radius other than the least machine integer and a
    map it returns for, changes entries beside the two cardinal axes only,
    and within the radius only; it removes no key; for a radius below 1 it
    returns its map unchanged.  It panics when (1,0) is a key and the
    radius is positive but the map holds no tile at the origin. *)
Theorem wallfix_frame g fov r :
  min_int < r ≤ max_int →
  (∀ fov', wallfix g fov r = Done fov' →
     (∀ k, ¬ beside_axis k ∨ r < ring k → fov' !! k = fov !! k) ∧
     (∀ k, is_Some (fov !! k) → is_Some (fov' !! k))) ∧
  (r ≤ 0 → wallfix g fov r = Done fov) ∧
  (1 ≤ r → is_Some (fov !! mkOffset 1 0) →
     default None (fov !! origin_offset) = None →
     wallfix g fov r = Panic).
Proof.
  intros Hr.
  assert (- wrap (- r) = r) as Hdown.
  { rewrite wrap_small; [lia|]. unfold int_range, min_int, max_int in *. lia. }
  unfold wallfix. rewrite Hdown. split_and!.
  - intros fov' Hw.
    destruct (march g along_x 1 (Z.to_nat r) 1 fov) as [f1| |] eqn:H1;
      [|done..]. cbn [obind] in Hw.
    destruct (march g along_x (-1) (Z.to_nat r) (-1) f1) as [f2| |] eqn:H2;
      [|done..]. cbn [obind] in Hw.
    destruct (march g along_y 1 (Z.to_nat r) 1 f2) as [f3| |] eqn:H3;
      [|done..]. cbn [obind] in Hw.
    apply march_frame in H1 as [S1 K1]; [|auto].
    apply march_frame in H2 as [S2 K2]; [|auto].
    apply march_frame in H3 as [S3 K3]; [|auto].
    apply march_frame in Hw as [S4 K4]; [|auto].
    split; [|by auto].
    intros k Hk.
    assert (∀ mk s d' b, mk = along_x ∨ mk = along_y → s = 1 ∨ s = -1 →
      s * s ≤ s * d' < s * s + Z.of_nat (Z.to_nat r) → b = 1 ∨ b = -1 →
      k ≠ mk d' b) as Hne.
    { intros mk s d' b Hmk Hs Hd' Hb ->.
      destruct Hk as [Hk|Hk].
      - apply Hk. unfold beside_axis.
        destruct Hmk as [-> | ->], Hs as [-> | ->], Hb as [-> | ->];
          simpl; lia.
      - revert Hk. unfold ring.
        destruct Hmk as [-> | ->], Hs as [-> | ->], Hb as [-> | ->];
          simpl; lia. }
    rewrite S4, S3, S2, S1; [done|..].
    + intros d' b ??. apply (Hne along_x 1); auto.
    + intros d' b ??. apply (Hne along_x (-1)); auto.
    + intros d' b ??. apply (Hne along_y 1); auto.
    + intros d' b ??. apply (Hne along_y (-1)); auto.
  - intros Hle. by replace (Z.to_nat r) with 0%nat by lia.
  - intros Hge [v Hv] Ho.
    destruct (Z.to_nat r) as [|n] eqn:Hn; [lia|]. cbn [march].
    change (along_x 1 0) with (mkOffset 1 0). rewrite Hv.
    change (along_x (1 - 1) 0) with origin_offset. by rewrite Ho.
Qed.

Lemma wallfix_frame_witness :
  min_int < 0 ≤ max_int ∧ wallfix hall ∅ 0 = Done ∅.
Proof.
  assert (min_int < 0 ≤ max_int) as H by (split; vm_compute; done).
  split; [exact H|].
  apply (proj1 (proj2 (wallfix_frame hall ∅ 0 H))). lia.
Defined.

(** ** LoS along the path of Trace *)

(** The step back along an entry of the table is a step of the compass. *)
Lemma Sub_edge_back r p d :
  edge (computeTable r) p d → ring (Sub p d) = 1.
Proof.
  intros [Hs Hr]%Sub_edge. rewrite Hs in Hr. unfold ring in Hr. simpl in Hr.
  unfold Sub, ring. simpl.
  rewrite !wrap_small by (unfold int_range, min_int, max_int; lia). lia.
Qed.

Section los_path.
Context (g : Graph) (cell : Offset → option ptr) (a : ptr).
Hypothesis Hgrid : grid g cell.
Hypothesis Ha : cell (TileOffset (g a)) = Some a.

Local Abbreviation oa := (TileOffset (g a)).

(** The tiles the loop of LoS visits are those at the predecessors of the
    offset it starts from. *)
Lemma los_loop_chain k m :
  k ≤ max_int →
  ∀ fuel curr, ring curr = Z.of_nat m → ring curr ≤ Z.max k 1 →
  (los_loop fuel g (computeReverseTable k) (Some a) (cell (Add oa curr)) curr
     = Done true →
   ∀ i, (i < m)%nat → ∃ t,
     cell (Add oa (ancestor (computeReverseTable k) i curr)) = Some t ∧
     Lite (g t) = true) ∧
  ((∀ i, (i < m)%nat → ∃ t,
     cell (Add oa (ancestor (computeReverseTable k) i curr)) = Some t ∧
     Lite (g t) = true) →
   (m ≤ fuel)%nat →
   los_loop fuel g (computeReverseTable k) (Some a) (cell (Add oa curr)) curr
     = Done true).
Proof.
  intros Hk. destruct (oa_range g cell a Hgrid Ha) as [Hax Hay].
  induction m as [|m IH]; intros fuel curr Hm Hr.
  - assert (curr = origin_offset) as -> by by apply ring_zero.
    rewrite Add_origin, Ha by done. split; [intros _ i; lia|].
    intros _ _. destruct fuel; cbn [los_loop]; by rewrite decide_False by auto.
  - assert (int_range (X curr) ∧ int_range (Y curr)) as [Hcx Hcy].
    { apply ring_range. unfold max_int in *. lia. }
    assert (cell (Add oa curr) ≠ Some a) as Hne.
    { intros Hc. destruct (grid_offset g cell Hgrid _ _ Hc) as (Hoff & _).
      symmetry in Hoff. apply Add_fixed in Hoff; [|done..]. subst curr.
      unfold ring in Hm. simpl in Hm. lia. }
    destruct (parent_key k curr) as [Hpr Hpe]; [lia|].
    set (next := parent (computeReverseTable k) curr) in *.
    assert (∀ t, cell (Add oa curr) = Some t →
      adjacent (g t) (Sub next curr) = cell (Add oa next)) as Hadj.
    { intros t Ht. rewrite (grid_adjacent g cell Hgrid _ _ _ Ht).
      rewrite decide_True by by eapply Sub_edge_back.
      by rewrite Add_Add_Sub. }
    destruct (IH (pred fuel) next) as [IH1 IH2]; [lia|lia|].
    split.
    + intros Hlos. destruct fuel as [|fuel]; cbn [los_loop] in Hlos;
        rewrite decide_True in Hlos by done; [done|].
      destruct (cell (Add oa curr)) as [t|] eqn:Ht; [|done].
      destruct (Lite (g t)) eqn:Hl; [|done]. cbn [negb] in Hlos.
      fold next in Hlos. rewrite (Hadj t eq_refl) in Hlos.
      intros [|i] Hi.
      * exists t. unfold ancestor. simpl. by rewrite Ht.
      * rewrite ancestor_S. apply IH1; [done|lia].
    + intros Hall Hfuel. destruct fuel as [|fuel]; [lia|].
      cbn [los_loop]. rewrite decide_True by done.
      destruct (Hall 0%nat) as (t & Ht & Hl); [lia|].
      unfold ancestor in Ht. simpl in Ht. rewrite Ht, Hl. cbn [negb].
      fold next. rewrite (Hadj t Ht). apply IH2; [|simpl in *; lia].
      intros i Hi. destruct (Hall (S i)) as (t' & Ht' & Hl'); [lia|].
      rewrite ancestor_S in Ht'. eauto.
Qed.

(** The loop of LoS answers true from every offset the flood expands. *)
Lemma expanded_los_loop r off t :
  expanded g (computeTable r) a off t →
  ∀ k fuel, k ≤ max_int → ring off ≤ Z.max k 1 → ring off ≤ Z.of_nat fuel →
  los_loop fuel g (computeReverseTable k) (Some a) (Some t) off = Done true.
Proof.
  intros Hexp k fuel Hk Hr Hfuel.
  pose proof (ring_nonneg off) as Hpos.
  destruct (los_loop_chain k (Z.to_nat (ring off)) Hk fuel off) as [_ Hloop];
    [lia|done|].
  rewrite (grid_expanded g cell a Hgrid Ha _ _ _ Hexp) in Hloop.
  apply Hloop; [|lia]. clear Hloop Hfuel fuel.
  induction Hexp as [|off t adj u Hexp IH He Hadj Hl];
    [intros i; change (ring origin_offset) with 0; simpl; lia|].
  destruct (edge_ring _ _ _ He) as [Hring _].
  pose proof (ring_nonneg off) as Hpos'.
  assert (parent (computeReverseTable k) adj = off) as Hpar.
  { destruct (parent_key k adj) as [_ Hpe]; [lia|].
    apply (edge_pred_unique k r _ _ adj); [done|done]. }
  intros [|i] Hi.
  - exists u. split; [|done]. unfold ancestor. simpl.
    apply (grid_expanded g cell a Hgrid Ha r). by eapply expanded_step.
  - rewrite ancestor_S, Hpar. apply IH; lia.
Qed.
End los_path.

Lemma Sub_Add_l a o :
  int_range (X o) → int_range (Y o) → Sub (Add a o) a = o.
Proof.
  intros Hx Hy. apply offset_eq. unfold Sub, Add. simpl.
  rewrite !wrap_sub_l.
  replace (X a + X o - X a) with (X o) by lia.
  replace (Y a + Y o - Y a) with (Y o) by lia.
  by rewrite !wrap_small.
Qed.

(** X20.  On a map laid out on a grid LoS from a to b answers true exactly
    when every position on the path of Trace to the offset of b from a
    holds a transparent tile, b included and a excluded; fuel for as many
    steps as the ring of that offset is enough. *)
Theorem LoS_Trace g cell a b :
  grid g cell →
  cell (TileOffset (g a)) = Some a → cell (TileOffset (g b)) = Some b →
  ring (Sub (TileOffset (g b)) (TileOffset (g a))) ≤ max_int →
  ∃ path,
    (∀ fuel, ring (Sub (TileOffset (g b)) (TileOffset (g a))) ≤ Z.of_nat fuel →
       Trace fuel (Sub (TileOffset (g b)) (TileOffset (g a))) = Done path) ∧
    (∀ fuel, LoS fuel g (Some a) (Some b) = Done true →
       ∀ o, o ∈ path →
         ∃ t, cell (Add (TileOffset (g a)) o) = Some t ∧ Lite (g t) = true) ∧
    ((∀ o, o ∈ path →
        ∃ t, cell (Add (TileOffset (g a)) o) = Some t ∧ Lite (g t) = true) →
     ∀ fuel, ring (Sub (TileOffset (g b)) (TileOffset (g a))) ≤ Z.of_nat fuel →
       LoS fuel g (Some a) (Some b) = Done true).
Proof.
  intros Hgrid Ha Hb Hring.
  set (off := Sub (TileOffset (g b)) (TileOffset (g a))) in *.
  pose proof (ring_nonneg off) as Hpos.
  set (k := ring off) in *. set (n := Z.to_nat k).
  set (rev := computeReverseTable k).
  set (chain := (λ i, ancestor rev i off) <$> seq 0 n).
  assert (Chebyshev off = k) as Hc by by apply Chebyshev_ring.
  destruct (grid_offset g cell Hgrid _ _ Hb) as (_ & Hbx & Hby).
  assert (cell (Add (TileOffset (g a)) off) = Some b) as Hcell.
  { unfold off. by rewrite Add_Sub. }
  assert (∀ o, o ∈ reverse chain ↔ ∃ i, (i < n)%nat ∧ o = ancestor rev i off)
    as Hmem.
  { intros o. rewrite elem_of_reverse. unfold chain.
    rewrite list_elem_of_fmap. setoid_rewrite elem_of_seq. split.
    - intros (i & -> & Hi). exists i. split; [lia|done].
    - intros (i & Hi & ->). exists i. split; [done|lia]. }
  exists (reverse chain). split_and!.
  - intros fuel Hfuel. unfold Trace, getReverseTable. rewrite Hc.
    by rewrite (trace_loop_chain k n) by (fold k; lia).
  - intros fuel Hlos o (i & Hi & ->)%Hmem.
    unfold LoS, getReverseTable in Hlos. fold off in Hlos.
    rewrite Hc, <-Hcell in Hlos.
    destruct (los_loop_chain g cell a Hgrid Ha k n Hring fuel off) as [H1 _];
      [fold k; lia|fold k; lia|].
    by apply H1.
  - intros Hall fuel Hfuel. unfold LoS, getReverseTable. fold off.
    rewrite Hc, <-Hcell.
    destruct (los_loop_chain g cell a Hgrid Ha k n Hring fuel off) as [_ H2];
      [fold k; lia|fold k; lia|].
    apply H2; [|lia]. intros i Hi. apply Hall, Hmem. eauto.
Qed.

Lemma LoS_Trace_witness :
  ∃ path, Trace 1 (mkOffset 1 0) = Done path ∧
    (LoS 1 hall (Some (hall_at 0)) (Some (hall_at 1)) = Done true →
     ∀ o, o ∈ path → ∃ t,
       hall_cell (Add (TileOffset (hall (hall_at 0))) o) = Some t ∧
       Lite (hall t) = true).
Proof.
  assert (hall_cell (TileOffset (hall (hall_at 0))) = Some (hall_at 0)) as Ha.
  { vm_compute. reflexivity. }
  assert (hall_cell (TileOffset (hall (hall_at 1))) = Some (hall_at 1)) as Hb.
  { vm_compute. reflexivity. }
  assert (ring (Sub (TileOffset (hall (hall_at 1)))
            (TileOffset (hall (hall_at 0)))) ≤ max_int) as Hr.
  { vm_compute. discriminate. }
  destruct (LoS_Trace hall hall_cell (hall_at 0) (hall_at 1) hall_grid Ha Hb Hr)
    as (path & Htrace & Hlos & _).
  exists path. split.
  - apply (Htrace 1%nat). vm_compute. discriminate.
  - apply (Hlos 1%nat).
Defined.

(** X21.  On a map laid out on a grid LoS answers true for every tile the
    flood of FoV expands, at any radius: what FoV reaches through
    transparent tiles is in line of sight. *)
Theorem LoS_complete g cell a b r off fuel :
  grid g cell → cell (TileOffset (g a)) = Some a → r ≤ max_int →
  expanded g (computeTable r) a off b → ring off ≤ Z.of_nat fuel →
  LoS fuel g (Some a) (Some b) = Done true.
Proof.
  intros Hgrid Ha Hr Hexp Hfuel.
  assert (ring off ≤ Z.max r 1) as Hring.
  { destruct (decide (off = origin_offset)) as [->|Hne].
    - change (ring origin_offset) with 0. lia.
    - apply expanded_recorded in Hexp as [Hrec%recorded_ring _]; [lia|done]. }
  assert (int_range (X off) ∧ int_range (Y off)) as [Hx Hy].
  { apply ring_range. unfold max_int in *. lia. }
  pose proof (grid_expanded g cell a Hgrid Ha _ _ _ Hexp) as Hcell.
  destruct (grid_offset g cell Hgrid _ _ Hcell) as (Hob & _).
  unfold LoS, getReverseTable. rewrite Hob, Sub_Add_l by done.
  rewrite Chebyshev_ring by (unfold max_int in *; lia).
  apply (expanded_los_loop g cell a Hgrid Ha r); [done| |lia|done].
  unfold max_int in *. lia.
Qed.

Lemma LoS_complete_witness :
  expanded hall (computeTable 10) (hall_at 0) (mkOffset 1 0) (hall_at 1) ∧
  LoS 1 hall (Some (hall_at 0)) (Some (hall_at 1)) = Done true.
Proof.
  assert (expanded hall (computeTable 10) (hall_at 0) (mkOffset 1 0) (hall_at 1))
    as Hexp.
  { eapply (expanded_step _ _ _ origin_offset); [constructor|..].
    - apply (bool_decide_unpack _). vm_compute. exact I.
    - vm_compute. reflexivity.
    - vm_compute. reflexivity. }
  split; [exact Hexp|].
  apply (LoS_complete hall hall_cell (hall_at 0) (hall_at 1) 10 (mkOffset 1 0) 1
    hall_grid); [vm_compute; reflexivity|vm_compute; discriminate|exact Hexp|].
  vm_compute. discriminate.
Defined.

(** ** FoV in the open *)

Section open.
Context (g : Graph) (cell : Offset → option ptr) (a : ptr) (r : Z).
Hypothesis Hgrid : grid g cell.
Hypothesis Ha : cell (TileOffset (g a)) = Some a.
Hypothesis Hopen : ∀ k, ring k ≤ Z.max r 1 →
  ∃ t, cell (Add (TileOffset (g a)) k) = Some t ∧
    (ring k < Z.max r 1 → Lite (g t) = true).

Lemma open_adjacent off t adj :
  expanded g (computeTable r) a off t → edge (computeTable r) off adj →
  ∃ u, adjacent (g t) (Sub adj off) = Some u ∧
    cell (Add (TileOffset (g a)) adj) = Some u ∧
    (ring adj < Z.max r 1 → Lite (g u) = true).
Proof.
  intros Hexp He.
  pose proof (grid_expanded g cell a Hgrid Ha _ _ _ Hexp) as Hcell.
  rewrite (grid_adjacent g cell Hgrid _ _ _ Hcell).
  destruct (Sub_edge _ _ _ He) as [_ Hd].
  rewrite decide_True by done. rewrite Add_Add_Sub.
  destruct (computeTable_span _ _ _ He) as [_ Hadj].
  destruct (Hopen adj Hadj) as (u & Hu & Hl). eauto.
Qed.

Lemma open_not_dangling : ¬ dangling g (computeTable r) a.
Proof.
  intros (off & t & adj & Hexp & He & Hadj).
  destruct (open_adjacent off t adj Hexp He) as (u & Hu & _). congruence.
Qed.

(** With transparent tiles everywhere below the radius the flood expands
    every offset there. *)
Lemma open_expanded n k :
  ring k = Z.of_nat n → ring k < Z.max r 1 →
  ∃ t, expanded g (computeTable r) a k t.
Proof.
  revert k. induction n as [|n IH]; intros k Hn Hr.
  - assert (k = origin_offset) as -> by by apply ring_zero.
    exists a. constructor.
  - destruct (edge_pred_exists r k) as [p Hp]; [lia|].
    destruct (edge_ring _ _ _ Hp) as [Hring _].
    destruct (IH p) as [tp Htp]; [lia|lia|].
    destruct (open_adjacent p tp k Htp Hp) as (u & Hu & _ & Hl).
    exists u. eapply expanded_step; eauto.
Qed.
End open.

(** X22.  On a map laid out on a grid, where every position up to the
    radius from the origin tile holds a tile and every position below the
    radius a transparent one, FoV returns, and its result is the whole
    square: its keys are the offsets at Chebyshev distance max(radius, 1)
    or less, each mapped to the tile at that offset from the origin
    tile. *)
Theorem FoV_open g cell a r :
  grid g cell → cell (TileOffset (g a)) = Some a →
  (∀ k, ring k ≤ Z.max r 1 →
     ∃ t, cell (Add (TileOffset (g a)) k) = Some t ∧
       (ring k < Z.max r 1 → Lite (g t) = true)) →
  ∃ fov,
    (∀ fuel, (flood_fuel r ≤ fuel)%nat → FoV fuel g (Some a) r = Done fov) ∧
    (∀ k, fov !! k =
       if decide (ring k ≤ Z.max r 1)
       then Some (cell (Add (TileOffset (g a)) k)) else None).
Proof.
  intros Hgrid Ha Hopen.
  pose proof (open_not_dangling g cell a r Hgrid Ha Hopen) as Hnd.
  destruct (FoV_enough g a r (flood_fuel r)) as [[_ [fov HF] ]|[? _] ];
    [done| |done].
  exists fov. split; [intros fuel Hfuel; by eapply FoV_mono|].
  destruct (FoV_entries _ _ _ _ _ HF) as (E0 & _ & E2 & E3 & _).
  intros k. case_decide as Hk.
  - destruct (decide (k = origin_offset)) as [->|Hne].
    { destruct (oa_range g cell a Hgrid Ha).
      by rewrite E0, Add_origin, Ha. }
    assert (1 ≤ ring k) as Hk1.
    { pose proof (ring_nonneg k). rewrite <-ring_zero in Hne. lia. }
    destruct (edge_pred_exists r k) as [p Hp]; [lia|].
    destruct (edge_ring _ _ _ Hp) as [Hring _].
    pose proof (ring_nonneg p) as Hpos.
    destruct (open_expanded g cell a r Hgrid Ha Hopen (Z.to_nat (ring p)) p)
      as [tp Htp]; [lia|lia|].
    destruct (open_adjacent g cell a r Hgrid Ha Hopen p tp k Htp Hp)
      as (u & Hu & _).
    destruct (E2 k u) as (v & Hv & _); [by exists p, tp|].
    rewrite Hv. f_equal. by eapply grid_FoV.
  - destruct (fov !! k) as [v|] eqn:Hv; [|done].
    exfalso. apply Hk, E3. eauto.
Qed.

(** ** The open room is a grid *)

Lemma room_offset o t : room_cell o = Some t → TileOffset (room t) = o.
Proof.
  unfold room_cell. case_bool_decide as Ho; [|done]. intros [= <-].
  destruct o as [x y]. simpl in Ho.
  assert (y = -2 ∨ y = -1 ∨ y = 0 ∨ y = 1 ∨ y = 2) as Hy by lia.
  assert (x = -2 ∨ x = -1 ∨ x = 0 ∨ x = 1 ∨ x = 2) as Hx by lia.
  clear Ho.
  destruct Hy as [-> | [-> | [-> | [-> | ->] ] ] ];
    destruct Hx as [-> | [-> | [-> | [-> | ->] ] ] ];
    vm_compute; reflexivity.
Qed.

Lemma room_grid : grid room room_cell.
Proof.
  split.
  - intros o t Ht. split; [by apply room_offset|].
    unfold room_cell in Ht. case_bool_decide as Ho; [|done].
    unfold int_range, min_int, max_int. lia.
  - intros o t d Ht. apply room_offset in Ht.
    unfold room in *. rewrite adjacent_grid_tile.
    cbn [TileOffset grid_tile] in Ht. by rewrite Ht.
Qed.

Lemma room_open k :
  ring k ≤ Z.max 2 1 →
  ∃ t, room_cell (Add (TileOffset (room 12%N)) k) = Some t ∧
    (ring k < Z.max 2 1 → Lite (room t) = true).
Proof.
  intros Hk. change (TileOffset (room 12%N)) with origin_offset.
  assert (-2 ≤ X k ≤ 2 ∧ -2 ≤ Y k ≤ 2) as Hin by (unfold ring in Hk; lia).
  assert (Add origin_offset k = k) as ->.
  { apply offset_eq. unfold Add. simpl.
    rewrite !wrap_small by (unfold int_range, min_int, max_int; lia). done. }
  unfold room_cell. rewrite bool_decide_eq_true_2 by done. eauto.
Qed.

(** The room seen from its middle at radius 2: all of it, the corner
    included. *)
Lemma FoV_open_witness :
  ∃ fov,
    (∀ fuel, (flood_fuel 2 ≤ fuel)%nat →
       FoV fuel room (Some 12%N) 2 = Done fov) ∧
    fov !! mkOffset 2 2 = Some (Some 24%N) ∧
    fov !! mkOffset 3 0 = None.
Proof.
  destruct (FoV_open room room_cell 12%N 2 room_grid eq_refl room_open)
    as (fov & Hrun & Hkeys).
  exists fov. split; [exact Hrun|]. clear Hrun. split.
  - rewrite Hkeys. reflexivity.
  - rewrite Hkeys. reflexivity.
Defined.

(** X23.  Mod by the width and the height brings any position into the
    bounds that InBounds checks, and leaves a position within the bounds
    as it is; InBounds is InRange on each coordinate. *)
Theorem InBounds_Mod x y w h :
  int_range x → int_range y → int_range w → int_range h → 0 < w → 0 < h →
  ∃ x' y', Mod x w = Done x' ∧ Mod y h = Done y' ∧
    InBounds x' y' w h = true ∧
    (InBounds x y w h = true → x' = x ∧ y' = y) ∧
    InBounds x y w h = InRange x 0 w && InRange y 0 h.
Proof.
  intros Hx Hy Hw Hh Hw0 Hh0. exists (x `mod` w), (y `mod` h).
  pose proof (Z.mod_pos_bound x w Hw0). pose proof (Z.mod_pos_bound y h Hh0).
  split_and!; [by apply Mod_mod..| | |].
  - unfold InBounds. rewrite !andb_true_iff, !bool_decide_eq_true. lia.
  - unfold InBounds. rewrite !andb_true_iff, !bool_decide_eq_true.
    intros. rewrite !Z.mod_small by lia. done.
  - unfold InBounds, InRange. by rewrite andb_assoc.
Qed.

Lemma InBounds_Mod_witness :
  ∃ x' y', Mod (-1) 80 = Done x' ∧ Mod 25 24 = Done y' ∧
    InBounds x' y' 80 24 = true.
Proof.
  destruct (InBounds_Mod (-1) 25 80 24) as (x' & y' & Hx & Hy & Hin & _);
    [split; vm_compute; discriminate..|lia|lia|].
  exists x', y'. exact (conj Hx (conj Hy Hin)).
Defined.

(** ** Straight lines *)

(** The predecessor of an offset on an axis or a diagonal lies on the same
    axis or diagonal. *)
Lemma parent_straight r d m :
  ring d = 1 → 1 ≤ m ≤ Z.max r 1 →
  parent (computeReverseTable r) (mkOffset (X d * m) (Y d * m)) =
  mkOffset (X d * (m - 1)) (Y d * (m - 1)).
Proof.
  intros Hd Hm. destruct d as [dx dy]. unfold ring in Hd. cbn [X Y] in *.
  assert (dx = -1 ∨ dx = 0 ∨ dx = 1) as Hdx by lia.
  assert (dy = -1 ∨ dy = 0 ∨ dy = 1) as Hdy by lia.
  set (o := mkOffset (dx * m) (dy * m)).
  assert (ring o = m) as Ho.
  { unfold ring, o. simpl.
    destruct Hdx as [-> | [-> | ->] ], Hdy as [-> | [-> | ->] ]; lia. }
  destruct (parent_key r o) as [Hring He]; [lia|].
  set (p := parent (computeReverseTable r) o) in *.
  destruct (Sub_edge _ _ _ He) as [Hs Hunit]. rewrite Hs in Hunit.
  pose proof (edge_axis _ _ _ He) as Hax.
  rewrite Ho in Hring. clear Hs He Ho.
  apply offset_eq. destruct p as [px py].
  unfold ring, o in *. cbn [X Y] in *. clear o.
  destruct Hdx as [-> | [-> | ->] ], Hdy as [-> | [-> | ->] ]; lia.
Qed.

Lemma ancestor_straight r d n i :
  ring d = 1 → Z.of_nat n ≤ Z.max r 1 → (i ≤ n)%nat →
  ancestor (computeReverseTable r) i
    (mkOffset (X d * Z.of_nat n) (Y d * Z.of_nat n)) =
  mkOffset (X d * (Z.of_nat n - Z.of_nat i)) (Y d * (Z.of_nat n - Z.of_nat i)).
Proof.
  intros Hd Hn. induction i as [|i IH]; intros Hi.
  - unfold ancestor. simpl. by rewrite Z.sub_0_r.
  - unfold ancestor in *. rewrite Nat.iter_succ, IH by lia.
    rewrite parent_straight by (done || lia).
    apply offset_eq. simpl. split; f_equal; lia.
Qed.

(** X24.  Along the eight directions of the compass the paths are
    straight: Trace to n steps in a direction returns the offsets at 1,
    2, ..., n steps in that direction. *)
Theorem Trace_straight d n fuel :
  ring d = 1 → (1 ≤ n)%nat → Z.of_nat n ≤ max_int → (n ≤ fuel)%nat →
  Trace fuel (Scale d (Z.of_nat n)) =
  Done ((λ i, Scale d (Z.of_nat i)) <$> seq 1 n).
Proof.
  intros Hd Hn1 Hn Hfuel.
  assert (∀ m, 0 ≤ m ≤ max_int → Scale d m = mkOffset (X d * m) (Y d * m))
    as Hscale.
  { intros m Hm. unfold Scale, ring in *.
    rewrite !wrap_small by (unfold int_range, min_int, max_int in *; nia).
    done. }
  rewrite Hscale by lia.
  set (goal := mkOffset (X d * Z.of_nat n) (Y d * Z.of_nat n)).
  assert (ring goal = Z.of_nat n) as Hg.
  { unfold ring, goal in *. simpl. nia. }
  unfold Trace, getReverseTable.
  rewrite Chebyshev_ring by lia. rewrite Hg.
  rewrite (trace_loop_chain _ n) by lia. cbn [app obind]. f_equal.
  apply list_eq. intros j.
  destruct (decide (j < n)%nat) as [Hj|Hj].
  - rewrite reverse_lookup by (by rewrite length_fmap, length_seq).
    rewrite length_fmap, length_seq, !list_lookup_fmap.
    rewrite !lookup_seq_lt by lia. cbn [fmap option_fmap option_map].
    f_equal. unfold goal. rewrite ancestor_straight by (done || lia).
    rewrite Hscale by lia. apply offset_eq. simpl. split; f_equal; lia.
  - rewrite !lookup_ge_None_2; [done|..].
    + rewrite length_fmap, length_seq. lia.
    + rewrite length_reverse, length_fmap, length_seq. lia.
Qed.

Lemma Trace_straight_witness :
  ring (mkOffset (-1) 1) = 1 ∧
  Trace 3 (Scale (mkOffset (-1) 1) 3) =
  Done [mkOffset (-1) 1; mkOffset (-2) 2; mkOffset (-3) 3].
Proof.
  assert (ring (mkOffset (-1) 1) = 1) as Hd by reflexivity.
  split; [exact Hd|].
  apply (Trace_straight (mkOffset (-1) 1) 3 3 Hd); [lia| |lia].
  vm_compute. discriminate.
Defined.

(** ** What wallfix writes *)

Section written.
Context (g : Graph) (fov0 : Fov).
Hypothesis Hcont : ∀ mk s d,
  (mk = along_x ∨ mk = along_y) → (s = 1 ∨ s = -1) → 1 ≤ s * d →
  is_Some (fov0 !! mk d 0) → ∃ pos, fov0 !! mk (d - s) 0 = Some (Some pos).

(** The keys of an axis are contiguous. *)
Lemma axis_down mk s d d' :
  (mk = along_x ∨ mk = along_y) → (s = 1 ∨ s = -1) → 1 ≤ s * d →
  s * d ≤ s * d' → is_Some (fov0 !! mk d' 0) → is_Some (fov0 !! mk d 0).
Proof.
  intros Hmk Hs Hd Hle.
  remember (Z.to_nat (s * d' - s * d)) as n eqn:Hn.
  revert d' Hle Hn. induction n as [|n IH]; intros d' Hle Hn Hkey.
  - by replace d with d' by (destruct Hs as [-> | ->]; lia).
  - destruct (Hcont mk s d') as [pos Hpos]; [done|done|lia|done|].
    apply (IH (d' - s)); [destruct Hs as [-> | ->]; lia..|by rewrite Hpos].
Qed.

(** One loop of wallfix writes the entries beside every key of its axis
    within its reach, and changes nothing else. *)
Lemma march_written mk s n d fov fov' :
  (mk = along_x ∨ mk = along_y) → (s = 1 ∨ s = -1) → 1 ≤ s * d →
  (∀ k, on_axis k → fov !! k = fov0 !! k) →
  march g mk s n d fov = Done fov' →
  (∀ k, on_axis k → fov' !! k = fov0 !! k) ∧
  (∀ d' b, s * d ≤ s * d' < s * d + Z.of_nat n → b = 1 ∨ b = -1 →
     is_Some (fov0 !! mk d' 0) → wall_entry g fov0 fov' mk s d' b) ∧
  (∀ k, (∀ d' b, s * d ≤ s * d' < s * d + Z.of_nat n → b = 1 ∨ b = -1 →
           is_Some (fov0 !! mk d' 0) → k ≠ mk d' b) →
        fov' !! k = fov !! k).
Proof.
  intros Hmk Hs. revert d fov.
  assert (∀ a, on_axis (mk a 0)) as Haxis.
  { intros a. unfold on_axis. destruct Hmk as [-> | ->]; simpl; auto. }
  induction n as [|n IH]; intros d fov Hd Hax Hm; cbn [march] in Hm.
  { injection Hm as <-. split_and!; [done| |done]. intros d' b Hd'. lia. }
  rewrite !Hax in Hm by done.
  destruct (fov0 !! mk d 0) as [v0|] eqn:Hkey.
  2:{ injection Hm as <-. split_and!; [done| |done].
      intros d' b Hd' _ Hsome. exfalso.
      destruct (axis_down mk s d d') as [? ?]; [done..|lia|done|congruence]. }
  destruct (Hcont mk s d) as [pos Hpos]; [done|done|done|by rewrite Hkey|].
  rewrite Hpos in Hm. cbn [default] in Hm.
  assert (∀ b, b = 1 ∨ b = -1 → ¬ on_axis (mk d b)) as Hoff.
  { intros b Hb. unfold on_axis. destruct Hmk as [-> | ->]; simpl; nia. }
  assert (∀ d1 d2 b1 b2, mk d1 b1 = mk d2 b2 → d1 = d2 ∧ b1 = b2) as Hinj.
  { intros d1 d2 b1 b2. destruct Hmk as [-> | ->]; intros [= ]; auto. }
  apply IH in Hm as (A1 & A2 & A3).
  - split_and!; [done| |].
    + intros d' b Hd' Hb Hsome.
      destruct (decide (d' = d)) as [->|Hne].
      * exists pos. split; [done|]. rewrite A3.
        2:{ intros d'' b'' Hd'' _ _ [? ?]%Hinj. destruct Hs as [-> | ->]; lia. }
        destruct Hb as [-> | ->].
        -- rewrite lookup_insert_ne, lookup_insert_eq; [done|].
           intros [? ?]%Hinj. lia.
        -- by rewrite lookup_insert_eq.
      * apply A2; [|done..]. destruct Hs as [-> | ->]; lia.
    + intros k Hk. rewrite A3.
      2:{ intros d' b Hd'. apply Hk. destruct Hs as [-> | ->]; lia. }
      rewrite !lookup_insert_ne; [done|symmetry; apply Hk; auto; try lia..];
        by rewrite Hkey.
  - destruct Hs as [-> | ->]; lia.
  - intros k Hk. rewrite !lookup_insert_ne; [by apply Hax|..];
      intros <-; revert Hk; apply Hoff; auto.
Qed.

(** Two loops that write the same key write the same value. *)
Lemma wall_entry_unique mk s d b mk' s' d' b' pos pos' :
  (mk = along_x ∨ mk = along_y) → (s = 1 ∨ s = -1) → (b = 1 ∨ b = -1) →
  (mk' = along_x ∨ mk' = along_y) → (s' = 1 ∨ s' = -1) → (b' = 1 ∨ b' = -1) →
  1 ≤ s * d → 1 ≤ s' * d' → mk d b = mk' d' b' →
  fov0 !! mk (d - s) 0 = Some (Some pos) →
  fov0 !! mk' (d' - s') 0 = Some (Some pos') →
  adjacent (g pos) (mk s b) = adjacent (g pos') (mk' s' b').
Proof.
  intros Hmk Hs Hb Hmk' Hs' Hb' Hd Hd' Hk Hpos Hpos'.
  destruct Hmk as [-> | ->], Hmk' as [-> | ->];
    injection Hk as Hk1 Hk2.
  - assert (s = s') as Hss
      by (destruct Hs as [-> | ->], Hs' as [-> | ->]; lia).
    congruence.
  - assert (d = s ∧ d' = s') as [E1 E2].
    { destruct Hs as [-> | ->], Hs' as [-> | ->], Hb as [-> | ->],
        Hb' as [-> | ->]; lia. }
    replace (d - s) with 0 in Hpos by lia.
    replace (d' - s') with 0 in Hpos' by lia.
    unfold along_x, along_y in *. congruence.
  - assert (d = s ∧ d' = s') as [E1 E2].
    { destruct Hs as [-> | ->], Hs' as [-> | ->], Hb as [-> | ->],
        Hb' as [-> | ->]; lia. }
    replace (d - s) with 0 in Hpos by lia.
    replace (d' - s') with 0 in Hpos' by lia.
    unfold along_x, along_y in *. congruence.
  - assert (s = s') as Hss
      by (destruct Hs as [-> | ->], Hs' as [-> | ->]; lia).
    congruence.
Qed.

(** A later loop keeps what an earlier loop wrote. *)
Lemma march_keeps mk s d b mk' s' n fov fov' :
  (mk = along_x ∨ mk = along_y) → (s = 1 ∨ s = -1) → (b = 1 ∨ b = -1) →
  (mk' = along_x ∨ mk' = along_y) → (s' = 1 ∨ s' = -1) → 1 ≤ s * d →
  (∀ k, on_axis k → fov !! k = fov0 !! k) →
  march g mk' s' n s' fov = Done fov' →
  wall_entry g fov0 fov mk s d b → wall_entry g fov0 fov' mk s d b.
Proof.
  intros Hmk Hs Hb Hmk' Hs' Hd Hax Hm (pos & Hpos & Hv).
  apply march_written in Hm as (_ & A2 & A3);
    [|done|done|destruct Hs' as [-> | ->]; lia|done].
  exists pos. split; [done|].
  assert (∃ d0 b0, mk d b = mk' d0 b0 ∧
    ∀ d' b', mk d b = mk' d' b' → d' = d0 ∧ b' = b0) as (d0 & b0 & Hk0 & Hinj).
  { destruct Hmk' as [-> | ->].
    - exists (X (mk d b)), (Y (mk d b)). split; [by destruct (mk d b)|].
      by intros d' b' ->.
    - exists (Y (mk d b)), (X (mk d b)). split; [by destruct (mk d b)|].
      by intros d' b' ->. }
  destruct (decide ((s' * s' ≤ s' * d0 < s' * s' + Z.of_nat n) ∧
    (b0 = 1 ∨ b0 = -1) ∧ is_Some (fov0 !! mk' d0 0)))
    as [(Hd0 & Hb0 & Hsome)|Hno].
  - destruct (A2 d0 b0 Hd0 Hb0 Hsome) as (pos' & Hpos' & Hv').
    rewrite Hk0, Hv'. f_equal. symmetry.
    apply (wall_entry_unique mk s d b mk' s' d0 b0); try done.
    destruct Hs' as [-> | ->]; lia.
  - rewrite A3; [done|]. intros d' b' Hd' Hb' Hsome Hk. apply Hno.
    by destruct (Hinj d' b' Hk) as [<- <-].
Qed.

(** wallfix writes the entries beside every key of the two axes within the
    radius. *)
Lemma wallfix_written r fov mk s d b :
  1 ≤ r ≤ max_int → wallfix g fov0 r = Done fov →
  (mk = along_x ∨ mk = along_y) → (s = 1 ∨ s = -1) → (b = 1 ∨ b = -1) →
  1 ≤ s * d ≤ r → is_Some (fov0 !! mk d 0) →
  wall_entry g fov0 fov mk s d b.
Proof.
  intros Hr Hw Hmk Hs Hb Hd Hsome.
  assert (- wrap (- r) = r) as Hdown.
  { rewrite wrap_small; [lia|]. unfold int_range, min_int, max_int in *. lia. }
  unfold wallfix in Hw. rewrite Hdown in Hw.
  destruct (march g along_x 1 (Z.to_nat r) 1 fov0) as [f1| |] eqn:H1;
    [|done..]. cbn [obind] in Hw.
  destruct (march g along_x (-1) (Z.to_nat r) (-1) f1) as [f2| |] eqn:H2;
    [|done..]. cbn [obind] in Hw.
  destruct (march g along_y 1 (Z.to_nat r) 1 f2) as [f3| |] eqn:H3;
    [|done..]. cbn [obind] in Hw.
  destruct (march_written along_x 1 (Z.to_nat r) 1 fov0 f1)
    as (A1 & W1 & _); [auto|auto|lia|done|done|].
  destruct (march_written along_x (-1) (Z.to_nat r) (-1) f1 f2)
    as (A2 & W2 & _); [auto|auto|lia|done|done|].
  destruct (march_written along_y 1 (Z.to_nat r) 1 f2 f3)
    as (A3 & W3 & _); [auto|auto|lia|done|done|].
  destruct (march_written along_y (-1) (Z.to_nat r) (-1) f3 fov)
    as (_ & W4 & _); [auto|auto|lia|done|done|].
  assert (∀ mk' s' f f',
    (mk' = along_x ∨ mk' = along_y) → (s' = 1 ∨ s' = -1) →
    (∀ k, on_axis k → f !! k = fov0 !! k) →
    march g mk' s' (Z.to_nat r) s' f = Done f' →
    wall_entry g fov0 f mk s d b → wall_entry g fov0 f' mk s d b) as Hkeep.
  { intros mk' s' f f' ????. eapply march_keeps; eauto. lia. }
  destruct Hmk as [-> | ->], Hs as [-> | ->].
  - apply (Hkeep along_y (-1) f3 fov); [auto|auto|done|done|].
    apply (Hkeep along_y 1 f2 f3); [auto|auto|done|done|].
    apply (Hkeep along_x (-1) f1 f2); [auto|auto|done|done|].
    apply W1; [lia|done..].
  - apply (Hkeep along_y (-1) f3 fov); [auto|auto|done|done|].
    apply (Hkeep along_y 1 f2 f3); [auto|auto|done|done|].
    apply W2; [lia|done..].
  - apply (Hkeep along_y (-1) f3 fov); [auto|auto|done|done|].
    apply W3; [lia|done..].
  - apply W4; [lia|done..].
Qed.
End written.

(** X25.  A result of FoV at a positive radius, entry by entry: the origin
    offset mapped to the origin tile; beside every key on a cardinal axis,
    the origin apart, the two offsets one step off the axis, mapped to the
    diagonal neighbours of the tile at the previous position of the axis,
    wallfix having the last word there; and every other offset the flood
    records, mapped to the tile it recorded. *)
Theorem FoV_result fuel g origin r fov :
  1 ≤ r ≤ max_int → FoV fuel g (Some origin) r = Done fov →
  (∀ k v, patch g fov k v → fov !! k = Some v) ∧
  (∀ mk s d b,
     (mk = along_x ∨ mk = along_y) → (s = 1 ∨ s = -1) → (b = 1 ∨ b = -1) →
     1 ≤ s * d → is_Some (fov !! mk d 0) → ∃ v, patch g fov (mk d b) v) ∧
  (∀ k v, fov !! k = Some v ↔
     (k = origin_offset ∧ v = Some origin) ∨ patch g fov k v ∨
     (∃ u, v = Some u ∧ recorded g (computeTable r) origin k u ∧
        ∀ v', patch g fov k v' → v' = v)).
Proof.
  intros Hr HF.
  destruct (FoV_entries _ _ _ _ _ HF) as (E0 & E1 & E2 & E3 & _).
  unfold FoV in HF. pose proof (flood_computeTable g origin r fuel) as Hfl.
  destruct (flood fuel g (computeTable r) {[origin_offset := Some origin]}
    [origin_offset]) as [fov0| |]; [|done..]. cbn [obind] in HF.
  assert (∀ mk s d, (mk = along_x ∨ mk = along_y) → (s = 1 ∨ s = -1) →
    1 ≤ s * d → is_Some (fov0 !! mk d 0) →
    ∃ pos, fov0 !! mk (d - s) 0 = Some (Some pos)) as Hcont.
  { intros. by eapply flood_axis. }
  destruct (wallfix_inv g fov0 r Hcont) as (fov' & Hw & A1 & _).
  assert (fov' = fov) as -> by congruence.
  assert (∀ mk a, mk = along_x ∨ mk = along_y → on_axis (mk a 0)) as Haxis.
  { intros mk a Hmk. unfold on_axis. destruct Hmk as [-> | ->]; simpl; auto. }
  assert (∀ k v, patch g fov k v → fov !! k = Some v) as Hpatch.
  { intros k v
      (mk & s & d & b & pos & Hmk & Hs & Hb & Hd & -> & Hsome & Hpos & ->).
    rewrite A1 in Hsome, Hpos by auto.
    assert (s * d ≤ r) as Hdr.
    { assert (ring (mk d 0) ≤ Z.max r 1) as Hring.
      { apply E3. rewrite A1; auto. }
      revert Hring. unfold ring.
      destruct Hmk as [-> | ->], Hs as [-> | ->]; simpl; lia. }
    destruct (wallfix_written g fov0 Hcont r fov mk s d b)
      as (pos' & Hpos' & Hv); [done..|lia|done|].
    rewrite Hv. congruence. }
  split_and!; [done| |].
  - intros mk s d b Hmk Hs Hb Hd Hsome.
    destruct (Hcont mk s d) as [pos Hpos]; [done..|by rewrite <-A1 by auto|].
    exists (adjacent (g pos) (mk s b)), mk, s, d, b, pos.
    split_and!; [done..|by rewrite A1 by auto|done].
  - intros k v. split.
    + intros Hk. destruct (decide (k = origin_offset)) as [->|Hne].
      { left. split; [done|congruence]. }
      destruct (E1 k v Hk Hne) as [(u & -> & Hrec)|Hp]; [|auto].
      right. right. exists u. split_and!; [done..|].
      intros v' Hp%Hpatch. congruence.
    + intros [[-> ->]|[Hp|(u & -> & Hrec & Hagree)] ]; [done|auto|].
      destruct (E2 k u Hrec) as (v0 & Hv0 & [->|Hp]); [done|].
      by rewrite Hv0, (Hagree _ Hp).
Qed.

Lemma FoV_result_witness :
  1 ≤ 10 ≤ max_int ∧
  FoV 30 hall (Some (hall_at 0)) 10 = Done hall_view ∧
  hall_view !! mkOffset 2 1 = Some (Some 17%N).
Proof.
  assert (1 ≤ 10 ≤ max_int) as Hr by (split; vm_compute; discriminate).
  assert (FoV 30 hall (Some (hall_at 0)) 10 = Done hall_view) as HF.
  { vm_compute. reflexivity. }
  assert (patch hall hall_view (mkOffset 2 1) (Some 17%N)) as Hp.
  { clear HF. exists along_x, 1, 2, 1, (hall_at 1).
    split_and!; [auto|auto|auto|lia|reflexivity| | |].
    - apply (bool_decide_unpack _). vm_compute. exact I.
    - vm_compute. reflexivity.
    - vm_compute. reflexivity. }
  exact (conj Hr (conj HF
    (proj1 (FoV_result 30 hall (hall_at 0) 10 hall_view Hr HF) _ _ Hp))).
Defined.
